(** * p2p: tracker, forwarder, peer table and per-peer driver

    A shallow embedding of the Go sources of the p2p overlay, and what they
    do with respect to their specification.

    The embedding:
    - [Tracker]   : the DHT bootstrap node of [p2p-cp/cp.go]
                    ([DHTRouter.Listen], [ResponseConn], [ResponseFind],
                    [Node.GenerateID], [DHTRouter.Ping]);
    - [Forwarder] : the control peer of [p2p-cp/cp.go] ([Proxy.HandleMessage]);
    - [Client]    : the DHT client ([DHTClient.ListenDHT], [Compose],
                    [UpdateLastCatch], [Initialize]);
    - [Peer]      : the per-peer driver ([NetworkPeer.Run] and the handlers
                    [stateRequestedIP], [stateConnecting], [stateRouting]);
    - [PeerStates]: more handlers of the driver ([stateInit],
                    [stateConnected], [stateHandshakingFailed], the handlers
                    that wait for the other side, [stateWaitingForProxy]);
    - [PeerTable] : [PeerList] with its IP->ID and MAC->ID tables;
    - [Tun]       : the packets of the TUN/TAP device ([Interface.ReadPacket],
                    [Interface.WritePacket]).

    Then [Scenario] (concrete peers and library answers), the vocabulary of
    the properties ([TrackerSpec], [ClientSpec], [ForwarderSpec],
    [PeerTableSpec], [PeerSpec], [PeerStatesSpec], [TunSpec]) and the
    properties themselves ([TrackerTheory], [ClientTheory],
    [ForwarderTheory], [PeerTableTheory], [PeerTheory], [PeerStatesTheory],
    [TunTheory]).

    Strings are [string]; Go maps are [gmap]; slices are lists; a Go [int]
    is a [Z] (no value below comes near the 64-bit bounds); code that can
    panic returns a [result].  What the libraries answer ([net], [uuid], the
    clock) and what other goroutines do is an argument of the function that
    asks for it. *)

From Stdlib Require Import Strings.Ascii.
From stdpp Require Import gmap strings list fin_maps sorting.

#[local] Set Warnings "-clear-no-such-hyp".

Local Open Scope string_scope.
Local Open Scope list_scope.
Local Open Scope Z_scope.
Local Open Scope stdpp_scope.

(** ** Outcomes of code that can panic or consult an external source *)

(** [Starved] is the model running out of recorded answers of an external
    source (the UUID generator); it is not a behaviour of the program. *)
Inductive result (A : Type) : Type :=
  | Done (a : A)
  | Panicked
  | Starved.
Arguments Done {A} a.
Arguments Panicked {A}.
Arguments Starved {A}.

Global Instance result_bind : MBind result := λ A B k r,
  match r with
  | Done a => k a
  | Panicked => Panicked
  | Starved => Starved
  end.

Global Instance result_fmap : FMap result := λ A B f r,
  match r with
  | Done a => Done (f a)
  | Panicked => Panicked
  | Starved => Starved
  end.

(** Go's [==] on strings. *)
Definition streq (a b : string) : bool := bool_decide (a = b).

(** ** Types shared by the tracker and its clients *)

(** [net.UDPAddr] by value: an IP and a port, rendered by [String()] as
    [ip:port]. *)
Record UDPAddr := mkUDPAddr { IP : string; UDPPort : string }.

Global Instance UDPAddr_eq_dec : EqDecision UDPAddr.
Proof. solve_decision. Defined.

Definition UDPAddr_String (a : UDPAddr) : string := IP a +:+ ":" +:+ UDPPort a.

(** [String()] of a [*UDPAddr] that may be nil. *)
Definition ptr_String (a : option UDPAddr) : string :=
  match a with
  | Some a => UDPAddr_String a
  | None => "<nil>"
  end.

(** [commons.DHTRequest] and [commons.DHTResponse], the decoded control
    messages (the bencode codec is a library). *)
Record DHTRequest := mkRequest {
  reqId : string;
  reqHash : string;
  reqCommand : string;
  reqPort : string
}.

Record DHTResponse := mkResponse {
  respCommand : string;
  respId : string;
  respDest : string
}.

(** The zero value of [DHTRequest]: what [Extract] leaves when decoding fails. *)
Definition zeroRequest : DHTRequest := mkRequest "" "" "" "".

Definition CMD_CONN := "conn".
Definition CMD_FIND := "find".
Definition CMD_NODE := "node".
Definition CMD_PING := "ping".
Definition CMD_REGCP := "regcp".
Definition CMD_CP := "cp".
Definition CMD_BADCP := "badcp".

(** * The tracker ([p2p-cp/cp.go], first file) *)
Module Tracker.

(** [type Node struct]; [LastPing] is never read or written by this file and
    is left out. *)
Record Node := mkNode {
  ID : string;
  Endpoint : string;
  ConnectionAddress : string;
  AssociatedHash : string;
  Addr : UDPAddr;
  MissedPing : Z;
  Disabled : bool
}.

Global Instance Node_eq_dec : EqDecision Node.
Proof. solve_decision. Defined.

Record ControlPeer := mkControlPeer { cpAddr : UDPAddr }.

Record Infohash := mkInfohash { Hash : string; NodeAddr : string }.

(** The package variable [NodeList] and the fields of [DHTRouter] that the
    handlers touch. *)
Record DHTRouter := mkRouter {
  NodeList : list Node;
  Hashes : list Infohash;
  ControlPeers : list ControlPeer
}.

Definition set_NodeList (dht : DHTRouter) (nl : list Node) : DHTRouter :=
  mkRouter nl (Hashes dht) (ControlPeers dht).

Definition set_ControlPeers (dht : DHTRouter) (cps : list ControlPeer) : DHTRouter :=
  mkRouter (NodeList dht) (Hashes dht) cps.

Definition set_Endpoint (n : Node) (e : string) : Node :=
  mkNode (ID n) e (ConnectionAddress n) (AssociatedHash n) (Addr n)
         (MissedPing n) (Disabled n).

Definition set_AssociatedHash (n : Node) (h : string) : Node :=
  mkNode (ID n) (Endpoint n) (ConnectionAddress n) h (Addr n)
         (MissedPing n) (Disabled n).

Definition set_MissedPing (n : Node) (m : Z) : Node :=
  mkNode (ID n) (Endpoint n) (ConnectionAddress n) (AssociatedHash n) (Addr n)
         m (Disabled n).

Definition set_Disabled (n : Node) (d : bool) : Node :=
  mkNode (ID n) (Endpoint n) (ConnectionAddress n) (AssociatedHash n) (Addr n)
         (MissedPing n) d.

(** The zero value [var n Node]. *)
Definition zeroNode : Node := mkNode "" "" "" "" (mkUDPAddr "" "") 0 false.

(** ** [Node.GenerateID]

    [uuid.NewTimeBased] is an external source: [uuids] holds its successive
    answers, [None] for an error.  The loop compares the candidate with the
    [Hash] field of every entry of [hashes]; the retry is the recursive call,
    here on the rest of the answers. *)
Fixpoint GenerateID (uuids : list (option string)) (hashes : list Infohash)
  : result (string * list (option string)) :=
  match uuids with
  | [] => Starved
  | None :: _ => Panicked
  | Some id :: rest =>
      let unique :=
        foldl (λ unique hash, if streq (Hash hash) id then false else unique)
              true hashes in
      if unique then Done (id, rest) else GenerateID rest hashes
  end.

(** ** [DHTRouter.IsNewPeer] *)
Fixpoint IsNewPeer (nl : list Node) (addr : string) : bool :=
  match nl with
  | [] => true
  | node :: nl' =>
      if streq (ConnectionAddress node) addr then false else IsNewPeer nl' addr
  end.

Section Net.

(** [net.ResolveUDPAddr] and [ControlPeer.ValidateConnection] (a dial) are
    answers of the network library. *)
Variable ResolveUDPAddr : string → option UDPAddr.
Variable ValidateConnection : ControlPeer → bool.

(** ** [DHTRouter.ResponseConn]

    [a1.IP] on a nil [a1] is a nil dereference.  Every node whose connection
    address is [addr] gets the endpoint [a.String()]. *)
Definition ResponseConn (nl : list Node) (req : DHTRequest) (addr : string)
    (n : Node) : result (list Node * DHTResponse) :=
  match ResolveUDPAddr addr with
  | None => Panicked
  | Some a1 =>
      let a := ResolveUDPAddr (IP a1 +:+ ":" +:+ reqPort req) in
      let nl' :=
        (λ node, if streq (ConnectionAddress node) addr
                 then set_Endpoint node (ptr_String a) else node) <$> nl in
      Done (nl', mkResponse (reqCommand req) (ID n) "0")
  end.

(** ** [DHTRouter.RegisterHash] *)
Definition RegisterHash (nl : list Node) (addr hash : string) : list Node :=
  (λ node, if streq (ConnectionAddress node) addr
           then set_AssociatedHash node hash else node) <$> nl.

(** ** [DHTRouter.ResponseFind]

    The scan keeps two locals, [foundDest] and [hashExists]. *)
Definition find_step (req : DHTRequest) (addr : string)
    (acc : string * bool) (node : Node) : string * bool :=
  let '(foundDest, hashExists) := acc in
  if streq (AssociatedHash node) (reqHash req) then
    if streq (ConnectionAddress node) addr then (foundDest, true)
    else (foundDest +:+ Endpoint node +:+ ",", hashExists)
  else (foundDest, hashExists).

Definition ResponseFind (nl : list Node) (req : DHTRequest) (addr : string)
  : list Node * DHTResponse :=
  let '(foundDest, hashExists) := foldl (find_step req addr) ("", false) nl in
  let nl' := if hashExists then nl else RegisterHash nl addr (reqHash req) in
  (nl', mkResponse (reqCommand req) "0" foundDest).

(** ** [DHTRouter.ResponsePing] *)
Definition ResponsePing (req : DHTRequest) (addr : string) : DHTResponse :=
  mkResponse (reqCommand req) "0" "0".

(** ** [DHTRouter.ResponseRegCP] *)
Definition ResponseRegCP (dht : DHTRouter) (req : DHTRequest) (addr : string)
  : DHTRouter * DHTResponse :=
  match ResolveUDPAddr addr with
  | None => (dht, mkResponse "" "0" "0")
  | Some laddr =>
      let isNew :=
        foldl (λ isNew cp, if streq (IP (cpAddr cp)) (IP laddr) then false else isNew)
              true (ControlPeers dht) in
      if negb isNew then (dht, mkResponse "" "0" "0")
      else
        let newCP := mkControlPeer laddr in
        if negb (ValidateConnection newCP) then (dht, mkResponse "" "0" "0")
        else (set_ControlPeers dht (ControlPeers dht ++ [newCP]),
              mkResponse (reqCommand req) "0" "0")
  end.

(** ** [DHTRouter.ResponseCP]: the last control peer that validates wins. *)
Definition ResponseCP (dht : DHTRouter) (req : DHTRequest) (addr : string)
  : DHTResponse :=
  mkResponse (reqCommand req) "0"
    (foldl (λ dest cp, if ValidateConnection cp
                       then UDPAddr_String (cpAddr cp) else dest)
           "0" (ControlPeers dht)).

(** The [badcp] loop: the first control peer named by [req.Hash] that fails
    validation is cut out, and the loop breaks. *)
Fixpoint remove_bad_cp (cps : list ControlPeer) (hash : string) : list ControlPeer :=
  match cps with
  | [] => []
  | cp :: cps' =>
      if streq (UDPAddr_String (cpAddr cp)) hash && negb (ValidateConnection cp)
      then cps'
      else cp :: remove_bad_cp cps' hash
  end.

(** ** [DHTRouter.Listen]

    One datagram: its source [addr] and the request [Extract] decoded from it
    ([zeroRequest] when decoding failed).  The result is the new router, the
    unread answers of the UUID source, and the response that was sent, if any
    ([resp.Command != ""]). *)
Definition Listen (dht : DHTRouter) (uuids : list (option string))
    (addr : UDPAddr) (req : DHTRequest)
  : result (DHTRouter * list (option string) * option DHTResponse) :=
  '(n, nl, uuids') ←
    (if IsNewPeer (NodeList dht) (UDPAddr_String addr) then
       '(id, rest) ← GenerateID uuids (Hashes dht) ;
       let n := mkNode id "" (UDPAddr_String addr) "" addr 0 false in
       Done (n, NodeList dht ++ [n], rest)
     else Done (zeroNode, NodeList dht, uuids)) ;
  let dht := set_NodeList dht nl in
  '(dht', resp) ←
    (if streq (reqCommand req) CMD_CONN then
       '(nl', resp) ← ResponseConn nl req (UDPAddr_String addr) n ;
       Done (set_NodeList dht nl', resp)
     else if streq (reqCommand req) CMD_FIND then
       let '(nl', resp) := ResponseFind nl req (UDPAddr_String addr) in
       Done (set_NodeList dht nl', resp)
     else if streq (reqCommand req) CMD_PING then
       Done (set_NodeList dht
               ((λ node, if streq (UDPAddr_String (Addr node)) (UDPAddr_String addr)
                         then set_MissedPing node 0 else node) <$> nl),
             mkResponse "" "" "")
     else if streq (reqCommand req) CMD_REGCP then
       Done (ResponseRegCP dht req (UDPAddr_String addr))
     else if streq (reqCommand req) CMD_CP then
       Done (dht, ResponseCP dht req (UDPAddr_String addr))
     else if streq (reqCommand req) CMD_BADCP then
       let dht1 := set_ControlPeers dht (remove_bad_cp (ControlPeers dht) (reqHash req)) in
       Done (dht1, ResponseCP dht1 req (UDPAddr_String addr))
     else Done (dht, mkResponse "" "" "")) ;
  Done (dht', uuids',
        if streq (respCommand resp) "" then None else Some resp).

End Net.

(** ** [DHTRouter.Ping]

    The loop body is [removal pass; Sleep; sweep; sort].  [Ping_remove] is the
    removal pass: for every index [i] of [removeKeys], in order,
    [NodeList = append(NodeList[:i], NodeList[i+1:]...)] and then the log line
    that reads [NodeList[i].ConnectionAddress] from the list as it is after
    the cut.  A slice bound or an index out of range is a panic.  The second
    component collects the logged addresses. *)
Fixpoint Ping_remove (removeKeys : list nat) (nl : list Node)
  : result (list Node * list string) :=
  match removeKeys with
  | [] => Done (nl, [])
  | i :: keys =>
      if bool_decide (i + 1 ≤ length nl)%nat then
        let nl' := take i nl ++ drop (i + 1) nl in
        match nl' !! i with
        | Some node =>
            '(nl'', logged) ← Ping_remove keys nl';
            Done (nl'', ConnectionAddress node :: logged)
        | None => Panicked
        end
      else Panicked
  end.

(** The sweep over [NodeList] after the sleep: node [i] gets one more missed
    ping and a [ping] probe; from 4 missed pings on, [i] is appended to
    [removeKeys] and the node is disabled. *)
Definition PING_PROBE : DHTResponse := mkResponse "ping" "0" "0".

Fixpoint Ping_sweep (i : nat) (nl : list Node)
  : list Node * list nat * list (UDPAddr * DHTResponse) :=
  match nl with
  | [] => ([], [], [])
  | node :: rest =>
      let node1 := set_MissedPing node (MissedPing node + 1) in
      let '(rest', keys, sent) := Ping_sweep (S i) rest in
      if bool_decide (4 ≤ MissedPing node1)
      then (set_Disabled node1 true :: rest', i :: keys, (Addr node, PING_PROBE) :: sent)
      else (node1 :: rest', keys, (Addr node, PING_PROBE) :: sent)
  end.

(** [sort.Sort(sort.Reverse(sort.IntSlice(removeKeys)))] *)
Definition sort_descending (keys : list nat) : list nat :=
  merge_sort (flip le) keys.

(** One turn of the loop seen from the wake-up: the sweep, the sort, and the
    removal pass that opens the next iteration with no sleep in between (the
    first iteration's removal pass runs on an empty [removeKeys]). *)
Definition Ping_cycle (nl : list Node)
  : result (list Node * list (UDPAddr * DHTResponse)) :=
  let '(nl1, keys, sent) := Ping_sweep 0 nl in
  '(nl2, _) ← Ping_remove (sort_descending keys) nl1;
  Done (nl2, sent).

(** ** The tracker as a whole

    The receive loop and the ping loop share [NodeList]; an execution is a
    sequence of datagrams and ping timeouts. *)
Inductive event :=
  | Datagram (addr : UDPAddr) (req : DHTRequest)
  | PingTimeout.

Record Tracker := mkTracker {
  router : DHTRouter;
  uuid_source : list (option string);
  sent : list (UDPAddr * DHTResponse)
}.

Section System.

Variable ResolveUDPAddr : string → option UDPAddr.
Variable ValidateConnection : ControlPeer → bool.

Definition step (t : Tracker) (ev : event) : result Tracker :=
  match ev with
  | Datagram addr req =>
      '(dht, uuids, resp) ←
        Listen ResolveUDPAddr ValidateConnection (router t) (uuid_source t) addr req;
      Done (mkTracker dht uuids
              (sent t ++ match resp with Some r => [(addr, r)] | None => [] end))
  | PingTimeout =>
      '(nl, probes) ← Ping_cycle (NodeList (router t));
      Done (mkTracker (set_NodeList (router t) nl) (uuid_source t) (sent t ++ probes))
  end.

Fixpoint run (t : Tracker) (evs : list event) : result Tracker :=
  match evs with
  | [] => Done t
  | ev :: evs' => t' ← step t ev; run t' evs'
  end.

End System.

(** A tracker that has just started. *)
Definition fresh_tracker (uuids : list (option string)) : Tracker :=
  mkTracker (mkRouter [] [] []) uuids [].

End Tracker.

(** * The forwarder ([p2p-cp/cp.go], second file: [Proxy]) *)
Module Forwarder.

(** A [*net.UDPAddr].  [HandleMessage] compares these pointers with [==], so
    the model keeps the identity of the allocation ([loc]) beside the address
    it points to. *)
Record AddrPtr := mkAddrPtr { loc : nat; target : UDPAddr }.

(** Go's [==] on two [*net.UDPAddr]: the same allocation, or both nil. *)
Definition ptr_eq (a b : option AddrPtr) : bool :=
  match a, b with
  | Some x, Some y => bool_decide (loc x = loc y)
  | None, None => true
  | _, _ => false
  end.

Definition AddrPtr_String (a : option AddrPtr) : string :=
  ptr_String (target <$> a).

(** [type Tunnel struct] *)
Record Tunnel := mkTunnel {
  Peer1 : option AddrPtr;
  Peer2 : option AddrPtr;
  UniqueHash : string
}.

(** [udpcs.P2PMessage] as the handler reads it: the header's [Type] and
    [ProxyId] (both [uint16]) and the payload. *)
Record P2PMessage := mkP2PMessage {
  Type_ : Z;
  ProxyId : Z;
  Data : string
}.

Definition MT_PROXY : Z := 7.

(** [uint16(i)] for a non-negative [int]. *)
Definition uint16 (i : Z) : Z := i `mod` 65536.

(** The [Proxy]: the tunnel table [map[uint16]Tunnel], and the allocator of
    the Go heap, which hands out the next fresh [loc]. *)
Record Proxy := mkProxy {
  Tunnels : gmap Z Tunnel;
  next_loc : nat
}.

(** What the handler sends: [CreateProxyP2PMessage(responseId, data, 0)] to
    the sender, or a forwarded message. *)
Inductive sent_message :=
  | ProxyReply (responseId : Z) (data : string) (to : option AddrPtr)
  | Forwarded (msg : P2PMessage) (to : option AddrPtr).

Section Handle.

(** [net.ResolveUDPAddr] as a function of the text; each successful call
    allocates a new [UDPAddr]. *)
Variable ResolveUDPAddr : string → option UDPAddr.

(** The order in which [range p.Tunnels] visits the map (unspecified in Go). *)
Variable range_order : list (Z * Tunnel) → list (Z * Tunnel).

Definition resolve_alloc (heap : nat) (data : string) : option AddrPtr * nat :=
  match ResolveUDPAddr data with
  | Some a => (Some (mkAddrPtr heap a), S heap)
  | None => (None, heap)
  end.

(** The body of [for id, tunnel := range p.Tunnels]. *)
Definition scan_step (src_addr targetIp : option AddrPtr)
    (responseId : Z) (entry : Z * Tunnel) : Z :=
  let '(id, tunnel) := entry in
  if ptr_eq (Peer1 tunnel) src_addr then
    if ptr_eq (Peer2 tunnel) targetIp then id else responseId
  else if ptr_eq (Peer2 tunnel) src_addr then
    if ptr_eq (Peer1 tunnel) targetIp then id else responseId
  else responseId.

Definition scan_tunnels (tunnels : gmap Z Tunnel)
    (src_addr targetIp : option AddrPtr) : Z :=
  foldl (scan_step src_addr targetIp) (-1) (range_order (map_to_list tunnels)).

(** [for i := 1; i < len(p.Tunnels)+2; i++]: the first [i] whose key
    [uint16(i)] is not in the table, if the loop finds one. *)
Fixpoint first_free_from (tunnels : gmap Z Tunnel) (candidates : list Z) : option Z :=
  match candidates with
  | [] => None
  | i :: rest =>
      match tunnels !! uint16 i with
      | None => Some i
      | Some _ => first_free_from tunnels rest
      end
  end.

Definition first_free (tunnels : gmap Z Tunnel) : option Z :=
  first_free_from tunnels (seqZ 1 (Z.of_nat (size tunnels) + 1)).

(** ** [Proxy.HandleMessage]

    [err] is the receive error, [decoded] the result of
    [udpcs.P2PMessageFromBytes]. *)
Definition HandleMessage (p : Proxy) (src_addr : option AddrPtr)
    (err : bool) (decoded : option P2PMessage) : Proxy * list sent_message :=
  if err then (p, []) else
  match decoded with
  | None => (p, [])
  | Some msg =>
      if bool_decide (Type_ msg = MT_PROXY) then
        let data := Data msg in
        let '(targetIp, heap1) := resolve_alloc (next_loc p) data in
        let responseId := scan_tunnels (Tunnels p) src_addr targetIp in
        if bool_decide (responseId = -1) then
          let '(peer2, heap2) := resolve_alloc heap1 data in
          let t := mkTunnel src_addr peer2 "" in
          match first_free (Tunnels p) with
          | Some i =>
              (mkProxy (<[uint16 i := t]> (Tunnels p)) heap2,
               [ProxyReply i data src_addr])
          | None => (mkProxy (Tunnels p) heap2, [ProxyReply (-1) data src_addr])
          end
        else (mkProxy (Tunnels p) heap1, [ProxyReply responseId data src_addr])
      else
        match Tunnels p !! ProxyId msg with
        | None => (p, [])
        | Some tunnel =>
            if streq (AddrPtr_String (Peer1 tunnel)) (AddrPtr_String src_addr)
            then (p, [Forwarded msg (Peer2 tunnel)])
            else if streq (AddrPtr_String (Peer2 tunnel)) (AddrPtr_String src_addr)
            then (p, [Forwarded msg (Peer1 tunnel)])
            else (p, [])
        end
  end.

(** The receive loop of the UDP server ([udpcs], not among the sources) hands
    every datagram to the handler with its source address; [ReadFromUDP]
    allocates that address anew for every datagram. *)
Definition receive (p : Proxy) (src : UDPAddr) (msg : P2PMessage)
  : Proxy * list sent_message :=
  let src_addr := Some (mkAddrPtr (next_loc p) src) in
  HandleMessage (mkProxy (Tunnels p) (S (next_loc p))) src_addr false (Some msg).

Fixpoint receive_all (p : Proxy) (frames : list (UDPAddr * P2PMessage))
  : Proxy * list sent_message :=
  match frames with
  | [] => (p, [])
  | (src, msg) :: rest =>
      let '(p1, out1) := receive p src msg in
      let '(p2, out2) := receive_all p1 rest in
      (p2, out1 ++ out2)
  end.

End Handle.

(** [p.Tunnels = make(map[uint16]Tunnel)] *)
Definition Initialize : Proxy := mkProxy ∅ 0.

End Forwarder.

(** * The DHT client ([dht] package) *)
Module Client.

(** [type DHTClient struct], without the sockets. *)
Record DHTClient := mkDHTClient {
  Routers : string;
  FailedRouters : list string;
  NetworkHash : string;
  NetworkPeers : list string;
  P2PPort : Z;
  LastCatch : list string;
  ID : string
}.

Definition set_ID (dht : DHTClient) (id : string) : DHTClient :=
  mkDHTClient (Routers dht) (FailedRouters dht) (NetworkHash dht)
              (NetworkPeers dht) (P2PPort dht) (LastCatch dht) id.

Definition set_LastCatch (dht : DHTClient) (catch : list string) : DHTClient :=
  mkDHTClient (Routers dht) (FailedRouters dht) (NetworkHash dht)
              (NetworkPeers dht) (P2PPort dht) catch (ID dht).

(** [DHTClient.Compose] followed by [EncodeRequest]: the request that is put
    on the wire, [None] for the empty message of an empty command. *)
Definition Compose (command id hash : string) : option DHTRequest :=
  let req := mkRequest (if streq id "" then "0" else id)
                       (if streq hash "" then "0" else hash)
                       command "" in
  if streq (reqCommand req) "" then None else Some req.

(** [strings.Split(s, ",")] *)
Fixpoint split_commas (s : string) : list string :=
  match s with
  | EmptyString => [""]
  | String a s' =>
      if bool_decide (a = ","%char) then "" :: split_commas s'
      else match split_commas s' with
           | w :: ws => String a w :: ws
           | [] => [String a ""]
           end
  end.

(** [DHTClient.UpdateLastCatch] *)
Definition UpdateLastCatch (lastCatch : list string) (catch : string) : list string :=
  foldl (λ lastCatch p,
           if streq p "" then lastCatch
           else
             let found := foldl (λ found catchedPeer,
                                   if streq p catchedPeer then true else found)
                                false lastCatch in
             if found then lastCatch else lastCatch ++ [p])
        lastCatch (split_commas catch).

(** The body of the loop of [DHTClient.ListenDHT] for one datagram that was
    read and decoded: the new client and what it writes to the tracker. *)
Definition ListenDHT (dht : DHTClient) (data : DHTResponse)
  : DHTClient * list (option DHTRequest) :=
  if streq (respCommand data) CMD_CONN then
    let dht := set_ID dht (respId data) in
    (dht, [Compose CMD_FIND "" (NetworkHash dht)])
  else if streq (respCommand data) CMD_PING then
    (dht, [Compose CMD_PING "" ""])
  else if streq (respCommand data) CMD_FIND then
    if streq (respDest data) "" then (dht, [])
    else (set_LastCatch dht (UpdateLastCatch (LastCatch dht) (respDest data)), [])
  else (dht, []).

(** ** One turn of the loop of [DHTClient.ListenDHT]

    [datagram] is the response that the tracker has encoded and sent.  The
    client reads it into a buffer of 512 bytes and decodes the buffer;
    [received] is what comes out of that: the response, or [None] when the
    read or the decoding fails, as it does for a reply that the buffer cuts
    off (the bencode library is not among the sources).  A turn that fails
    only logs. *)
Section Datagram.

Variable received : DHTResponse → option DHTResponse.

Definition ListenDHT_turn (dht : DHTClient) (datagram : DHTResponse)
  : DHTClient * list (option DHTRequest) :=
  match received datagram with
  | Some data => ListenDHT dht data
  | None => (dht, [])
  end.

End Datagram.

Definition set_FailedRouters (dht : DHTClient) (failed : list string) : DHTClient :=
  mkDHTClient (Routers dht) failed (NetworkHash dht)
              (NetworkPeers dht) (P2PPort dht) (LastCatch dht) (ID dht).

Section Initialize.

(** A connection to a router, and [ConnectAndHandshake] as the network has it
    answer: [None] when it returns an error or no connection. *)
Variable Conn : Type.
Variable ConnectAndHandshake : string → option Conn.

(** The body of [for _, router := range routers]: a failure is written to
    [FailedRouters[0]] (an index out of range is a panic), a connection is
    appended to [Connection] (and a listener is started on it). *)
Definition Initialize_step (acc : result (list string * list Conn)) (router : string)
  : result (list string * list Conn) :=
  '(failed, connection) ← acc;
  match ConnectAndHandshake router with
  | None =>
      if bool_decide (0 < length failed)%nat
      then Done (<[0%nat := router]> failed, connection)
      else Panicked
  | Some conn => Done (failed, connection ++ [conn])
  end.

(** [DHTClient.Initialize]: the client that is returned and its
    connections; [connection] are the connections that [config] brings. *)
Definition Initialize (config : DHTClient) (connection : list Conn)
  : result (DHTClient * list Conn) :=
  let routers := split_commas (Routers config) in
  let failed0 := replicate (length routers) "" in
  '(failed, connection) ← foldl Initialize_step (Done (failed0, connection)) routers;
  Done (set_FailedRouters config failed, connection).

End Initialize.

End Client.

(** * The per-peer driver ([ptp] package: [NetworkPeer]) *)
Module Peer.

(** [type PeerState int]: the states that [Run] registers a handler for, and
    any other integer. *)
Inductive PeerState :=
  | PeerStateInit
  | PeerStateRequestedIP
  | PeerStateConnecting
  | PeerStateConnectingDirectlyWait
  | PeerStateConnectingDirectly
  | PeerStateConnectingInternetWait
  | PeerStateConnectingInternet
  | PeerStateConnected
  | PeerStateHandshaking
  | PeerStateWaitingForwarder
  | PeerStateHandshakingForwarder
  | PeerStateHandshakingFailed
  | PeerStateDisconnect
  | PeerStateStop
  | PeerStateRequestingProxy
  | PeerStateWaitingForProxy
  | PeerStateWaitingToConnect
  | PeerStateRouting
  | PeerStateOther (code : Z).

Global Instance PeerState_eq_dec : EqDecision PeerState.
Proof. solve_decision. Defined.

(** Times and durations are nanoseconds, as in Go's [time] package. *)
Definition Millisecond : Z := 1000000.
Definition Second : Z := 1000 * Millisecond.

(** [type PeerEndpoint struct]; [Addr] is taken by value (the handlers below
    only read it, and only of entries that hold an address). *)
Record PeerEndpoint := mkPeerEndpoint {
  epAddr : UDPAddr;
  epLastContact : Z
}.

Global Instance PeerEndpoint_eq_dec : EqDecision PeerEndpoint.
Proof. solve_decision. Defined.

(** [type NetworkPeer struct]: the fields that the code below reads or
    writes.  [PeerLocalIP] and [PeerHW] are [None] when nil, and otherwise
    hold what [String()] renders. *)
Record NetworkPeer := mkNetworkPeer {
  ID : string;
  ProxyID : Z;
  Endpoint : option UDPAddr;
  KnownIPs : list UDPAddr;
  Proxies : list UDPAddr;
  PeerLocalIP : option string;
  PeerHW : option string;
  State : PeerState;
  RemoteState : PeerState;
  ConnectionAttempts : Z;
  Running : bool;
  Endpoints : list PeerEndpoint
}.

Definition with_State (np : NetworkPeer) (s : PeerState) : NetworkPeer :=
  mkNetworkPeer (ID np) (ProxyID np) (Endpoint np) (KnownIPs np) (Proxies np)
    (PeerLocalIP np) (PeerHW np) s (RemoteState np) (ConnectionAttempts np)
    (Running np) (Endpoints np).

Definition with_Endpoint (np : NetworkPeer) (e : option UDPAddr) : NetworkPeer :=
  mkNetworkPeer (ID np) (ProxyID np) e (KnownIPs np) (Proxies np)
    (PeerLocalIP np) (PeerHW np) (State np) (RemoteState np)
    (ConnectionAttempts np) (Running np) (Endpoints np).

Definition with_Endpoints (np : NetworkPeer) (eps : list PeerEndpoint) : NetworkPeer :=
  mkNetworkPeer (ID np) (ProxyID np) (Endpoint np) (KnownIPs np) (Proxies np)
    (PeerLocalIP np) (PeerHW np) (State np) (RemoteState np)
    (ConnectionAttempts np) (Running np) eps.

Definition with_KnownIPs (np : NetworkPeer) (ips : list UDPAddr) : NetworkPeer :=
  mkNetworkPeer (ID np) (ProxyID np) (Endpoint np) ips (Proxies np)
    (PeerLocalIP np) (PeerHW np) (State np) (RemoteState np)
    (ConnectionAttempts np) (Running np) (Endpoints np).

Definition started (np : NetworkPeer) : NetworkPeer :=
  mkNetworkPeer (ID np) (ProxyID np) (Endpoint np) (KnownIPs np) (Proxies np)
    (PeerLocalIP np) (PeerHW np) (State np) (RemoteState np) 0 true
    (Endpoints np).

Definition MsgTypeIntroReq : Z := 2.

(** What a handler does to the outside: messages to the tracker, frames on
    the UDP socket, sleeps, and the goroutine that [stateConnecting] starts. *)
Inductive effect :=
  | DhtSendState (id : string) (state : PeerState)
  | DhtSendNode (id : string)
  | UdpSend (msgType : Z) (payload : string) (to : UDPAddr)
  | Sleep (d : Z)
  | Go_intro_sender
  | Callback (state : PeerState).

Global Instance effect_eq_dec : EqDecision effect.
Proof. solve_decision. Defined.

(** [NetworkPeer.SetState] with [reportState]: [strconv.Itoa] never returns
    the empty string, so the state is always reported. *)
Definition SetState (np : NetworkPeer) (state : PeerState)
  : NetworkPeer * list effect :=
  (with_State np state, [DhtSendState (ID np) state]).

(** ** [NetworkPeer.stateRouting] *)
Section Routing.

(** [isPrivateIP] is not among the sources; it is taken as it is called: an
    IP in, a boolean or an error ([None]) out. *)
Variable isPrivateIP : string → option bool.

(** The body of [for _, ep := range np.Endpoints], on the three slices
    [locals], [internet] and [proxies]; [now] is the clock as [time.Since]
    reads it in this turn of the loop. *)
Definition routing_step (np_Proxies : list UDPAddr)
    (acc : list PeerEndpoint * list PeerEndpoint * list PeerEndpoint)
    (turn : Z * PeerEndpoint)
  : list PeerEndpoint * list PeerEndpoint * list PeerEndpoint :=
  let '(now, ep) := turn in
  let '(locals, internet, proxies) := acc in
  if bool_decide (now - epLastContact ep > 10 * Millisecond) then acc
  else
    let isProxy :=
      existsb (λ proxy, streq (UDPAddr_String proxy) (UDPAddr_String (epAddr ep)))
              np_Proxies in
    if isProxy then (locals, internet, proxies ++ [ep])
    else
      match isPrivateIP (IP (epAddr ep)) with
      | None => acc
      | Some true => (locals ++ [ep], internet, proxies)
      | Some false => (locals, internet ++ [ep], proxies)
      end.

(** [clock i] is the clock as the turn for [np.Endpoints[i]] reads it. *)
Definition stateRouting (clock : nat → Z) (np : NetworkPeer)
  : NetworkPeer * list effect :=
  let '(locals, internet, proxies) :=
    foldl (routing_step (Proxies np)) ([], [], [])
          (imap (λ i ep, (clock i, ep)) (Endpoints np)) in
  let np := with_Endpoints np (locals ++ internet ++ proxies) in
  match Endpoints np with
  | first :: _ => SetState (with_Endpoint np (Some (epAddr first))) PeerStateConnected
  | [] => SetState np PeerStateDisconnect
  end.

End Routing.

(** ** [NetworkPeer.stateRequestedIP]

    What the loop observes in one iteration: the clock read by [time.Since],
    the clock read by [time.Now()] if the request is sent again, whether
    [sendNode] succeeds, and [np.KnownIPs] as the receiving goroutine has
    left it. *)
Record tick := mkTick {
  clock_since : Z;
  clock_now : Z;
  send_ok : bool;
  known : list UDPAddr
}.

(** How a loop stands when the recorded observations end. *)
Inductive outcome :=
  | Returned (np : NetworkPeer) (effects : list effect) (err : bool)
  | StillRunning (effects : list effect).

Definition add_effects (effs : list effect) (o : outcome) : outcome :=
  match o with
  | Returned np effs' err => Returned np (effs ++ effs') err
  | StillRunning effs' => StillRunning (effs ++ effs')
  end.

Fixpoint requestedIP_loop (env : list tick) (requestSentAt attempts : Z)
    (np : NetworkPeer) : outcome :=
  match env with
  | [] => StillRunning []
  | tk :: env' =>
      let resend :=
        bool_decide (clock_since tk - requestSentAt > 1000 * Millisecond) in
      let requestSentAt := if resend then clock_now tk else requestSentAt in
      let sent := if resend then [DhtSendNode (ID np)] else [] in
      if resend && negb (send_ok tk) then
        let '(np, effs) := SetState np PeerStateDisconnect in
        Returned np (sent ++ effs) true
      else
        let attempts := if resend then attempts + 1 else attempts in
        if bool_decide (attempts > 5) then
          let '(np, effs) := SetState np PeerStateDisconnect in
          Returned np (sent ++ effs) false
        else if bool_decide (0 < length (known tk))%nat then
          let '(np, effs) := SetState (with_KnownIPs np (known tk)) PeerStateRequestingProxy in
          Returned np (sent ++ effs) false
        else
          add_effects (sent ++ [Sleep (100 * Millisecond)])
                      (requestedIP_loop env' requestSentAt attempts np)
  end.

(** [start] is the clock read by [requestSentAt := time.Now()]. *)
Definition stateRequestedIP (start : Z) (env : list tick) (np : NetworkPeer)
  : outcome :=
  requestedIP_loop env start 0 np.

(** ** [NetworkPeer.stateConnecting] *)
Section Connecting.

(** Whether [CreateMessage] and [SendMessage] fail. *)
Variable create_fails : string → bool.
Variable send_fails : UDPAddr → bool.

(** [for _, ep := range np.KnownIPs] inside one round. *)
Definition intro_round (dhtID : string) (knownIPs : list UDPAddr) : list effect :=
  flat_map (λ ep,
      let payload := dhtID +:+ UDPAddr_String ep in
      if create_fails payload then []
      else if send_fails ep then [UdpSend MsgTypeIntroReq payload ep]
      else [UdpSend MsgTypeIntroReq payload ep; Sleep (5 * Millisecond)])
    knownIPs ++ [Sleep (20 * Millisecond)].

(** The goroutine: [round := 0; for round < 10 { ... }].  No statement of the
    body assigns [round].  [turns] bounds how many turns of the loop are
    followed; [true] in the result means that the loop was left. *)
Fixpoint intro_sender (turns : nat) (round : Z) (dhtID : string)
    (knownIPs : list UDPAddr) : bool * list effect :=
  if bool_decide (round < 10) then
    match turns with
    | O => (false, [])
    | S turns' =>
        let '(finished, effs) := intro_sender turns' round dhtID knownIPs in
        (finished, intro_round dhtID knownIPs ++ effs)
    end
  else (true, []).

(** The handler starts the goroutine and moves on. *)
Definition stateConnecting (np : NetworkPeer) : NetworkPeer * list effect :=
  let '(np, effs) := SetState np PeerStateRouting in
  (np, Go_intro_sender :: effs).

End Connecting.

(** ** [NetworkPeer.Run] *)
Section Run.

(** The handlers by state; [Run] registers one for each of the named states.
    A handler is given the DHT client's id and the peer. *)
Variable handlers : PeerState → string → NetworkPeer → NetworkPeer * list effect.

Definition stateHandlers (state : PeerState)
  : option (string → NetworkPeer → NetworkPeer * list effect) :=
  match state with
  | PeerStateOther _ => None
  | _ => Some (handlers state)
  end.

(** What one turn of the loop finds.  The peer is shared with other
    goroutines, and a turn reads [np.State] twice: for the test of
    [PeerStateStop] at the top of the loop, and again for the dispatch
    [np.stateHandlers[np.State]].  [interference] is what the other
    goroutines did to the peer since the previous turn and before the first
    read, [dht_ID] is [ptpc.Dht.ID] as the turn reads it, and
    [before_dispatch] is what the other goroutines did between the first
    read and the second. *)
Record observation := mkObservation {
  dht_ID : string;
  interference : NetworkPeer → NetworkPeer;
  before_dispatch : NetworkPeer → NetworkPeer
}.

(** The loop of [Run]; the boolean tells whether the loop was left
    ([break] on [PeerStateStop]). *)
Fixpoint Run_loop (env : list observation) (np : NetworkPeer)
  : bool * NetworkPeer * list effect :=
  match env with
  | [] => (false, np, [])
  | obs :: env' =>
      let np := interference obs np in
      if bool_decide (State np = PeerStateStop) then (true, np, [])
      else if streq (dht_ID obs) "" then
        let '(stopped, np', effs) := Run_loop env' np in
        (stopped, np', Sleep (500 * Millisecond) :: effs)
      else
        let np := before_dispatch obs np in
        match stateHandlers (State np) with
        | None =>
            let '(stopped, np', effs) := Run_loop env' np in
            (stopped, np', Sleep (1 * Second) :: effs)
        | Some callback =>
            let '(np1, effs1) := callback (dht_ID obs) np in
            let '(stopped, np', effs) := Run_loop env' np1 in
            (stopped, np',
             Callback (State np) :: effs1 ++ Sleep (500 * Millisecond) :: effs)
        end
  end.

Definition Run (env : list observation) (np : NetworkPeer)
  : bool * NetworkPeer * list effect :=
  Run_loop env (started np).

End Run.

End Peer.

(** * The other state handlers of the per-peer driver *)
Module PeerStates.
Import Peer.

Definition Minute : Z := 60 * Second.

(** [MT_XPEER_PING] of [vars.go]. *)
Definition MsgTypeXpeerPing : Z := 6.

(** The fields of [NetworkPeer] that these handlers use beside those of
    [Peer.NetworkPeer]. *)
Record PeerLink := mkPeerLink {
  Forwarder : option UDPAddr;
  PeerAddr : option UDPAddr;
  LastContact : Z;
  LastError : string;
  TestPacketReceived : bool;
  IsUsingTURN : bool
}.

Definition with_RemoteState (np : NetworkPeer) (s : PeerState) : NetworkPeer :=
  mkNetworkPeer (ID np) (ProxyID np) (Endpoint np) (KnownIPs np) (Proxies np)
    (PeerLocalIP np) (PeerHW np) (State np) s (ConnectionAttempts np)
    (Running np) (Endpoints np).

Definition with_ConnectionAttempts (np : NetworkPeer) (c : Z) : NetworkPeer :=
  mkNetworkPeer (ID np) (ProxyID np) (Endpoint np) (KnownIPs np) (Proxies np)
    (PeerLocalIP np) (PeerHW np) (State np) (RemoteState np) c
    (Running np) (Endpoints np).

(** [uint8(i)] for a non-negative [int]. *)
Definition uint8 (i : Z) : Z := i `mod` 256.

(** ** [NetworkPeer.stateInit]

    The result of [sendNode] is dropped.  [ConnectionAttempts] is a [uint8]. *)
Definition stateInit (np : NetworkPeer) (lk : PeerLink)
  : NetworkPeer * PeerLink * list effect * bool :=
  let sent := [DhtSendNode (ID np)] in
  let np := mkNetworkPeer (ID np) (ProxyID np) None [] (Proxies np) None None
              (State np) (RemoteState np) (ConnectionAttempts np) (Running np)
              (Endpoints np) in
  let lk := mkPeerLink (Forwarder lk) None (LastContact lk) (LastError lk) false false in
  let '(np, effs1) := SetState np PeerStateRequestedIP in
  let np := with_ConnectionAttempts np (uint8 (ConnectionAttempts np + 1)) in
  if bool_decide (ConnectionAttempts np > 5) then
    let '(np, effs2) := SetState np PeerStateDisconnect in
    (np, lk, sent ++ effs1 ++ effs2, true)
  else (np, lk, sent ++ effs1, false).

(** ** [NetworkPeer.stateHandshakingFailed] *)
Definition stateHandshakingFailed (np : NetworkPeer) (lk : PeerLink)
  : NetworkPeer * PeerLink * list effect :=
  let '(np, lk, effs1) :=
    match Forwarder lk with
    | Some _ =>
        let lk := mkPeerLink None (PeerAddr lk) (LastContact lk)
                    "Failed to handshake with this peer over forwarder"
                    (TestPacketReceived lk) (IsUsingTURN lk) in
        let '(np, effs) := SetState np PeerStateDisconnect in
        (np, lk, effs)
    | None =>
        (np,
         mkPeerLink (Forwarder lk) (PeerAddr lk) (LastContact lk)
           "Failed to handshake with this peer"
           (TestPacketReceived lk) (IsUsingTURN lk),
         [])
    end in
  let '(np, effs2) := SetState np PeerStateWaitingForwarder in
  (np, lk, effs1 ++ effs2).

(** ** [NetworkPeer.stateDisconnect] and [NetworkPeer.stateStop] *)
Definition stateDisconnect (np : NetworkPeer) : NetworkPeer * list effect :=
  SetState np PeerStateStop.

Definition stateStop (np : NetworkPeer) : NetworkPeer * list effect := (np, []).

(** ** [NetworkPeer.stateConnected]

    [since] is the clock as [time.Since(np.LastContact)] reads it, [now] as
    [time.Now()] does after it.  The result of [SendMessage] is dropped. *)
Section Connected.

(** Whether [CreateMessage] fails on a payload. *)
Variable create_fails : string → bool.

Definition xpeer_pings (eps : list PeerEndpoint) : list effect :=
  flat_map (λ ep,
      let payload := UDPAddr_String (epAddr ep) in
      if create_fails payload then []
      else [UdpSend MsgTypeXpeerPing payload (epAddr ep)])
    eps.

Definition stateConnected (since now : Z) (np : NetworkPeer) (lk : PeerLink)
  : NetworkPeer * PeerLink * list effect :=
  if bool_decide (RemoteState np = PeerStateDisconnect) then
    let '(np, effs) := SetState np PeerStateDisconnect in (np, lk, effs)
  else if bool_decide (RemoteState np = PeerStateStop) then
    let '(np, effs) := SetState np PeerStateDisconnect in (np, lk, effs)
  else if bool_decide (RemoteState np = PeerStateInit) then
    let '(np, effs) := SetState np PeerStateInit in (np, lk, effs)
  else
    match PeerHW np, PeerLocalIP np with
    | Some _, Some _ =>
        let '(lk, pings) :=
          if bool_decide (since - LastContact lk > 3000 * Millisecond) then
            (mkPeerLink (Forwarder lk) (PeerAddr lk) now (LastError lk)
               (TestPacketReceived lk) (IsUsingTURN lk),
             xpeer_pings (Endpoints np))
          else (lk, []) in
        let '(np, effs) := SetState np PeerStateRouting in
        (np, lk, pings ++ effs)
    | _, _ =>
        let '(np, effs) := SetState np PeerStateDisconnect in (np, lk, effs)
    end.

End Connected.

(** ** The handlers that wait for the other side

    [stateConnectingDirectlyWait], [stateConnectingInternetWait] and
    [stateWaitingToConnect] are one loop with other states and another
    sleep.  What a turn of the loop finds: what the other goroutines made of
    the peer since the turn before, and the clock as [time.Since] reads it
    after the sleep. *)
Record wake := mkWake {
  meanwhile : NetworkPeer → NetworkPeer;
  clock : Z
}.

Section Waiting.

(** The state that the handler belongs to, the remote states it waits for,
    the state it moves to when it sees one of them, the state it moves to
    when it has waited for more than a minute, and its sleep. *)
Variable self : PeerState.
Variable joined : PeerState → bool.
Variable joined_state : PeerState.
Variable timeout_state : PeerState.
Variable nap : Z.

Fixpoint wait_loop (started : Z) (env : list wake) (np : NetworkPeer) : outcome :=
  match env with
  | [] => StillRunning []
  | w :: env' =>
      let np := meanwhile w np in
      if negb (bool_decide (State np = self)) then Returned np [] false
      else if joined (RemoteState np) then
        let '(np, effs) := SetState np joined_state in
        Returned np effs false
      else if bool_decide (clock w - started > 1 * Minute) then
        let '(np, effs) := SetState np timeout_state in
        Returned np (Sleep nap :: effs) true
      else add_effects [Sleep nap] (wait_loop started env' np)
  end.

End Waiting.

(** The remote states that each of the three handlers waits for. *)
Definition joined_directly (remote : PeerState) : bool :=
  bool_decide (remote = PeerStateConnectingDirectlyWait
               ∨ remote = PeerStateConnectingDirectly).

Definition joined_internet (remote : PeerState) : bool :=
  bool_decide (remote = PeerStateConnectingInternetWait
               ∨ remote = PeerStateConnectingInternet).

Definition joined_connect (remote : PeerState) : bool :=
  bool_decide (remote = PeerStateWaitingToConnect ∨ remote = PeerStateConnecting).

(** [started] is the clock read by [started := time.Now()]. *)
Definition stateConnectingDirectlyWait : Z → list wake → NetworkPeer → outcome :=
  wait_loop PeerStateConnectingDirectlyWait joined_directly
    PeerStateConnectingDirectly PeerStateConnectingDirectly (100 * Millisecond).

Definition stateConnectingInternetWait : Z → list wake → NetworkPeer → outcome :=
  wait_loop PeerStateConnectingInternetWait joined_internet
    PeerStateConnectingInternet PeerStateConnectingInternet (100 * Millisecond).

Definition stateWaitingToConnect : Z → list wake → NetworkPeer → outcome :=
  wait_loop PeerStateWaitingToConnect joined_connect
    PeerStateConnecting PeerStateDisconnect (10 * Millisecond).

(** ** [NetworkPeer.stateWaitingForProxy]

    [env] are the readings of [time.Since(started)], one for every test of
    the loop. *)
Fixpoint waitingForProxy_loop (started : Z) (env : list Z) (np : NetworkPeer) : outcome :=
  match env with
  | [] => StillRunning []
  | now :: env' =>
      if bool_decide (now - started < 4000 * Millisecond) then
        add_effects [Sleep (100 * Millisecond)] (waitingForProxy_loop started env' np)
      else
        let '(np, effs) := SetState np PeerStateConnecting in
        Returned np effs false
  end.

Definition stateWaitingForProxy (started : Z) (env : list Z) (np : NetworkPeer) : outcome :=
  waitingForProxy_loop started env np.

End PeerStates.

(** * The peer table ([ptp] package: [PeerList]) *)
Module PeerTable.
Import Peer.

(** [net.IP.String()] and [net.HardwareAddr.String()] on a nil value. *)
Definition IP_String (ip : option string) : string := default "<nil>" ip.
Definition HW_String (hw : option string) : string := default "" hw.

Definition PeersDelete : Z := 0.
Definition PeersUpdate : Z := 1.

(** [type PeerList struct].  The primary map is taken by value: an entry is
    the peer as it was when it was installed. *)
Record PeerList := mkPeerList {
  peers : gmap string NetworkPeer;
  tableIPID : gmap string string;
  tableMacID : gmap string string
}.

(** [PeerList.Init] *)
Definition Init : PeerList := mkPeerList ∅ ∅ ∅.

(** [PeerList.updateTables] *)
Definition updateTables (l : PeerList) (id ip mac : string) : PeerList :=
  let ipid := if streq ip "" then tableIPID l else <[ip := id]> (tableIPID l) in
  let macid := if streq mac "" then tableMacID l else <[mac := id]> (tableMacID l) in
  mkPeerList (peers l) ipid macid.

(** [PeerList.deleteTables] *)
Definition deleteTables (l : PeerList) (ip mac : string) : PeerList :=
  let ipid :=
    if streq ip "" then tableIPID l
    else match tableIPID l !! ip with
         | Some _ => delete ip (tableIPID l)
         | None => tableIPID l
         end in
  let macid :=
    if streq mac "" then tableMacID l
    else match tableMacID l !! mac with
         | Some _ => delete mac (tableMacID l)
         | None => tableMacID l
         end in
  mkPeerList (peers l) ipid macid.

(** [PeerList.operate]; [peer] is [None] for a nil pointer, whose fields
    cannot be read. *)
Definition operate (l : PeerList) (action : Z) (id : string)
    (peer : option NetworkPeer) : result PeerList :=
  if bool_decide (action = PeersUpdate) then
    match peer with
    | None => Panicked
    | Some peer =>
        let l := mkPeerList (<[id := peer]> (peers l)) (tableIPID l) (tableMacID l) in
        let ip := match PeerLocalIP peer with Some _ => IP_String (PeerLocalIP peer) | None => "" end in
        let mac := match PeerHW peer with Some _ => HW_String (PeerHW peer) | None => "" end in
        Done (updateTables l id ip mac)
    end
  else if bool_decide (action = PeersDelete) then
    match peers l !! id with
    | None => Done l
    | Some peer =>
        let l := deleteTables l (IP_String (PeerLocalIP peer)) (HW_String (PeerHW peer)) in
        Done (mkPeerList (delete id (peers l)) (tableIPID l) (tableMacID l))
    end
  else Done l.

Definition Delete (l : PeerList) (id : string) : result PeerList :=
  operate l PeersDelete id None.

Definition Update (l : PeerList) (id : string) (peer : NetworkPeer) : result PeerList :=
  operate l PeersUpdate id (Some peer).

(** [PeerList.Get], [GetPeer], [GetID], [Length] *)
Definition Get (l : PeerList) : gmap string NetworkPeer := peers l.
Definition GetPeer (l : PeerList) (id : string) : option NetworkPeer := peers l !! id.
Definition GetID (l : PeerList) (ip : string) : option string := tableIPID l !! ip.
Definition Length (l : PeerList) : nat := size (peers l).

(** [PeerList.GetEndpointAndProxy]: [l.peers[id]] of an id that the primary
    map does not hold is a nil pointer, and reading its field panics. *)
Definition GetEndpointAndProxy (l : PeerList) (mac : string)
  : result (option (option UDPAddr * Z)) :=
  match tableMacID l !! mac with
  | Some id =>
      match peers l !! id with
      | Some peer => Done (Some (Endpoint peer, ProxyID peer))
      | None => Panicked
      end
  | None => Done None
  end.

(** A sequence of table operations. *)
Inductive table_op :=
  | OpUpdate (id : string) (peer : NetworkPeer)
  | OpDelete (id : string).

Definition apply_op (l : PeerList) (op : table_op) : result PeerList :=
  match op with
  | OpUpdate id peer => Update l id peer
  | OpDelete id => Delete l id
  end.

Fixpoint apply_ops (l : PeerList) (ops : list table_op) : result PeerList :=
  match ops with
  | [] => Done l
  | op :: ops' => l' ← apply_op l op; apply_ops l' ops'
  end.

End PeerTable.

(** * The TUN/TAP device ([lib/tuntap_posix.go]: [Interface]) *)
Module Tun.

(** [type Packet struct], with the [Truncated] flag that [ReadPacket] sets.
    A byte is a [Z] from 0 to 255. *)
Record Packet := mkPacket {
  Protocol : Z;
  Payload : list Z;
  Truncated : bool
}.

Definition flagTruncated : Z := 1.

(** [uint16(i)] of an [int]. *)
Definition uint16 (i : Z) : Z := i `mod` 65536.

(** [binary.BigEndian.PutUint16] and [binary.BigEndian.Uint16] on two
    bytes. *)
Definition PutUint16 (v : Z) : list Z := [Z.shiftr v 8 `mod` 256; v `mod` 256].

Definition Uint16 (b0 b1 : Z) : Z := Z.lor b1 (Z.shiftl b0 8).

(** What [Write] of the file answers: the count and the error, if any. *)
Inductive write_error :=
  | WriteFailed (err : string)
  | ErrShortWrite.

(** The buffer that [WritePacket] builds: four bytes, of which the last two
    hold the protocol, and the packet behind them. *)
Definition frame (pkt : Packet) : list Z :=
  [0; 0] ++ PutUint16 (uint16 (Protocol pkt)) ++ Payload pkt.

(** ** [Interface.WritePacket]

    [meta] is the field of the interface; [Write] is [t.file.Write]: the
    bytes it is given, the count and the error it returns.  The result is
    [None] for [nil]. *)
Definition WritePacket (meta : bool) (Write : list Z → Z * option string)
    (pkt : Packet) : option write_error :=
  let buf := frame pkt in
  let '(n, err) := if meta then Write buf else Write (Payload pkt) in
  match err with
  | Some e => Some (WriteFailed e)
  | None =>
      if bool_decide (n ≠ Z.of_nat (length buf)) then Some ErrShortWrite else None
  end.

(** ** [Interface.ReadPacket]

    [read] is what [t.file.Read] returns: the bytes it has put at the start
    of the buffer (10000 bytes, zero before the read), or an error.
    [buf[4:n]] with [n < 4] is a slice out of range.  The flags are the
    first two bytes taken as a [uint16] in the byte order of the machine. *)
Definition ReadPacket (meta little_endian : bool) (read : list Z + string)
  : result (Packet + string) :=
  match read with
  | inr err => Done (inr err)
  | inl data =>
      let n := length data in
      let buf := data ++ replicate (Z.to_nat 10000 - n) 0 in
      payload ←
        (if meta then
           if bool_decide (4 ≤ n)%nat then Done (drop 4 data) else Panicked
         else Done data);
      let protocol := Uint16 (buf !!! 2%nat) (buf !!! 3%nat) in
      let flags :=
        if little_endian then Uint16 (buf !!! 1%nat) (buf !!! 0%nat)
        else Uint16 (buf !!! 0%nat) (buf !!! 1%nat) in
      Done (inl (mkPacket protocol payload
                   (bool_decide (Z.land flags flagTruncated ≠ 0))))
  end.

End Tun.

(** * Scenarios

    Concrete peers, requests and library answers on which the models are
    run. *)
Module Scenario.

(** Two peers behind one NAT address, and a third elsewhere. *)
Definition peerA : UDPAddr := mkUDPAddr "203.0.113.5" "31000".
Definition peerB : UDPAddr := mkUDPAddr "203.0.113.5" "31001".
Definition peerC : UDPAddr := mkUDPAddr "198.51.100.7" "40000".

(** The answers of [net.ResolveUDPAddr] on the texts of the scenarios. *)
Definition resolver (s : string) : option UDPAddr :=
  if streq s "203.0.113.5:31000" then Some peerA
  else if streq s "203.0.113.5:31001" then Some peerB
  else if streq s "198.51.100.7:40000" then Some peerC
  else if streq s "203.0.113.5:4000" then Some (mkUDPAddr "203.0.113.5" "4000")
  else if streq s "203.0.113.5:5000" then Some (mkUDPAddr "203.0.113.5" "5000")
  else if streq s "198.51.100.7:4000" then Some (mkUDPAddr "198.51.100.7" "4000")
  else None.

(** Every control peer answers the dial. *)
Definition dial_ok (cp : Tracker.ControlPeer) : bool := true.

Definition conn (port : string) : DHTRequest := mkRequest "0" "0" CMD_CONN port.
Definition find (hash : string) : DHTRequest := mkRequest "0" hash CMD_FIND "".
Definition ping : DHTRequest := mkRequest "0" "0" CMD_PING "".

Definition run_tracker (uuids : list (option string)) (evs : list Tracker.event)
  : result Tracker.Tracker :=
  Tracker.run resolver dial_ok (Tracker.fresh_tracker uuids) evs.

(** A peer of the overlay with an IP and a MAC. *)
Definition overlay_peer (id ip mac : string) : Peer.NetworkPeer :=
  Peer.mkNetworkPeer id 0 None [] [] (Some ip) (Some mac)
    Peer.PeerStateInit Peer.PeerStateInit 0 false [].

(** A wire on which a reply with a [dest] of at most 400 bytes arrives whole,
    and a longer one is cut off by the buffer and fails to decode. *)
Definition short_replies (resp : DHTResponse) : option DHTResponse :=
  if bool_decide (String.length (respDest resp) ≤ 400)%nat then Some resp else None.

(** A peer that has no IP and no MAC yet. *)
Definition bare_peer (id : string) : Peer.NetworkPeer :=
  Peer.mkNetworkPeer id 0 None [] [] None None
    Peer.PeerStateInit Peer.PeerStateInit 0 false [].

(** The answers of [isPrivateIP] on the addresses of the scenarios. *)
Definition private_ip (ip : string) : option bool :=
  if streq ip "" then None
  else Some (String.prefix "192.168." ip || String.prefix "10." ip).

(** A peer that heard, within the last 10 ms before [routing_clock], from a
    forwarder, from a public address and from a private address, in this
    order. *)
Definition lan_addr : UDPAddr := mkUDPAddr "192.168.1.10" "4000".
Definition wan_addr : UDPAddr := mkUDPAddr "203.0.113.9" "4000".
Definition proxy_addr : UDPAddr := mkUDPAddr "198.51.100.1" "7000".
Definition routing_clock (i : nat) : Z := 50 * Peer.Millisecond + Z.of_nat i * 1000.

Definition routed_peer : Peer.NetworkPeer :=
  Peer.mkNetworkPeer "peer-2" 0 None [lan_addr; wan_addr] [proxy_addr]
    (Some "10.10.0.3") (Some "06:00:00:00:00:02")
    Peer.PeerStateRouting Peer.PeerStateConnected 1 true
    [Peer.mkPeerEndpoint proxy_addr (46 * Peer.Millisecond);
     Peer.mkPeerEndpoint wan_addr (45 * Peer.Millisecond);
     Peer.mkPeerEndpoint lan_addr (44 * Peer.Millisecond)].

(** A peer that waits for its addresses. *)
Definition waiting_peer : Peer.NetworkPeer :=
  Peer.mkNetworkPeer "peer-3" 0 None [] [] None None
    Peer.PeerStateRequestedIP Peer.PeerStateInit 1 true [].

(** The tracker never answers [node]: the loop of [stateRequestedIP] wakes
    up every 100 ms, sends always succeed, no address arrives. *)
Definition silent_tracker (ticks : nat) : list Peer.tick :=
  (λ i : nat, Peer.mkTick (Z.of_nat i * (100 * Peer.Millisecond))
                          (Z.of_nat i * (100 * Peer.Millisecond)) true [])
  <$> seq 0 ticks.

(** A control peer announces itself. *)
Definition regcp : DHTRequest := mkRequest "0" "0" CMD_REGCP "".

(** [peerA] asks the forwarder for a tunnel to [peerC]. *)
Definition tunnel_request : UDPAddr * Forwarder.P2PMessage :=
  (peerA, Forwarder.mkP2PMessage Forwarder.MT_PROXY 0 "198.51.100.7:40000").

(** A forwarder that has answered 65535 such requests since it started. *)
Definition crowded_forwarder : Forwarder.Proxy :=
  (Forwarder.receive_all resolver (λ l, l) Forwarder.Initialize
     (replicate (Z.to_nat 65535) tunnel_request)).1.

(** A frame of another type (4: an encrypted packet) for tunnel 1. *)
Definition payload_frame : Forwarder.P2PMessage :=
  Forwarder.mkP2PMessage 4 1 "payload".

(** Nothing happens on the other side: every [nap] the loop of a waiting
    handler wakes up and finds the peer as it left it. *)
Definition idle_wakes (nap : Z) (turns : nat) : list PeerStates.wake :=
  (λ i : nat, PeerStates.mkWake (λ np, np) (Z.of_nat (S i) * nap)) <$> seq 0 turns.

(** The readings of a clock that is read every [nap], from 0 on. *)
Definition clock_readings (nap : Z) (turns : nat) : list Z :=
  (λ i : nat, Z.of_nat i * nap) <$> seq 0 turns.

(** A peer in [state] that knows one address of the other side. *)
Definition joining_peer (state : Peer.PeerState) : Peer.NetworkPeer :=
  Peer.mkNetworkPeer "peer-4" 0 None [wan_addr] [] None None
    state Peer.PeerStateInit 1 true [].

Definition no_link : PeerStates.PeerLink :=
  PeerStates.mkPeerLink None None 0 "" false false.

(** A file that takes every byte it is given. *)
Definition whole_write (b : list Z) : Z * option string := (Z.of_nat (length b), None).

(** The start of an IPv4 packet (protocol 0x0800). *)
Definition ip_packet : Tun.Packet := Tun.mkPacket 2048 [69; 0; 0; 20] false.

End Scenario.

(** * Specification vocabulary

    The notions in which the properties below are stated. *)

(** The entries of a [dest] field, each followed by its comma. *)
Definition join_commas (entries : list string) : string :=
  foldr (λ e rest, e +:+ "," +:+ rest) "" entries.

(** How often [e] stands in a list of entries. *)
Definition occurrences (e : string) (entries : list string) : nat :=
  length (filter (λ x, x = e) entries).

(** Whether a comma stands in [s]. *)
Fixpoint has_comma (s : string) : bool :=
  match s with
  | EmptyString => false
  | String a s' => bool_decide (a = ","%char) || has_comma s'
  end.

Module TrackerSpec.
Import Tracker.

(** The nodes that a [find] under [hash] from [addr] is about: the same
    fingerprint, another connection address. *)
Definition find_others (nl : list Node) (hash addr : string) : list Node :=
  filter (λ node, AssociatedHash node = hash ∧ ConnectionAddress node ≠ addr) nl.

(** A field of [Node] that the handlers of [Listen] leave alone. *)
Definition kept_field {X} (f : Node → X) : Prop :=
  (∀ n e, f (set_Endpoint n e) = f n)
  ∧ (∀ n h, f (set_AssociatedHash n h) = f n)
  ∧ (∀ n m, f (set_MissedPing n m) = f n).

(** A node that the next sweep takes to four missed pings. *)
Definition expiring (n : Node) : Prop := 3 ≤ MissedPing n.

Global Instance expiring_dec n : Decision (expiring n).
Proof. unfold expiring. apply _. Defined.

(** The node as the sweep leaves it. *)
Definition swept (n : Node) : Node :=
  let n1 := set_MissedPing n (MissedPing n + 1) in
  if bool_decide (4 ≤ MissedPing n1) then set_Disabled n1 true else n1.

(** The indices, from [i] on, of the nodes that are expiring. *)
Fixpoint expiring_indices (i : nat) (nl : list Node) : list nat :=
  match nl with
  | [] => []
  | n :: rest =>
      if decide (expiring n) then i :: expiring_indices (S i) rest
      else expiring_indices (S i) rest
  end.

(** The invariant of the tracker: one node per connection address, and an
    empty [Hashes] (no statement of the program adds to it). *)
Definition tracker_inv (t : Tracker) : Prop :=
  NoDup (ConnectionAddress <$> NodeList (router t)) ∧ Hashes (router t) = [].

(** The commands that [Listen] has a case for. *)
Definition known_commands : list string :=
  [CMD_CONN; CMD_FIND; CMD_PING; CMD_REGCP; CMD_CP; CMD_BADCP].

(** A node is registered under the text of the address it wrote from. *)
Definition addressed (n : Node) : Prop :=
  ConnectionAddress n = UDPAddr_String (Addr n).

(** Every listed node answers the probe: one [ping] datagram from each. *)
Definition answers (req : DHTRequest) (nl : list Node) : list event :=
  (λ n, Datagram (Addr n) req) <$> nl.

(** The IPs of the control peers. *)
Definition control_ips (dht : DHTRouter) : list string :=
  (λ cp, IP (cpAddr cp)) <$> ControlPeers dht.

(** The source of a node: the text it is registered under, and the address. *)
Definition source (n : Node) : string * UDPAddr := (ConnectionAddress n, Addr n).

(** What a [ping] from [addr] does to a node. *)
Definition reset_by (addr : UDPAddr) (n : Node) : Node :=
  if streq (UDPAddr_String (Addr n)) (UDPAddr_String addr)
  then set_MissedPing n 0 else n.

(** Nodes that are not about to expire, each registered under its address. *)
Definition responsive (nl : list Node) : Prop :=
  Forall (λ n, addressed n ∧ MissedPing n ≤ 2) nl.

End TrackerSpec.

Module ClientSpec.

(** What [UpdateLastCatch] does with one entry of the catch. *)
Definition catch_step (lastCatch : list string) (p : string) : list string :=
  if streq p "" then lastCatch
  else if bool_decide (p ∈ lastCatch) then lastCatch
  else lastCatch ++ [p].

End ClientSpec.

Module ForwarderSpec.
Import Forwarder.

(** Every address that a tunnel points to was allocated before [next_loc]. *)
Definition allocated (p : Proxy) (a : option AddrPtr) : Prop :=
  ∀ x, a = Some x → (loc x < next_loc p)%nat.

Definition heap_inv (p : Proxy) : Prop :=
  ∀ k t, Tunnels p !! k = Some t → allocated p (Peer1 t) ∧ allocated p (Peer2 t).

(** The ids in use are [1 .. size]. *)
Definition dense (p : Proxy) : Prop :=
  ∀ k, is_Some (Tunnels p !! k) ↔ 1 ≤ k ≤ Z.of_nat (size (Tunnels p)).

Definition reply_id (m : sent_message) : option Z :=
  match m with
  | ProxyReply i _ _ => Some i
  | Forwarded _ _ => None
  end.

(** A PROXY frame whose payload resolves. *)
Definition proxy_frame (ResolveUDPAddr : string → option UDPAddr)
    (frame : UDPAddr * P2PMessage) : Prop :=
  Type_ frame.2 = MT_PROXY ∧ is_Some (ResolveUDPAddr (Data frame.2)).

(** The PROXY frame that asks for a tunnel to [data]. *)
Definition proxy_request (data : string) : P2PMessage := mkP2PMessage MT_PROXY 0 data.

(** Every key of the table is in use. *)
Definition full (p : Proxy) : Prop :=
  ∀ k, 0 ≤ k < 65536 → is_Some (Tunnels p !! k).

End ForwarderSpec.

Module PeerTableSpec.
Import Peer PeerTable.

(** A peer whose overlay IP and MAC, when set, render as a proper address. *)
Definition wf_peer (peer : NetworkPeer) : Prop :=
  PeerLocalIP peer ≠ Some "" ∧ PeerLocalIP peer ≠ Some "<nil>"
  ∧ PeerHW peer ≠ Some "".

(** The two tables agree with the primary map: an entry of a table leads to
    a peer that has this IP or MAC, and the IP and the MAC of every peer lead
    to its id. *)
Record consistent (l : PeerList) : Prop := mkConsistent {
  ip_sound : ∀ ip id, tableIPID l !! ip = Some id →
    ∃ peer, peers l !! id = Some peer ∧ PeerLocalIP peer = Some ip;
  mac_sound : ∀ mac id, tableMacID l !! mac = Some id →
    ∃ peer, peers l !! id = Some peer ∧ PeerHW peer = Some mac;
  ip_complete : ∀ id peer ip, peers l !! id = Some peer →
    PeerLocalIP peer = Some ip → tableIPID l !! ip = Some id;
  mac_complete : ∀ id peer mac, peers l !! id = Some peer →
    PeerHW peer = Some mac → tableMacID l !! mac = Some id;
  peers_wf : ∀ id peer, peers l !! id = Some peer → wf_peer peer
}.

(** An upsert that leaves no mapping behind and takes none away: the IP and
    the MAC that the peer listed under this id has, if it has one, are those
    of the new peer, and the IP and the MAC of the new peer are mapped to no
    other id.  (A listed peer without an IP or a MAC may be given one.) *)
Definition steady_update (l : PeerList) (id : string) (peer : NetworkPeer) : Prop :=
  wf_peer peer
  ∧ (∀ old ip, peers l !! id = Some old → PeerLocalIP old = Some ip →
       PeerLocalIP peer = Some ip)
  ∧ (∀ old mac, peers l !! id = Some old → PeerHW old = Some mac →
       PeerHW peer = Some mac)
  ∧ (∀ ip id', PeerLocalIP peer = Some ip → tableIPID l !! ip = Some id' → id' = id)
  ∧ (∀ mac id', PeerHW peer = Some mac → tableMacID l !! mac = Some id' → id' = id).

Definition steady (l : PeerList) (op : table_op) : Prop :=
  match op with
  | OpUpdate id peer => steady_update l id peer
  | OpDelete _ => True
  end.

(** Operations that are steady one after the other. *)
Fixpoint steady_ops (l : PeerList) (ops : list table_op) : Prop :=
  match ops with
  | [] => True
  | op :: ops' =>
      steady l op ∧ ∀ l', apply_op l op = Done l' → steady_ops l' ops'
  end.

(** The table after [Update]. *)
Definition updated (l : PeerList) (id : string) (peer : NetworkPeer) : PeerList :=
  mkPeerList (<[id := peer]> (peers l))
    (match PeerLocalIP peer with
     | Some ip => if streq ip "" then tableIPID l else <[ip := id]> (tableIPID l)
     | None => tableIPID l
     end)
    (match PeerHW peer with
     | Some mac => if streq mac "" then tableMacID l else <[mac := id]> (tableMacID l)
     | None => tableMacID l
     end).

End PeerTableSpec.

Module PeerSpec.
Import Peer.

Section Routing.
Variable isPrivateIP : string → option bool.

(** A turn of the loop of [stateRouting]: the clock it reads and the endpoint
    it looks at. *)
Definition turns (clock : nat → Z) (np : NetworkPeer) : list (Z * PeerEndpoint) :=
  imap (λ i ep, (clock i, ep)) (Endpoints np).

(** An endpoint that was touched within the last 10 ms. *)
Definition recent (turn : Z * PeerEndpoint) : Prop :=
  turn.1 - epLastContact turn.2 ≤ 10 * Millisecond.

(** An endpoint whose address is one of the peer's proxies. *)
Definition is_proxy (np_Proxies : list UDPAddr) (ep : PeerEndpoint) : Prop :=
  UDPAddr_String (epAddr ep) ∈ UDPAddr_String <$> np_Proxies.

Definition lan (np_Proxies : list UDPAddr) (turn : Z * PeerEndpoint) : Prop :=
  recent turn ∧ ¬ is_proxy np_Proxies turn.2
  ∧ isPrivateIP (IP (epAddr turn.2)) = Some true.

Definition wan (np_Proxies : list UDPAddr) (turn : Z * PeerEndpoint) : Prop :=
  recent turn ∧ ¬ is_proxy np_Proxies turn.2
  ∧ isPrivateIP (IP (epAddr turn.2)) = Some false.

Definition forwarder (np_Proxies : list UDPAddr) (turn : Z * PeerEndpoint) : Prop :=
  recent turn ∧ is_proxy np_Proxies turn.2.

Global Instance recent_dec turn : Decision (recent turn).
Proof. unfold recent. apply _. Defined.
Global Instance is_proxy_dec ps ep : Decision (is_proxy ps ep).
Proof. unfold is_proxy. apply _. Defined.
Global Instance lan_dec ps turn : Decision (lan ps turn).
Proof. unfold lan. apply _. Defined.
Global Instance wan_dec ps turn : Decision (wan ps turn).
Proof. unfold wan. apply _. Defined.
Global Instance forwarder_dec ps turn : Decision (forwarder ps turn).
Proof. unfold forwarder. apply _. Defined.

(** The endpoints of the turns [ts] in the order in which [stateRouting]
    leaves them. *)
Definition ranked (np_Proxies : list UDPAddr) (ts : list (Z * PeerEndpoint))
  : list PeerEndpoint :=
  snd <$> (filter (lan np_Proxies) ts ++ filter (wan np_Proxies) ts
           ++ filter (forwarder np_Proxies) ts).

End Routing.

(** How many [node] requests a handler has sent. *)
Fixpoint node_requests (effs : list effect) : nat :=
  match effs with
  | [] => 0
  | DhtSendNode _ :: rest => S (node_requests rest)
  | _ :: rest => node_requests rest
  end.

(** No address arrives, and every [sendNode] succeeds. *)
Definition quiet (env : list tick) : Prop :=
  Forall (λ tk, known tk = [] ∧ send_ok tk = true) env.

(** The clock as the loop reads it: it never runs backwards, and a sleep of
    100 ms lasts at least 100 ms.  [prev] bounds the next reading from
    below. *)
Fixpoint paced (prev : Z) (env : list tick) : Prop :=
  match env with
  | [] => True
  | tk :: env' =>
      prev ≤ clock_since tk ∧ clock_since tk ≤ clock_now tk
      ∧ paced (clock_now tk + 100 * Millisecond) env'
  end.

(** What the other goroutines alone make of the peer over the first [k]
    turns of [Run], when none of these turns gets as far as the dispatch. *)
Definition interfered (env : list observation) (k : nat) (np : NetworkPeer)
  : NetworkPeer :=
  foldl (λ np obs, interference obs np) np (take k env).

End PeerSpec.

Module PeerStatesSpec.
Import Peer PeerStates.

(** The reports of states that a handler sent to the tracker. *)
Definition reports (effs : list effect) : list PeerState :=
  omap (λ e, match e with DhtSendState _ s => Some s | _ => None end) effs.

(** Calls of [stateInit] one after the other; before each call, the other
    handlers and goroutines do to the peer what [befores] says.  The result
    lists, for every call, the state it left the peer in, the states it
    reported to the tracker, and whether it returned an error. *)
Fixpoint init_calls (befores : list (NetworkPeer → NetworkPeer))
    (np : NetworkPeer) (lk : PeerLink) : list (PeerState * list PeerState * bool) :=
  match befores with
  | [] => []
  | before :: rest =>
      let '(np', lk', effs, err) := stateInit (before np) lk in
      (State np', reports effs, err) :: init_calls rest np' lk'
  end.

(** Something that leaves [ConnectionAttempts] alone (every handler but
    [stateInit] does). *)
Definition keeps_attempts (f : NetworkPeer → NetworkPeer) : Prop :=
  ∀ np, ConnectionAttempts (f np) = ConnectionAttempts np.

(** What the [k]-th call of [stateInit] since the start of [Run] ends in:
    the state, the reports and the error. *)
Definition init_result (k : nat) : PeerState * list PeerState * bool :=
  if bool_decide (Z.of_nat k `mod` 256 > 5)
  then (PeerStateDisconnect, [PeerStateRequestedIP; PeerStateDisconnect], true)
  else (PeerStateRequestedIP, [PeerStateRequestedIP], false).

Section Waiting.
Variable self : PeerState.
Variable joined : PeerState → bool.

(** The other goroutines leave the peer in the state of the handler, and the
    remote state is none that the handler waits for. *)
Fixpoint left_waiting (np : NetworkPeer) (env : list wake) : Prop :=
  match env with
  | [] => True
  | w :: env' =>
      State (meanwhile w np) = self ∧ joined (RemoteState (meanwhile w np)) = false
      ∧ left_waiting (meanwhile w np) env'
  end.

End Waiting.

(** The clock as the loop reads it: a sleep of [nap] lasts at least [nap]. *)
Fixpoint paced_by (nap prev : Z) (env : list wake) : Prop :=
  match env with
  | [] => True
  | w :: env' => prev + nap ≤ clock w ∧ paced_by nap (clock w) env'
  end.

(** The readings of the clock in [stateWaitingForProxy]: the first one right
    after the start, every other one after a sleep of [nap]. *)
Fixpoint paced_readings (nap prev : Z) (env : list Z) : Prop :=
  match env with
  | [] => True
  | now :: env' => prev ≤ now ∧ paced_readings nap (now + nap) env'
  end.

(** How a handler that has returned left the peer: in [state], with an
    error or without. *)
Definition ended_in (o : outcome) (state : PeerState) (err : bool) : Prop :=
  ∃ np effs, o = Returned np effs err ∧ State np = state.

(** The handler has not returned, and has slept [n] times. *)
Definition still_waiting (o : outcome) (n : nat) : Prop :=
  ∃ effs, o = StillRunning effs ∧ length effs = n ∧ Forall (λ e, ∃ d, e = Sleep d) effs.

(** The remote peer is in none of the states that end the connection, and
    the MAC and the IP of the peer are known. *)
Definition healthy (np : NetworkPeer) : Prop :=
  (RemoteState np ∉ [PeerStateDisconnect; PeerStateStop; PeerStateInit])
  ∧ is_Some (PeerHW np) ∧ is_Some (PeerLocalIP np).

Global Instance healthy_dec np : Decision (healthy np).
Proof. unfold healthy. apply _. Defined.

(** The last contact is more than 3 s back. *)
Definition ping_due (since : Z) (lk : PeerLink) : Prop :=
  since - LastContact lk > 3000 * Millisecond.

Global Instance ping_due_dec since lk : Decision (ping_due since lk).
Proof. unfold ping_due. apply _. Defined.

(** How many sleeps a handler took. *)
Fixpoint sleeps (effs : list effect) : nat :=
  match effs with
  | [] => 0
  | Sleep _ :: rest => S (sleeps rest)
  | _ :: rest => sleeps rest
  end.

(** No other goroutine writes Stop between the two reads of [np.State] in a
    turn of [Run]. *)
Definition no_late_stop (obs : observation) : Prop :=
  ∀ np, State np ≠ PeerStateStop → State (before_dispatch obs np) ≠ PeerStateStop.

End PeerStatesSpec.

Module TunSpec.
Import Tun.

(** Bytes. *)
Definition bytes (l : list Z) : Prop := Forall (λ b, 0 ≤ b < 256) l.

(** A [Write] as [os.File] does it: it never counts more bytes than it was
    given, and it returns an error when it counts fewer. *)
Definition file_write (Write : list Z → Z * option string) : Prop :=
  ∀ b, 0 ≤ (Write b).1 ≤ Z.of_nat (length b)
       ∧ ((Write b).2 = None → (Write b).1 = Z.of_nat (length b)).

End TunSpec.

(** * Properties *)

(** ** Strings and lists *)

Lemma streq_true a b : streq a b = true ↔ a = b.
Proof. unfold streq. apply bool_decide_eq_true. Qed.

Lemma streq_false a b : streq a b = false ↔ a ≠ b.
Proof. unfold streq. apply bool_decide_eq_false. Qed.

Lemma streq_refl a : streq a a = true.
Proof. by apply streq_true. Qed.

Lemma append_cons (a : ascii) (s t : string) :
  String a s +:+ t = String a (s +:+ t).
Proof. reflexivity. Qed.

Lemma append_nil_r (s : string) : s +:+ "" = s.
Proof. induction s as [|a s IH]; [done|]. by rewrite append_cons, IH. Qed.

Lemma append_assoc (s t u : string) : (s +:+ t) +:+ u = s +:+ (t +:+ u).
Proof. induction s as [|a s IH]; [done|]. by rewrite !append_cons, IH. Qed.

Lemma split_commas_nonempty s : Client.split_commas s ≠ [].
Proof.
  destruct s as [|a s]; [done|]. simpl.
  case_bool_decide; [done|]. by destruct (Client.split_commas s).
Qed.

Lemma split_commas_entry (e rest : string) :
  has_comma e = false →
  Client.split_commas (e +:+ "," +:+ rest) = e :: Client.split_commas rest.
Proof.
  induction e as [|a e IH]; intros Hno.
  - done.
  - rewrite append_cons. cbn [Client.split_commas].
    cbn [has_comma] in Hno. apply orb_false_iff in Hno as [Ha He].
    rewrite Ha. by rewrite IH.
Qed.

(** [strings.Split] takes a [dest] apart into its entries and the empty
    string after the last comma. *)
Lemma split_join_commas (entries : list string) :
  Forall (λ e, has_comma e = false) entries →
  Client.split_commas (join_commas entries) = entries ++ [""].
Proof.
  induction 1 as [|e entries He _ IH]; [done|].
  cbn [join_commas foldr]. rewrite split_commas_entry by done.
  fold (join_commas entries). by rewrite IH.
Qed.

Lemma occurrences_absent (e : string) (entries : list string) :
  e ∉ entries ↔ occurrences e entries = 0%nat.
Proof.
  unfold occurrences. induction entries as [|x l IH]; [by split; [|intros _ ?%elem_of_nil]|].
  rewrite filter_cons, not_elem_of_cons. destruct (decide (x = e)) as [->|Hne]; simpl.
  - split; [by intros [? _]|done].
  - rewrite <- IH. naive_solver.
Qed.

Lemma occurrences_NoDup (e : string) (entries : list string) :
  NoDup entries → e ∈ entries → occurrences e entries = 1%nat.
Proof.
  induction 1 as [|x l Hx Hl IH]; intros Hin.
  - by apply elem_of_nil in Hin.
  - unfold occurrences. rewrite filter_cons. destruct (decide (x = e)) as [->|Hne].
    + simpl. f_equal. by apply occurrences_absent.
    + apply elem_of_cons in Hin as [->|Hin]; [done|]. by apply IH.
Qed.

Lemma NoDup_fmap_eq {A B} (f : A → B) (l : list A) (x y : A) :
  NoDup (f <$> l) → x ∈ l → y ∈ l → f x = f y → x = y.
Proof.
  induction l as [|z l IH]; intros Hnd Hx Hy Hf; [by apply elem_of_nil in Hx|].
  rewrite fmap_cons in Hnd. apply NoDup_cons in Hnd as [Hz Hnd].
  apply elem_of_cons in Hx as [->|Hx]; apply elem_of_cons in Hy as [->|Hy]; auto.
  - exfalso. apply Hz. rewrite Hf. by apply list_elem_of_fmap_2.
  - exfalso. apply Hz. rewrite <- Hf. by apply list_elem_of_fmap_2.
Qed.

Lemma absent_scan {A} (f : A → string) (x : string) (l : list A) (b : bool) :
  foldl (λ u a, if streq (f a) x then false else u) b l
  = b && bool_decide (x ∉ f <$> l).
Proof.
  revert b. induction l as [|a l IH]; intros b; cbn [foldl].
  - rewrite bool_decide_eq_true_2; [by rewrite andb_true_r|]. by intros ?%elem_of_nil.
  - rewrite IH. rewrite fmap_cons. destruct (streq (f a) x) eqn:E.
    + apply streq_true in E. cbn. rewrite bool_decide_eq_false_2; [by rewrite andb_false_r|].
      intros H. apply H. rewrite E. apply list_elem_of_here.
    + apply streq_false in E. f_equal. apply bool_decide_ext.
      rewrite not_elem_of_cons. naive_solver.
Qed.

Lemma found_scan (p : string) (l : list string) (b : bool) :
  foldl (λ found catchedPeer, if streq p catchedPeer then true else found) b l
  = b || bool_decide (p ∈ l).
Proof.
  revert b. induction l as [|c l IH]; intros b; cbn [foldl].
  - rewrite bool_decide_eq_false_2; [by rewrite orb_false_r|]. by intros ?%elem_of_nil.
  - rewrite IH. destruct (streq p c) eqn:E.
    + apply streq_true in E. subst c.
      rewrite (bool_decide_eq_true_2 (p ∈ p :: l)) by apply list_elem_of_here.
      by rewrite orb_true_r.
    + apply streq_false in E. f_equal. apply bool_decide_ext. rewrite elem_of_cons. naive_solver.
Qed.

(** * The tracker *)
Module TrackerTheory.
Import Tracker TrackerSpec.

(** ** [find] *)

Lemma find_scan req addr nl dest seen :
  foldl (find_step req addr) (dest, seen) nl =
  (dest +:+ join_commas (Endpoint <$> find_others nl (reqHash req) addr),
   seen || bool_decide (Exists (λ node, AssociatedHash node = reqHash req
                                        ∧ ConnectionAddress node = addr) nl)).
Proof.
  revert dest seen. induction nl as [|node nl IH]; intros dest seen.
  - cbn. by rewrite append_nil_r, orb_false_r.
  - cbn [foldl]. unfold find_others. rewrite filter_cons. unfold find_step at 2.
    destruct (streq (AssociatedHash node) (reqHash req)) eqn:Hh.
    + apply streq_true in Hh.
      destruct (streq (ConnectionAddress node) addr) eqn:Ha.
      * apply streq_true in Ha. rewrite IH. rewrite decide_False by naive_solver.
        f_equal. rewrite (bool_decide_eq_true_2 (Exists _ (node :: nl))).
        { by rewrite orb_true_r. }
        by left.
      * apply streq_false in Ha. rewrite IH. rewrite decide_True by done.
        cbn [fmap list_fmap join_commas foldr]. rewrite !append_assoc. f_equal.
        f_equal. apply bool_decide_ext. rewrite Exists_cons. naive_solver.
    + apply streq_false in Hh. rewrite IH. rewrite decide_False by naive_solver.
      f_equal. f_equal. apply bool_decide_ext. rewrite Exists_cons. naive_solver.
Qed.

(** The [dest] of a [find] response, for any node list and any request. *)
Lemma ResponseFind_dest nl req addr :
  respDest (ResponseFind nl req addr).2 =
  join_commas (Endpoint <$> find_others nl (reqHash req) addr).
Proof.
  unfold ResponseFind. rewrite find_scan. by cbn.
Qed.

Lemma ResponseFind_command nl req addr :
  respCommand (ResponseFind nl req addr).2 = reqCommand req.
Proof. unfold ResponseFind. by destruct (foldl _ _ _). Qed.

(** C1, as the code has it: the [dest] of a [find] response lists, in the order
    of registration and each followed by a comma, the endpoint of every
    registered node that has the requested fingerprint and another connection
    address than the requester: one entry per such node (and these are the
    entries that [strings.Split] finds in [dest], no endpoint holding a
    comma).  When the connection addresses are pairwise distinct, and the
    endpoints of the requester and of the nodes under the fingerprint are
    pairwise distinct, every other node's endpoint is listed exactly once
    and the requester's own endpoint is not listed, whether the requester
    is filed under the fingerprint already or not. *)
Theorem find_dest_lists_the_others (nl : list Node) (req : DHTRequest)
    (addr : string) :
  let entries := Endpoint <$> find_others nl (reqHash req) addr in
  respDest (ResponseFind nl req addr).2 = join_commas entries
  ∧ (Forall (λ n, has_comma (Endpoint n) = false) nl →
     Client.split_commas (respDest (ResponseFind nl req addr).2) = entries ++ [""])
  ∧ (NoDup (ConnectionAddress <$> nl) →
     NoDup (Endpoint <$> filter (λ n, AssociatedHash n = reqHash req
                                      ∨ ConnectionAddress n = addr) nl) →
     (∀ requester, requester ∈ nl → ConnectionAddress requester = addr →
        occurrences (Endpoint requester) entries = 0%nat)
     ∧ (∀ other, other ∈ nl → ConnectionAddress other ≠ addr →
          AssociatedHash other = reqHash req →
          occurrences (Endpoint other) entries = 1%nat)).
Proof.
  intros entries.
  split; [apply ResponseFind_dest|]. split.
  { intros Hcommas. rewrite ResponseFind_dest. apply split_join_commas.
    apply Forall_fmap, Forall_forall. intros n [_ Hn]%list_elem_of_filter.
    by apply (proj1 (Forall_forall _ _) Hcommas). }
  intros Haddrs Hends.
  assert (Hsub : find_others nl (reqHash req) addr
                 `sublist_of` filter (λ n, AssociatedHash n = reqHash req
                                           ∨ ConnectionAddress n = addr) nl).
  { unfold find_others. clear. induction nl as [|n nl IH]; [done|].
    rewrite !filter_cons.
    destruct (decide (AssociatedHash n = reqHash req ∧ ConnectionAddress n ≠ addr))
      as [[Hh Ha]|Hno].
    - rewrite decide_True by by left. by constructor.
    - destruct (decide (_ ∨ _)); [by constructor|done]. }
  split.
  - intros requester Hreq Hra. apply occurrences_absent. intros Hin.
    apply list_elem_of_fmap in Hin as (n & Hn & Hin).
    apply list_elem_of_filter in Hin as [[Hnh Hna] Hnin].
    apply Hna. rewrite <- Hra. f_equal. symmetry.
    eapply (NoDup_fmap_eq Endpoint); [exact Hends|..|done].
    + apply list_elem_of_filter. split; [by right|done].
    + apply list_elem_of_filter. split; [by left|done].
  - intros other Hin Hne Hoh. apply occurrences_NoDup.
    + eapply sublist_NoDup; [exact Hends|]. by apply fmap_sublist.
    + apply list_elem_of_fmap_2, list_elem_of_filter. by split.
Qed.

(** ** Connection addresses identify the registered nodes *)

Lemma IsNewPeer_spec (nl : list Node) addr :
  IsNewPeer nl addr = true ↔ addr ∉ ConnectionAddress <$> nl.
Proof.
  induction nl as [|n nl IH]; simpl.
  - split; [intros _ ?%elem_of_nil|]; done.
  - rewrite not_elem_of_cons. destruct (streq _ _) eqn:E.
    + apply streq_true in E. naive_solver.
    + apply streq_false in E. rewrite IH. naive_solver.
Qed.

Lemma kept_ConnectionAddress : kept_field ConnectionAddress.
Proof. by repeat split. Qed.

Lemma kept_ID : kept_field ID.
Proof. by repeat split. Qed.

Section Reach.
Context {X : Type} (f : Node → X) (Hf : kept_field f).
Variable ResolveUDPAddr : string → option UDPAddr.
Variable ValidateConnection : ControlPeer → bool.

Lemma fmap_keeps_field (g : Node → Node) (nl : list Node) :
  (∀ n, f (g n) = f n) → f <$> (g <$> nl) = f <$> nl.
Proof.
  intros Hg. rewrite <- list_fmap_compose. apply list_fmap_ext. intros _ n _. apply Hg.
Qed.

Lemma RegisterHash_field (nl : list Node) addr hash :
  f <$> RegisterHash nl addr hash = f <$> nl.
Proof. apply fmap_keeps_field. intros n. destruct (streq _ _); [apply Hf|done]. Qed.

Lemma ResponseFind_field (nl : list Node) req addr :
  f <$> (ResponseFind nl req addr).1 = f <$> nl.
Proof.
  unfold ResponseFind. destruct (foldl _ _ _) as [d [|]]; simpl; [done|].
  apply RegisterHash_field.
Qed.

Lemma ResponseConn_field (nl : list Node) req addr n nl' resp :
  ResponseConn ResolveUDPAddr nl req addr n = Done (nl', resp) →
  f <$> nl' = f <$> nl.
Proof.
  unfold ResponseConn. destruct (ResolveUDPAddr addr); [|done].
  intros [= <- _]. apply fmap_keeps_field. intros m. destruct (streq _ _); [apply Hf|done].
Qed.

(** What [Listen] does to a kept field of the nodes and to [Hashes]: a new
    source is appended under the generated id, nothing else changes. *)
Lemma Listen_field dht uuids addr req dht' uuids' resp :
  Listen ResolveUDPAddr ValidateConnection dht uuids addr req
    = Done (dht', uuids', resp) →
  Hashes dht' = Hashes dht ∧
  if IsNewPeer (NodeList dht) (UDPAddr_String addr) then
    ∃ id, GenerateID uuids (Hashes dht) = Done (id, uuids')
          ∧ f <$> NodeList dht' =
            (f <$> NodeList dht) ++ [f (mkNode id "" (UDPAddr_String addr) "" addr 0 false)]
  else uuids' = uuids ∧ f <$> NodeList dht' = f <$> NodeList dht.
Proof.
  unfold Listen.
  set (reg := if IsNewPeer (NodeList dht) (UDPAddr_String addr) then _ else _).
  assert (Hreg : ∀ n nl us, reg = Done (n, nl, us) →
    if IsNewPeer (NodeList dht) (UDPAddr_String addr) then
      ∃ id, GenerateID uuids (Hashes dht) = Done (id, us)
            ∧ f <$> nl =
              (f <$> NodeList dht) ++ [f (mkNode id "" (UDPAddr_String addr) "" addr 0 false)]
    else us = uuids ∧ f <$> nl = f <$> NodeList dht).
  { subst reg. intros n nl us. destruct (IsNewPeer _ _).
    - destruct (GenerateID uuids (Hashes dht)) as [[id rest]| |]; [|done..].
      cbn. intros [= <- <- <-]. exists id. by rewrite fmap_app.
    - by intros [= <- <- <-]. }
  destruct reg as [[[n nl] us]| |]; [|done..].
  specialize (Hreg n nl us eq_refl). cbn.
  assert (Hgoal : ∀ nl', f <$> nl' = f <$> nl → 
    if IsNewPeer (NodeList dht) (UDPAddr_String addr) then
      ∃ id, GenerateID uuids (Hashes dht) = Done (id, us)
            ∧ f <$> nl' =
              (f <$> NodeList dht) ++ [f (mkNode id "" (UDPAddr_String addr) "" addr 0 false)]
    else us = uuids ∧ f <$> nl' = f <$> NodeList dht).
  { intros nl' ->. exact Hreg. }
  repeat (destruct (streq (reqCommand req) _)); cbn.
  - destruct (ResponseConn _ _ _ _ _) as [[nl' r]| |] eqn:E; [|done..].
    cbn. intros [= <- <- _]. apply ResponseConn_field in E. cbn. split; [done|]. by apply Hgoal.
  - destruct (ResponseFind _ _ _) as [nl' r] eqn:E. cbn. intros [= <- <- _]. cbn.
    pose proof (ResponseFind_field nl req (UDPAddr_String addr)) as H.
    rewrite E in H. cbn in H. split; [done|]. by apply Hgoal.
  - intros [= <- <- _]. cbn. split; [done|]. apply Hgoal.
    apply fmap_keeps_field. intros m. destruct (streq _ _); [apply Hf|done].
  - unfold ResponseRegCP. cbn.
    destruct (ResolveUDPAddr _); [|intros [= <- <- _]; split; [done|by apply Hgoal]].
    destruct (negb _); [intros [= <- <- _]; split; [done|by apply Hgoal]|].
    destruct (negb _); intros [= <- <- _]; split; [done|by apply Hgoal|done|by apply Hgoal].
  - intros [= <- <- _]; split; [done|by apply Hgoal].
  - intros [= <- <- _]; split; [done|by apply Hgoal].
  - intros [= <- <- _]; split; [done|by apply Hgoal].
Qed.

End Reach.

(** ** The ping loop *)

Lemma Ping_sweep_spec i nl :
  Ping_sweep i nl =
  (swept <$> nl, expiring_indices i nl, (λ n, (Addr n, PING_PROBE)) <$> nl).
Proof.
  revert i. induction nl as [|n nl IH]; intros i; [done|].
  cbn [Ping_sweep]. rewrite IH. rewrite !fmap_cons.
  cbn [expiring_indices MissedPing set_MissedPing]. unfold expiring.
  assert (Hn : swept n = if bool_decide (4 ≤ MissedPing n + 1)
                         then set_Disabled (set_MissedPing n (MissedPing n + 1)) true
                         else set_MissedPing n (MissedPing n + 1)) by done.
  rewrite Hn.
  case_bool_decide; [rewrite decide_True by lia|rewrite decide_False by lia]; done.
Qed.

Lemma expiring_indices_app i nl1 nl2 :
  expiring_indices i (nl1 ++ nl2) =
  expiring_indices i nl1 ++ expiring_indices (i + length nl1) nl2.
Proof.
  revert i. induction nl1 as [|n nl1 IH]; intros i; cbn [expiring_indices app length].
  - by rewrite Nat.add_0_r.
  - rewrite IH. replace (S i + length nl1)%nat with (i + S (length nl1))%nat by lia.
    by destruct (decide _).
Qed.

Lemma expiring_indices_bounds i nl k :
  k ∈ expiring_indices i nl → (i ≤ k < i + length nl)%nat.
Proof.
  revert i. induction nl as [|n nl IH]; intros i; cbn [expiring_indices length].
  - by intros ?%elem_of_nil.
  - destruct (decide _).
    + intros [->|Hk%IH]%elem_of_cons; lia.
    + intros Hk%IH. lia.
Qed.

Lemma expiring_indices_sorted i nl :
  Sorted (flip le) (reverse (expiring_indices i nl)).
Proof.
  apply StronglySorted_Sorted.
  revert i. induction nl as [|n nl IH]; intros i; cbn [expiring_indices].
  - constructor.
  - destruct (decide _); [|apply IH].
    rewrite reverse_cons. apply StronglySorted_app_2; [|apply IH|repeat constructor].
    intros k j Hk Hj. apply elem_of_reverse, expiring_indices_bounds in Hk.
    apply list_elem_of_singleton in Hj as ->. unfold flip. lia.
Qed.

Global Instance flip_le_total : Total (flip le).
Proof. intros x y. unfold flip. lia. Qed.

Global Instance flip_le_trans : Transitive (flip le).
Proof. intros x y z. unfold flip. lia. Qed.

Global Instance flip_le_antisymm : AntiSymm (=) (flip le).
Proof. intros x y. unfold flip. lia. Qed.

(** The indices come out of the sweep in ascending order, so sorting them in
    descending order reverses them. *)
Lemma sort_descending_indices i nl :
  sort_descending (expiring_indices i nl) = reverse (expiring_indices i nl).
Proof.
  unfold sort_descending. apply (Sorted_unique (flip le)).
  - apply Sorted_merge_sort, _.
  - apply expiring_indices_sorted.
  - rewrite merge_sort_Permutation. by rewrite reverse_Permutation.
Qed.

(** The removal pass panics when it starts with the index of the last node:
    after the cut that index is out of range for the log line. *)
Lemma Ping_remove_last_panics (nl : list Node) n keys :
  Ping_remove (length nl :: keys) (nl ++ [n]) = Panicked.
Proof.
  cbn [Ping_remove]. rewrite bool_decide_eq_true_2 by (rewrite length_app; simpl; lia).
  rewrite take_app_length.
  rewrite drop_app_ge by lia.
  replace (length nl + 1 - length nl)%nat with 1%nat by lia. cbn [drop].
  rewrite app_nil_r. by rewrite lookup_ge_None_2.
Qed.

(** If the last registered node is about to expire, the cycle ends in a
    panic. *)
Lemma Ping_cycle_panics_on_last (nl : list Node) n :
  expiring n → Ping_cycle (nl ++ [n]) = Panicked.
Proof.
  intros Hn. unfold Ping_cycle. rewrite Ping_sweep_spec.
  rewrite sort_descending_indices, expiring_indices_app.
  cbn [expiring_indices]. rewrite decide_True by done.
  rewrite reverse_app. cbn [reverse]. rewrite reverse_singleton. cbn [app].
  rewrite !fmap_app. cbn [fmap list_fmap].
  replace (0 + length nl)%nat with (length (swept <$> nl)) by (by rewrite length_fmap).
  by rewrite Ping_remove_last_panics.
Qed.

(** Otherwise the expiring nodes, and only they, leave the list. *)
Lemma Ping_remove_expiring (pre rest : list Node) :
  rest ≠ [] →
  ∃ logged,
    Ping_remove (reverse (expiring_indices 0 pre)) ((swept <$> pre) ++ rest)
    = Done ((swept <$> filter (λ n, ¬ expiring n) pre) ++ rest, logged).
Proof.
  revert rest. induction pre as [|x pre IH] using rev_ind; intros rest Hrest.
  - by exists [].
  - rewrite expiring_indices_app, filter_app, !fmap_app. cbn [expiring_indices].
    rewrite filter_cons, filter_nil. cbn [fmap list_fmap].
    destruct (decide (expiring x)) as [Hx|Hx].
    + rewrite decide_False by naive_solver.
      rewrite reverse_app, reverse_singleton. cbn [app Ping_remove].
      rewrite app_nil_r. rewrite <- app_assoc. cbn [app].
      replace (0 + length pre)%nat with (length (swept <$> pre)) by (by rewrite length_fmap).
      rewrite bool_decide_eq_true_2 by (rewrite length_app; simpl; lia).
      rewrite take_app_length.
      rewrite drop_app_ge by lia.
      replace (length (swept <$> pre) + 1 - length (swept <$> pre))%nat with 1%nat by lia.
      cbn [drop]. rewrite drop_0.
      destruct rest as [|r rest]; [done|].
      rewrite lookup_app_r by lia. rewrite Nat.sub_diag. cbn [lookup list_lookup].
      destruct (IH (r :: rest)) as [logged ->]; [done|]. cbn. eauto.
    + rewrite decide_True by done. rewrite app_nil_r.
      rewrite <- !app_assoc. cbn [app]. by apply IH.
Qed.

Lemma Ping_cycle_keeps_the_rest (nl : list Node) n :
  ¬ expiring n →
  Ping_cycle (nl ++ [n]) =
  Done (swept <$> filter (λ n, ¬ expiring n) (nl ++ [n]),
        (λ n, (Addr n, PING_PROBE)) <$> (nl ++ [n])).
Proof.
  intros Hn. unfold Ping_cycle. rewrite Ping_sweep_spec.
  rewrite sort_descending_indices, expiring_indices_app.
  cbn [expiring_indices]. rewrite decide_False by done. rewrite app_nil_r.
  rewrite (fmap_app swept). cbn [fmap list_fmap].
  destruct (Ping_remove_expiring nl [swept n]) as [logged ->]; [done|].
  cbn. do 2 f_equal. rewrite filter_app, filter_cons, filter_nil.
  rewrite decide_True by done. by rewrite fmap_app.
Qed.

Lemma Ping_cycle_nil : Ping_cycle [] = Done ([], []).
Proof. reflexivity. Qed.

Lemma Ping_cycle_addresses (nl nl' : list Node) probes :
  Ping_cycle nl = Done (nl', probes) →
  (ConnectionAddress <$> nl') `sublist_of` (ConnectionAddress <$> nl).
Proof.
  destruct nl as [|n nl _] using rev_ind.
  - rewrite Ping_cycle_nil. by intros [= <- <-].
  - destruct (decide (expiring n)) as [Hn|Hn].
    + by rewrite Ping_cycle_panics_on_last.
    + rewrite Ping_cycle_keeps_the_rest by done. intros [= <- _].
      rewrite (fmap_keeps_field ConnectionAddress).
      * apply fmap_sublist, sublist_filter.
      * intros m. unfold swept. by case_bool_decide.
Qed.

Section Reachable.
Variable ResolveUDPAddr : string → option UDPAddr.
Variable ValidateConnection : ControlPeer → bool.

Local Abbreviation step := (step ResolveUDPAddr ValidateConnection).
Local Abbreviation run := (run ResolveUDPAddr ValidateConnection).

Lemma step_inv t ev t' : tracker_inv t → step t ev = Done t' → tracker_inv t'.
Proof.
  intros [Hnd Hh]. destruct ev as [addr req|]; cbn [Tracker.step].
  - destruct (Listen _ _ _ _ _ _) as [[[dht us] resp]| |] eqn:E; [|done..].
    cbn. intros [= <-]. unfold tracker_inv. cbn.
    apply (Listen_field ConnectionAddress kept_ConnectionAddress) in E as [E2 E1].
    split; [|congruence].
    destruct (IsNewPeer _ _) eqn:Hnew; [|destruct E1 as [_ ->]; done].
    destruct E1 as (id & _ & ->). cbn.
    apply IsNewPeer_spec in Hnew. apply NoDup_app. split; [done|]. split.
    + intros x Hx ->%list_elem_of_singleton. done.
    + apply NoDup_singleton.
  - destruct (Ping_cycle _) as [[nl probes]| |] eqn:E; [|done..].
    cbn. intros [= <-]. unfold tracker_inv. cbn. split; [|done].
    eapply sublist_NoDup; [exact Hnd|]. by eapply Ping_cycle_addresses.
Qed.

Lemma run_inv evs t t' : tracker_inv t → run t evs = Done t' → tracker_inv t'.
Proof.
  revert t. induction evs as [|ev evs IH]; intros t Hinv; cbn [Tracker.run].
  - by intros [= <-].
  - destruct (step t ev) as [t1| |] eqn:E; [|done..]. cbn.
    apply IH. by eapply step_inv.
Qed.

Lemma fresh_tracker_inv uuids : tracker_inv (fresh_tracker uuids).
Proof. split; [constructor|done]. Qed.

(** ** Registration and [conn] *)

(** With an empty [Hashes], [GenerateID] takes the first answer of the
    generator, whatever it is. *)
Lemma GenerateID_first_answer id rest :
  GenerateID (Some id :: rest) [] = Done (id, rest).
Proof. reflexivity. Qed.

(** The first datagram of a source, a [conn]: the node is registered under the
    generated id with the endpoint [source-ip:port], and the reply carries
    that id. *)
Lemma Listen_first_conn dht id rest addr req a1 :
  IsNewPeer (NodeList dht) (UDPAddr_String addr) = true →
  Hashes dht = [] →
  reqCommand req = CMD_CONN →
  ResolveUDPAddr (UDPAddr_String addr) = Some a1 →
  Listen ResolveUDPAddr ValidateConnection dht (Some id :: rest) addr req =
  Done (set_NodeList dht
          (NodeList dht ++
           [mkNode id (ptr_String (ResolveUDPAddr (IP a1 +:+ ":" +:+ reqPort req)))
                   (UDPAddr_String addr) "" addr 0 false]),
        rest, Some (mkResponse CMD_CONN id "0")).
Proof.
  intros Hnew Hh Hc Ha.
  assert (Hmap : (λ node, if streq (ConnectionAddress node) (UDPAddr_String addr)
                   then set_Endpoint node
                          (ptr_String (ResolveUDPAddr (IP a1 +:+ ":" +:+ reqPort req)))
                   else node) <$> NodeList dht = NodeList dht).
  { apply IsNewPeer_spec in Hnew.
    rewrite <- (list_fmap_id (NodeList dht)) at 2. apply list_fmap_ext.
    intros i n Hn. destruct (streq _ _) eqn:E; [|done].
    apply streq_true in E. exfalso. apply Hnew. rewrite <- E.
    apply list_elem_of_fmap_2. by eapply list_elem_of_lookup_2. }
  unfold Listen, ResponseConn. rewrite Hnew, Hh, Hc. cbn. rewrite Ha. cbn.
  rewrite fmap_app. cbn [fmap list_fmap ConnectionAddress]. rewrite (streq_refl (UDPAddr_String addr)), Hmap.
  reflexivity.
Qed.

(** A [conn] from a source that is registered already: the reply is built
    from the zero [Node], and carries the empty id. *)
Lemma Listen_conn_again dht uuids addr req a1 :
  IsNewPeer (NodeList dht) (UDPAddr_String addr) = false →
  reqCommand req = CMD_CONN →
  ResolveUDPAddr (UDPAddr_String addr) = Some a1 →
  ∃ dht',
    Listen ResolveUDPAddr ValidateConnection dht uuids addr req =
    Done (dht', uuids, Some (mkResponse CMD_CONN "" "0")).
Proof.
  intros Hnew Hc Ha. unfold Listen, ResponseConn. rewrite Hnew, Hc. cbn.
  rewrite Ha. cbn. eexists. reflexivity.
Qed.

(** The id of a new node is the first answer of the generator: the nodes
    that are listed play no part in it. *)
Lemma registration_takes_first_answer t id rest addr req t' :
  tracker_inv t →
  IsNewPeer (NodeList (router t)) (UDPAddr_String addr) = true →
  uuid_source t = Some id :: rest →
  step t (Datagram addr req) = Done t' →
  ID <$> NodeList (router t') = (ID <$> NodeList (router t)) ++ [id].
Proof.
  intros [_ Hh] Hnew Hsrc. cbn [Tracker.step].
  destruct (Listen _ _ _ _ _ _) as [[[dht us] resp]| |] eqn:E; [|done..].
  cbn. intros [= <-]. cbn.
  apply (Listen_field ID kept_ID) in E as [_ E]. rewrite Hnew, Hsrc, Hh in E.
  destruct E as (id' & [= <- _] & ->). done.
Qed.

End Reachable.

(** ** The scenarios of the tracker *)
Import Scenario.

(** C1, as the claim states it, fails: two peers behind one NAT address that
    declare the same port have the same endpoint, and a [find] from one of
    them is answered with that endpoint, which is also its own. *)
Lemma find_returns_own_endpoint :
  let evs := [Datagram peerA (conn "4000"); Datagram peerB (conn "4000");
              Datagram peerA (find "net-X"); Datagram peerB (find "net-X");
              Datagram peerA (find "net-X")] in
  (λ t, (λ n, (ConnectionAddress n, AssociatedHash n, Endpoint n))
          <$> NodeList (router t))
    <$> run_tracker [Some "uuid-1"; Some "uuid-2"] evs
  = Done [("203.0.113.5:31000", "net-X", "203.0.113.5:4000");
          ("203.0.113.5:31001", "net-X", "203.0.113.5:4000")]
  ∧ (last ∘ sent) <$> run_tracker [Some "uuid-1"; Some "uuid-2"] evs
    = Done (Some (peerA, mkResponse "find" "0" "203.0.113.5:4000,"))
  ∧ occurrences "203.0.113.5:4000" (Client.split_commas "203.0.113.5:4000,") = 1%nat.
Proof. by vm_compute. Qed.

(** The first [find] of a peer: [peerB] has registered with a port of its
    own and is not filed under [net-X] yet; [peerA] is. *)
Lemma find_dest_lists_the_others_witness :
  let a := mkNode "uuid-1" "203.0.113.5:4000" "203.0.113.5:31000" "net-X" peerA 0 false in
  let b := mkNode "uuid-2" "203.0.113.5:5000" "203.0.113.5:31001" "" peerB 0 false in
  let c := mkNode "uuid-3" "198.51.100.7:4000" "198.51.100.7:40000" "net-Y" peerC 0 false in
  respDest (ResponseFind [a; b; c] (find "net-X") "203.0.113.5:31001").2
    = "203.0.113.5:4000,"
  ∧ occurrences "203.0.113.5:5000" ["203.0.113.5:4000"] = 0%nat
  ∧ occurrences "203.0.113.5:4000" ["203.0.113.5:4000"] = 1%nat.
Proof.
  intros a b c.
  destruct (find_dest_lists_the_others [a; b; c] (find "net-X") "203.0.113.5:31001")
    as (H1 & _ & H2).
  destruct H2 as (H2 & H3).
  - by apply (bool_decide_unpack _).
  - by apply (bool_decide_unpack _).
  - split; [exact H1|]. split.
    + apply (H2 b); [by apply (bool_decide_unpack _)|reflexivity].
    + apply (H3 a); [by apply (bool_decide_unpack _)|discriminate|reflexivity].
Defined.

(** C3: a node that answers no ping.  After three cycles it has three missed
    pings and is still listed; the fourth cycle cuts it out of the list and
    then reads [NodeList[0]] of the empty list: the tracker panics. *)
Theorem fourth_missed_ping_panics :
  let three := [Datagram peerA (conn "4000"); PingTimeout; PingTimeout; PingTimeout] in
  (NodeList ∘ router) <$> run_tracker [Some "uuid-1"] three
  = Done [mkNode "uuid-1" "203.0.113.5:4000" "203.0.113.5:31000" "" peerA 3 false]
  ∧ run_tracker [Some "uuid-1"] (three ++ [PingTimeout]) = Panicked.
Proof. by vm_compute. Qed.

(** C5: a second [conn] from a registered source is answered with the empty
    id, and the client takes that for its own. *)
Theorem second_conn_reply_has_empty_id :
  sent <$> run_tracker [Some "uuid-1"]
             [Datagram peerA (conn "4000"); Datagram peerA (conn "4000")]
  = Done [(peerA, mkResponse "conn" "uuid-1" "0");
          (peerA, mkResponse "conn" "" "0")]
  ∧ ∀ dht, Client.ID (Client.ListenDHT dht (mkResponse "conn" "" "0")).1 = "".
Proof. split; [by vm_compute|done]. Qed.

(** C9: the generator repeats an id; the new node is registered under the id
    of a node that is in the list. *)
Theorem generated_id_repeats_listed_id :
  (λ t, ID <$> NodeList (router t))
    <$> run_tracker [Some "uuid-1"; Some "uuid-1"]
          [Datagram peerA (conn "4000"); Datagram peerB (conn "5000")]
  = Done ["uuid-1"; "uuid-1"].
Proof. by vm_compute. Qed.

(** A [ping] from a registered source sets its missed pings to zero, and is
    not answered. *)
Lemma Listen_ping_resets ResolveUDPAddr ValidateConnection dht uuids addr req :
  IsNewPeer (NodeList dht) (UDPAddr_String addr) = false →
  reqCommand req = CMD_PING →
  Listen ResolveUDPAddr ValidateConnection dht uuids addr req =
  Done (set_NodeList dht
          ((λ node, if streq (UDPAddr_String (Addr node)) (UDPAddr_String addr)
                    then set_MissedPing node 0 else node) <$> NodeList dht),
        uuids, None).
Proof. intros Hnew Hc. unfold Listen. rewrite Hnew, Hc. reflexivity. Qed.

(** Every node of the list gets one more missed ping and one probe in a
    sweep. *)
Lemma Ping_sweep_counts i (nl : list Node) :
  MissedPing <$> (Ping_sweep i nl).1.1 = (λ n, MissedPing n + 1) <$> nl
  ∧ (Ping_sweep i nl).2 = (λ n, (Addr n, PING_PROBE)) <$> nl.
Proof.
  rewrite Ping_sweep_spec. cbn. split; [|done].
  rewrite <- list_fmap_compose. apply list_fmap_ext. intros _ n _. cbn.
  unfold swept. by case_bool_decide.
Qed.

(** ** More of the tracker: ids *)

Lemma GenerateID_cons_listed u rest hashes :
  u ∈ Hash <$> hashes →
  GenerateID (Some u :: rest) hashes = GenerateID rest hashes.
Proof.
  intros Hu. cbn [GenerateID]. rewrite (absent_scan Hash). cbn.
  by rewrite bool_decide_eq_false_2 by naive_solver.
Qed.

Lemma GenerateID_cons_fresh id rest hashes :
  id ∉ Hash <$> hashes →
  GenerateID (Some id :: rest) hashes = Done (id, rest).
Proof.
  intros Hu. cbn [GenerateID]. rewrite (absent_scan Hash). cbn.
  by rewrite bool_decide_eq_true_2 by done.
Qed.

(** X1: [GenerateID] goes through the answers of the generator until one is
    the [Hash] of no entry of [hashes], and returns that one; an error of the
    generator on the way is a panic.  Whatever it returns is the [Hash] of no
    entry of [hashes]. *)
Theorem GenerateID_skips_listed_hashes (skipped : list string) (id : string)
    (rest : list (option string)) (hashes : list Infohash) :
  Forall (λ u, u ∈ Hash <$> hashes) skipped →
  id ∉ Hash <$> hashes →
  GenerateID ((Some <$> skipped) ++ Some id :: rest) hashes = Done (id, rest)
  ∧ GenerateID ((Some <$> skipped) ++ None :: rest) hashes = Panicked
  ∧ ∀ uuids id' rest',
      GenerateID uuids hashes = Done (id', rest') → id' ∉ Hash <$> hashes.
Proof.
  intros Hsk Hid. split; [|split].
  - induction Hsk as [|u skipped Hu _ IH]; cbn [fmap list_fmap app].
    + by apply GenerateID_cons_fresh.
    + by rewrite GenerateID_cons_listed.
  - induction Hsk as [|u skipped Hu _ IH]; cbn [fmap list_fmap app].
    + done.
    + by rewrite GenerateID_cons_listed.
  - intros uuids. induction uuids as [|[u|] uuids IH]; intros id' rest'; [done| |done].
    destruct (decide (u ∈ Hash <$> hashes)) as [Hu|Hu].
    + rewrite GenerateID_cons_listed by done. apply IH.
    + rewrite GenerateID_cons_fresh by done. by intros [= <- _].
Qed.

Lemma GenerateID_skips_listed_hashes_witness :
  let hashes := [mkInfohash "uuid-1" "a"; mkInfohash "uuid-2" "b"] in
  GenerateID [Some "uuid-2"; Some "uuid-1"; Some "uuid-3"; Some "uuid-4"] hashes
    = Done ("uuid-3", [Some "uuid-4"])
  ∧ GenerateID [Some "uuid-2"; Some "uuid-1"; None; Some "uuid-4"] hashes = Panicked.
Proof.
  intros hashes.
  destruct (GenerateID_skips_listed_hashes ["uuid-2"; "uuid-1"] "uuid-3"
              [Some "uuid-4"] hashes) as (H1 & H2 & _).
  - by apply (bool_decide_unpack _).
  - by apply (bool_decide_unpack _).
  - split; [exact H1|exact H2].
Defined.

(** ** Datagrams without a command *)

Section ListenMore.
Variable ResolveUDPAddr : string → option UDPAddr.
Variable ValidateConnection : ControlPeer → bool.

Local Abbreviation Listen := (Listen ResolveUDPAddr ValidateConnection).
Local Abbreviation step := (step ResolveUDPAddr ValidateConnection).
Local Abbreviation run := (run ResolveUDPAddr ValidateConnection).

Lemma set_NodeList_id dht : set_NodeList dht (NodeList dht) = dht.
Proof. by destruct dht. Qed.

(** X2: a datagram that carries none of the six commands (or could not be
    decoded at all) is not answered; all the same, when it comes from a
    source that is not registered, that source is listed as a node under a
    newly generated id. *)
Theorem Listen_registers_unanswered_source (dht : DHTRouter) (id : string)
    (rest : list (option string)) (addr : UDPAddr) (req : DHTRequest) :
  reqCommand req ∉ known_commands →
  id ∉ Hash <$> Hashes dht →
  Listen dht (Some id :: rest) addr req =
  Done (if IsNewPeer (NodeList dht) (UDPAddr_String addr)
        then (set_NodeList dht
                (NodeList dht ++ [mkNode id "" (UDPAddr_String addr) "" addr 0 false]),
              rest, None)
        else (dht, Some id :: rest, None)).
Proof.
  intros Hc Hid. unfold known_commands in Hc.
  rewrite !not_elem_of_cons in Hc. destruct Hc as (H1 & H2 & H3 & H4 & H5 & H6 & _).
  apply streq_false in H1, H2, H3, H4, H5, H6.
  unfold Tracker.Listen. rewrite H1, H2, H3, H4, H5, H6.
  destruct (IsNewPeer _ _).
  - rewrite GenerateID_cons_fresh by done. reflexivity.
  - cbn. by rewrite set_NodeList_id.
Qed.

End ListenMore.

Lemma Listen_registers_unanswered_source_witness :
  Listen Scenario.resolver Scenario.dial_ok (mkRouter [] [] []) [Some "uuid-1"]
         Scenario.peerA zeroRequest
  = Done (mkRouter [mkNode "uuid-1" "" "203.0.113.5:31000" "" Scenario.peerA 0 false] [] [],
          [], None).
Proof.
  apply (Listen_registers_unanswered_source Scenario.resolver Scenario.dial_ok
           (mkRouter [] [] []) "uuid-1" [] Scenario.peerA zeroRequest).
  - by apply (bool_decide_unpack _).
  - by apply (bool_decide_unpack _).
Defined.

(** ** The registry *)

Lemma Ping_cycle_field {X} (f : Node → X) (nl nl' : list Node) probes :
  (∀ n, f (swept n) = f n) →
  Ping_cycle nl = Done (nl', probes) →
  (f <$> nl') `sublist_of` (f <$> nl).
Proof.
  intros Hf. destruct nl as [|n nl _] using rev_ind.
  - rewrite Ping_cycle_nil. by intros [= <- <-].
  - destruct (decide (expiring n)) as [Hn|Hn].
    + by rewrite Ping_cycle_panics_on_last.
    + rewrite Ping_cycle_keeps_the_rest by done. intros [= <- _].
      rewrite (fmap_keeps_field f); [|done].
      apply fmap_sublist, sublist_filter.
Qed.

Lemma kept_source : kept_field source.
Proof. by repeat split. Qed.

Section Registry.
Variable ResolveUDPAddr : string → option UDPAddr.
Variable ValidateConnection : ControlPeer → bool.

Local Abbreviation Listen := (Listen ResolveUDPAddr ValidateConnection).
Local Abbreviation step := (step ResolveUDPAddr ValidateConnection).
Local Abbreviation run := (run ResolveUDPAddr ValidateConnection).

(** The sources of the nodes after a step: those of before, less the ones
    that a ping cycle removed, and the source of the datagram. *)
Lemma step_sources t ev t' s :
  step t ev = Done t' →
  s ∈ source <$> NodeList (router t') →
  s ∈ source <$> NodeList (router t)
  ∨ ∃ addr req, ev = Datagram addr req ∧ s = (UDPAddr_String addr, addr).
Proof.
  destruct ev as [addr req|]; cbn [Tracker.step].
  - destruct (Tracker.Listen _ _ _ _ _ _) as [[[dht us] resp]| |] eqn:E; [|done..].
    cbn. intros [= <-]. cbn.
    apply (Listen_field source kept_source) in E as [_ E].
    destruct (IsNewPeer _ _).
    + destruct E as (id & _ & ->). rewrite elem_of_app, list_elem_of_singleton.
      intros [?| ->]; [by left|right; eauto].
    + destruct E as [_ ->]. by left.
  - destruct (Ping_cycle _) as [[nl probes]| |] eqn:E; [|done..].
    cbn. intros [= <-]. cbn. intros Hs. left.
    eapply elem_of_sublist; [exact Hs|].
    eapply Ping_cycle_field; [|exact E]. intros n. unfold swept. by case_bool_decide.
Qed.

Lemma run_sources evs t t' s :
  run t evs = Done t' →
  s ∈ source <$> NodeList (router t') →
  s ∈ source <$> NodeList (router t)
  ∨ ∃ addr req, Datagram addr req ∈ evs ∧ s = (UDPAddr_String addr, addr).
Proof.
  revert t. induction evs as [|ev evs IH]; intros t; cbn [Tracker.run].
  - intros [= <-]. by left.
  - destruct (step t ev) as [t1| |] eqn:E; [|done..]. cbn. intros Hrun Hs.
    destruct (IH t1 Hrun Hs) as [H1|(addr & req & Hin & ->)].
    + destruct (step_sources t ev t1 s E H1) as [?|(addr & req & -> & ->)]; [by left|].
      right. exists addr, req. split; [apply list_elem_of_here|done].
    + right. exists addr, req. split; [by apply list_elem_of_further|done].
Qed.

(** X3: whatever datagrams and ping timeouts a tracker has gone through since
    its start, it lists at most one node per source address, every node under
    the text of the address it wrote from, and only sources that a datagram
    came from. *)
Theorem run_lists_one_node_per_source (uuids : list (option string))
    (evs : list event) (t : Tracker) :
  run (fresh_tracker uuids) evs = Done t →
  NoDup (ConnectionAddress <$> NodeList (router t))
  ∧ ∀ n, n ∈ NodeList (router t) →
      addressed n ∧ ∃ req, Datagram (Addr n) req ∈ evs.
Proof.
  intros Hrun. split.
  - by destruct (run_inv _ _ evs (fresh_tracker uuids) t (fresh_tracker_inv uuids) Hrun).
  - intros n Hn.
    destruct (run_sources evs (fresh_tracker uuids) t (source n) Hrun) as [H|H].
    + by apply list_elem_of_fmap_2.
    + cbn in H. by apply elem_of_nil in H.
    + destruct H as (addr & req & Hin & [= Hc Ha]). unfold addressed.
      rewrite Hc, Ha. split; [done|]. by exists req.
Qed.

(** ** Control peers *)

Lemma remove_bad_cp_sublist cps hash :
  remove_bad_cp ValidateConnection cps hash `sublist_of` cps.
Proof.
  induction cps as [|cp cps IH]; cbn; [done|].
  destruct (_ && _); [by apply sublist_cons|by apply sublist_skip].
Qed.

Lemma ResponseRegCP_spec dht req addr :
  ResponseRegCP ResolveUDPAddr ValidateConnection dht req addr =
  match ResolveUDPAddr addr with
  | Some laddr =>
      if bool_decide (IP laddr ∉ control_ips dht) && ValidateConnection (mkControlPeer laddr)
      then (set_ControlPeers dht (ControlPeers dht ++ [mkControlPeer laddr]),
            mkResponse (reqCommand req) "0" "0")
      else (dht, mkResponse "" "0" "0")
  | None => (dht, mkResponse "" "0" "0")
  end.
Proof.
  unfold ResponseRegCP. destruct (ResolveUDPAddr addr) as [laddr|]; [|done].
  rewrite (absent_scan (λ cp, IP (cpAddr cp))). cbn [andb]. fold (control_ips dht).
  destruct (bool_decide _); cbn; [|done]. by destruct (ValidateConnection _).
Qed.

Lemma Listen_control_ips dht uuids addr req dht' uuids' resp :
  NoDup (control_ips dht) →
  Listen dht uuids addr req = Done (dht', uuids', resp) →
  NoDup (control_ips dht').
Proof.
  intros Hnd. unfold Tracker.Listen.
  destruct (if IsNewPeer _ _ then _ else _) as [[[n nl] us]| |]; [|done..]. cbn.
  repeat (destruct (streq (reqCommand req) _)); cbn.
  - destruct (ResponseConn _ _ _ _ _) as [[nl' r]| |]; [|done..]. cbn. by intros [= <- _ _].
  - destruct (ResponseFind _ _ _) as [nl' r]. cbn. by intros [= <- _ _].
  - by intros [= <- _ _].
  - rewrite ResponseRegCP_spec. destruct (ResolveUDPAddr _) as [laddr|]; [|by intros [= <- _ _]].
    cbn [ControlPeers set_NodeList].
    destruct (bool_decide_reflect (IP laddr ∉ control_ips (set_NodeList dht nl))) as [Hnew|Hold];
      cbn [andb]; [|by intros [= <- _ _]].
    destruct (ValidateConnection _); [|by intros [= <- _ _]].
    intros [= <- _ _]. unfold control_ips in *. cbn in *. rewrite fmap_app.
    apply NoDup_app. split; [done|]. split; [|apply NoDup_singleton].
    intros x Hx ->%list_elem_of_singleton. done.
  - by intros [= <- _ _].
  - intros [= <- _ _]. unfold control_ips in *. cbn.
    eapply sublist_NoDup; [exact Hnd|]. apply fmap_sublist, remove_bad_cp_sublist.
  - by intros [= <- _ _].
Qed.

(** X4: whatever a tracker has gone through since its start, no two of its
    control peers have the same IP. *)
Theorem run_keeps_control_peers_distinct (uuids : list (option string))
    (evs : list event) (t : Tracker) :
  run (fresh_tracker uuids) evs = Done t →
  NoDup (control_ips (router t)).
Proof.
  assert (Hgen : ∀ evs t0 t1, NoDup (control_ips (router t0)) →
                   run t0 evs = Done t1 → NoDup (control_ips (router t1))).
  { clear. intros evs. induction evs as [|ev evs IH]; intros t0 t1 Hnd; cbn [Tracker.run].
    - by intros [= <-].
    - destruct (step t0 ev) as [t2| |] eqn:E; [|done..]. cbn. apply IH.
      destruct ev as [addr req|]; cbn [Tracker.step] in E.
      + destruct (Tracker.Listen _ _ _ _ _ _) as [[[dht us] resp]| |] eqn:EL; [|done..].
        cbn in E. injection E as <-. cbn. by eapply Listen_control_ips.
      + destruct (Ping_cycle _) as [[nl probes]| |]; [|done..].
        cbn in E. by injection E as <-. }
  apply Hgen. constructor.
Qed.

(** X5: a [regcp] is answered exactly when the control peer was taken in: its
    source address resolves, no listed control peer has the same IP, and it
    answers the dial.  Then it is appended to the list and the reply is a
    [regcp]; otherwise nothing is sent and the list stays as it is. *)
Theorem regcp_answered_when_registered (dht : DHTRouter)
    (uuids : list (option string)) (addr : UDPAddr) (req : DHTRequest)
    (dht' : DHTRouter) (uuids' : list (option string)) (resp : option DHTResponse) :
  reqCommand req = CMD_REGCP →
  Listen dht uuids addr req = Done (dht', uuids', resp) →
  match ResolveUDPAddr (UDPAddr_String addr) with
  | Some laddr =>
      if bool_decide (IP laddr ∉ control_ips dht) && ValidateConnection (mkControlPeer laddr)
      then ControlPeers dht' = ControlPeers dht ++ [mkControlPeer laddr]
           ∧ resp = Some (mkResponse CMD_REGCP "0" "0")
      else ControlPeers dht' = ControlPeers dht ∧ resp = None
  | None => ControlPeers dht' = ControlPeers dht ∧ resp = None
  end.
Proof.
  intros Hc. unfold Tracker.Listen.
  destruct (if IsNewPeer _ _ then _ else _) as [[[n nl] us]| |]; [|done..]. cbn.
  rewrite Hc. cbn. rewrite ResponseRegCP_spec.
  destruct (ResolveUDPAddr _) as [laddr|]; [|by intros [= <- _ <-]].
  replace (control_ips (set_NodeList dht nl)) with (control_ips dht) by done.
  destruct (_ && _); intros [= <- _ <-]; cbn; by rewrite ?Hc.
Qed.

End Registry.

Lemma run_lists_one_node_per_source_witness :
  (λ t, ConnectionAddress <$> NodeList (router t))
    <$> run_tracker [Some "uuid-1"; Some "uuid-2"]
          [Datagram peerA (conn "4000"); Datagram peerB (conn "4000");
           Datagram peerA (find "net-X"); PingTimeout]
  = Done ["203.0.113.5:31000"; "203.0.113.5:31001"]
  ∧ NoDup ["203.0.113.5:31000"; "203.0.113.5:31001"].
Proof.
  destruct (run_tracker [Some "uuid-1"; Some "uuid-2"]
             [Datagram peerA (conn "4000"); Datagram peerB (conn "4000");
              Datagram peerA (find "net-X"); PingTimeout]) as [t| |] eqn:E;
    [|by vm_compute in E..].
  pose proof (run_lists_one_node_per_source resolver dial_ok _ _ t E) as [Hnd _].
  assert (Ht : ConnectionAddress <$> NodeList (router t)
               = ["203.0.113.5:31000"; "203.0.113.5:31001"]).
  { vm_compute in E. by injection E as <-. }
  split; [by rewrite <- Ht|]. by rewrite <- Ht.
Defined.

Lemma run_keeps_control_peers_distinct_witness :
  (λ t, control_ips (router t))
    <$> run_tracker [Some "uuid-1"; Some "uuid-2"; Some "uuid-3"]
          [Datagram peerA regcp; Datagram peerB regcp; Datagram peerC regcp]
  = Done ["203.0.113.5"; "198.51.100.7"]
  ∧ NoDup ["203.0.113.5"; "198.51.100.7"].
Proof.
  destruct (run_tracker [Some "uuid-1"; Some "uuid-2"; Some "uuid-3"]
             [Datagram peerA regcp; Datagram peerB regcp; Datagram peerC regcp])
    as [t| |] eqn:E; [|by vm_compute in E..].
  pose proof (run_keeps_control_peers_distinct resolver dial_ok _ _ t E) as Hnd.
  assert (Ht : control_ips (router t) = ["203.0.113.5"; "198.51.100.7"]).
  { vm_compute in E. by injection E as <-. }
  split; [by rewrite <- Ht|]. by rewrite <- Ht.
Defined.

Lemma regcp_answered_when_registered_witness :
  ∃ dht',
    Listen resolver dial_ok (mkRouter [] [] []) [Some "uuid-1"] peerA regcp
    = Done (dht', [], Some (mkResponse CMD_REGCP "0" "0"))
    ∧ ControlPeers dht' = [mkControlPeer peerA].
Proof.
  destruct (Listen resolver dial_ok (mkRouter [] [] []) [Some "uuid-1"] peerA regcp)
    as [[[dht' us] resp]| |] eqn:E; [|by vm_compute in E..].
  pose proof (regcp_answered_when_registered resolver dial_ok _ _ _ regcp _ _ _ eq_refl E) as H.
  cbn in H. destruct H as [Hcp ->]. exists dht'. split; [|exact Hcp].
  vm_compute in E. injection E as _ <-. reflexivity.
Defined.

(** ** [find] files the requester *)

Lemma set_AssociatedHash_id n : set_AssociatedHash n (AssociatedHash n) = n.
Proof. by destruct n. Qed.

Lemma find_others_ext (nl1 nl2 : list Node) hash addr :
  Forall2 (λ a b, ConnectionAddress a = ConnectionAddress b ∧
                  (ConnectionAddress a ≠ addr → a = b)) nl1 nl2 →
  find_others nl1 hash addr = find_others nl2 hash addr.
Proof.
  unfold find_others. induction 1 as [|a b nl1 nl2 [Hc Hab] _ IH]; [done|].
  rewrite !filter_cons, IH.
  destruct (decide (ConnectionAddress a = addr)) as [Ha|Ha].
  - rewrite !decide_False by (rewrite <- ?Hc; naive_solver). done.
  - rewrite <- (Hab Ha). done.
Qed.

(** X6: after a [find], the node of the requester is filed under the requested
    hash (and under no other), and no other node has changed; the same
    [find] once more gets the same answer and changes nothing. *)
Theorem find_files_the_requester (nl : list Node) (req : DHTRequest) (addr : string) :
  NoDup (ConnectionAddress <$> nl) →
  let nl' := (ResponseFind nl req addr).1 in
  nl' = (λ n, if streq (ConnectionAddress n) addr
              then set_AssociatedHash n (reqHash req) else n) <$> nl
  ∧ ResponseFind nl' req addr = ResponseFind nl req addr.
Proof.
  intros Hnd nl'.
  assert (Hnl' : nl' = RegisterHash nl addr (reqHash req)).
  { subst nl'. unfold ResponseFind. rewrite find_scan. cbn.
    case_bool_decide as Hex; [|done].
    unfold RegisterHash. rewrite <- (list_fmap_id nl) at 1. apply list_fmap_ext.
    intros i n Hi. cbn. destruct (streq _ _) eqn:E; [|done]. apply streq_true in E.
    apply Exists_exists in Hex as (m & Hm & Hmh & Hma).
    assert (n = m) as ->.
    { eapply (NoDup_fmap_eq ConnectionAddress); eauto using list_elem_of_lookup_2.
      congruence. }
    by rewrite <- Hmh, set_AssociatedHash_id. }
  split; [done|].
  assert (Hothers : find_others nl' (reqHash req) addr = find_others nl (reqHash req) addr).
  { apply find_others_ext. rewrite Hnl'. unfold RegisterHash.
    apply Forall2_fmap_l, Forall_Forall2_diag, Forall_forall. intros n _. cbn.
    destruct (streq (ConnectionAddress n) addr) eqn:E; [|done].
    apply streq_true in E. split; [done|]. done. }
  assert (Hreg : RegisterHash nl' addr (reqHash req) = nl').
  { rewrite Hnl'. unfold RegisterHash. rewrite <- list_fmap_compose. apply list_fmap_ext.
    intros i n _. cbn. destruct (streq (ConnectionAddress n) addr) eqn:E; cbn; rewrite E; done. }
  unfold ResponseFind at 1. rewrite find_scan, Hothers. cbn.
  replace (ResponseFind nl req addr) with
    (nl', mkResponse (reqCommand req) "0"
            (join_commas (Endpoint <$> find_others nl (reqHash req) addr))).
  2:{ subst nl'. unfold ResponseFind. rewrite find_scan. cbn. done. }
  rewrite Hreg. by destruct (bool_decide _).
Qed.

Lemma find_files_the_requester_witness :
  let nl := [mkNode "uuid-1" "203.0.113.5:4000" "203.0.113.5:31000" "" peerA 0 false;
             mkNode "uuid-2" "203.0.113.5:5000" "203.0.113.5:31001" "net-X" peerB 0 false] in
  (ResponseFind nl (find "net-X") "203.0.113.5:31000").1
  = [mkNode "uuid-1" "203.0.113.5:4000" "203.0.113.5:31000" "net-X" peerA 0 false;
     mkNode "uuid-2" "203.0.113.5:5000" "203.0.113.5:31001" "net-X" peerB 0 false].
Proof.
  intros nl.
  destruct (find_files_the_requester nl (find "net-X") "203.0.113.5:31000") as [H _].
  - by apply (bool_decide_unpack _).
  - exact H.
Defined.

(** ** [cp] and [badcp] *)

Section ControlPeers.
Variable ResolveUDPAddr : string → option UDPAddr.
Variable ValidateConnection : ControlPeer → bool.

(** X7: the reply to a [cp] names the last control peer of the list that
    answers the dial, and ["0"] when none of them does. *)
Theorem ResponseCP_names_last_reachable (dht : DHTRouter) (req : DHTRequest)
    (addr : string) :
  ResponseCP ValidateConnection dht req addr =
  mkResponse (reqCommand req) "0"
    (match last (filter (λ cp, ValidateConnection cp = true) (ControlPeers dht)) with
     | Some cp => UDPAddr_String (cpAddr cp)
     | None => "0"
     end).
Proof.
  unfold ResponseCP. f_equal.
  induction (ControlPeers dht) as [|cp cps IH] using rev_ind; [done|].
  rewrite foldl_app, filter_app, filter_cons, filter_nil. cbn [foldl].
  destruct (ValidateConnection cp) eqn:E.
  - rewrite decide_True by done. by rewrite last_snoc.
  - rewrite decide_False by done. by rewrite app_nil_r.
Qed.

(** X8: a [badcp] takes at most one control peer off the list: the first one
    that has the reported address and does not answer the dial. *)
Theorem remove_bad_cp_cuts_first_bad (cps : list ControlPeer) (hash : string) :
  let bad cp := UDPAddr_String (cpAddr cp) = hash ∧ ValidateConnection cp = false in
  match list_find bad cps with
  | Some (i, _) => remove_bad_cp ValidateConnection cps hash = delete i cps
  | None => remove_bad_cp ValidateConnection cps hash = cps
  end.
Proof.
  intros bad. induction cps as [|cp cps IH]; [done|].
  cbn [remove_bad_cp list_find].
  destruct (decide (bad cp)) as [[H1 H2]|Hn].
  - apply streq_true in H1. rewrite H1, H2. done.
  - assert (streq (UDPAddr_String (cpAddr cp)) hash && negb (ValidateConnection cp) = false) as ->.
    { apply andb_false_iff. destruct (streq _ _) eqn:E1; [|by left]. right.
      apply streq_true in E1. destruct (ValidateConnection cp) eqn:E2; [done|].
      exfalso. by apply Hn. }
    destruct (list_find bad cps) as [[i x]|]; cbn; by rewrite IH.
Qed.

End ControlPeers.

(** ** What a ping cycle comes to *)

(** X9: what a ping cycle comes to.  When the last node of the list is about
    to expire, the cycle panics.  Otherwise every node gets one more missed
    ping and a probe, and exactly the nodes that reach four missed pings
    leave the list. *)
Theorem Ping_cycle_outcome (nl : list Node) :
  Ping_cycle nl =
  match last nl with
  | Some n =>
      if decide (expiring n) then Panicked
      else Done (swept <$> filter (λ n, ¬ expiring n) nl,
                 (λ n, (Addr n, PING_PROBE)) <$> nl)
  | None => Done ([], [])
  end.
Proof.
  destruct nl as [|n nl _] using rev_ind; [done|].
  rewrite last_snoc. destruct (decide (expiring n)).
  - by apply Ping_cycle_panics_on_last.
  - by apply Ping_cycle_keeps_the_rest.
Qed.

(** ** Nodes that answer the probes *)

Section Answers.
Variable ResolveUDPAddr : string → option UDPAddr.
Variable ValidateConnection : ControlPeer → bool.

Local Abbreviation step := (step ResolveUDPAddr ValidateConnection).
Local Abbreviation run := (run ResolveUDPAddr ValidateConnection).

Lemma run_app evs1 evs2 t :
  run t (evs1 ++ evs2) = t' ← run t evs1; run t' evs2.
Proof.
  revert t. induction evs1 as [|ev evs1 IH]; intros t; [done|].
  cbn [app Tracker.run]. destruct (step t ev) as [t1| |]; [|done..]. cbn. apply IH.
Qed.

(** The answers of the nodes [ns], one after the other. *)
Lemma run_answers req (ns : list Node) t :
  reqCommand req = CMD_PING →
  (∀ n, n ∈ ns → UDPAddr_String (Addr n) ∈ ConnectionAddress <$> NodeList (router t)) →
  ∃ t', run t (answers req ns) = Done t'
    ∧ NodeList (router t')
      = (λ m, foldl (λ m n, reset_by (Addr n) m) m ns) <$> NodeList (router t).
Proof.
  intros Hc. revert t. induction ns as [|n ns IH]; intros t Hreg.
  - exists t. split; [done|]. cbn. by rewrite list_fmap_id.
  - cbn [answers fmap list_fmap Tracker.run Tracker.step].
    rewrite (Listen_ping_resets _ _ _ _ _ _); [|
      apply not_true_is_false; rewrite IsNewPeer_spec; intros H; apply H, Hreg, list_elem_of_here
      |done].
    cbn. fold (answers req ns).
    destruct (IH (mkTracker
                (set_NodeList (router t)
                   ((λ node, if streq (UDPAddr_String (Addr node)) (UDPAddr_String (Addr n))
                             then set_MissedPing node 0 else node) <$> NodeList (router t)))
                (uuid_source t) (sent t ++ []))) as (t' & -> & Ht').
    + intros m Hm. cbn. rewrite <- list_fmap_compose.
      erewrite list_fmap_ext; [apply Hreg; by apply list_elem_of_further|].
      intros i x _. cbn. by destruct (streq _ _).
    + exists t'. split; [done|]. rewrite Ht'. cbn. rewrite <- list_fmap_compose.
      apply list_fmap_ext. intros i x _. done.
Qed.

Lemma reset_all (ns : list Node) (m : Node) :
  MissedPing m = 0 ∨ Addr m ∈ Addr <$> ns →
  foldl (λ m n, reset_by (Addr n) m) m ns = set_MissedPing m 0.
Proof.
  revert m. induction ns as [|n ns IH]; intros m Hm; cbn [foldl].
  - destruct Hm as [Hm|Hm]; [|by apply elem_of_nil in Hm]. destruct m. cbn in Hm. by subst.
  - assert (Hset : ∀ x, set_MissedPing (set_MissedPing m 0) x = set_MissedPing m x) by done.
    unfold reset_by at 2. destruct (streq _ _) eqn:E.
    + rewrite IH by (by left). apply Hset.
    + apply IH. destruct Hm as [Hm|Hm]; [by left|right].
      rewrite fmap_cons in Hm. apply elem_of_cons in Hm as [Hm|Hm]; [|done].
      apply streq_false in E. by rewrite Hm in E.
Qed.

Lemma responsive_swept (nl : list Node) :
  responsive nl →
  Ping_cycle nl
  = Done ((λ n, set_MissedPing n (MissedPing n + 1)) <$> nl,
          (λ n, (Addr n, PING_PROBE)) <$> nl).
Proof.
  intros Hr.
  assert (Hne : ∀ n, n ∈ nl → ¬ expiring n).
  { intros n Hn. apply (proj1 (Forall_forall _ _) Hr) in Hn as [_ Hn]. unfold expiring. lia. }
  assert (Hflt : filter (λ n, ¬ expiring n) nl = nl).
  { clear Hr. induction nl as [|n nl IH]; [done|]. rewrite filter_cons.
    rewrite decide_True by (apply Hne, list_elem_of_here).
    f_equal. apply IH. intros m Hm. by apply Hne, list_elem_of_further. }
  assert (Hsw : swept <$> nl = (λ n, set_MissedPing n (MissedPing n + 1)) <$> nl).
  { apply list_fmap_ext. intros i n Hn%list_elem_of_lookup_2.
    specialize (Hne n Hn). unfold expiring in Hne. unfold swept. cbn.
    by rewrite bool_decide_eq_false_2 by lia. }
  rewrite <- Hsw. rewrite <- Hflt at 2. clear Hsw Hflt Hr.
  destruct nl as [|n nl _] using rev_ind; [done|].
  apply Ping_cycle_keeps_the_rest, Hne. rewrite elem_of_app, list_elem_of_singleton. by right.
Qed.

(** One round: the timeout, and then the answer of every node. *)
Lemma responsive_round t req :
  reqCommand req = CMD_PING →
  responsive (NodeList (router t)) →
  ∃ t', run t (PingTimeout :: answers req (NodeList (router t))) = Done t'
    ∧ NodeList (router t') = (λ n, set_MissedPing n 0) <$> NodeList (router t).
Proof.
  intros Hc Hr. cbn [Tracker.run Tracker.step]. rewrite responsive_swept by done. cbn.
  set (t1 := mkTracker _ _ _).
  destruct (run_answers req (NodeList (router t)) t1 Hc) as (t' & Hrun & Ht').
  - intros n Hn. subst t1. cbn. rewrite <- list_fmap_compose. cbn.
    apply (proj1 (Forall_forall _ _) Hr) in Hn as Hn'. destruct Hn' as [<- _].
    by apply (list_elem_of_fmap_2 ConnectionAddress).
  - exists t'. split; [done|]. rewrite Ht'. subst t1. cbn. rewrite <- list_fmap_compose.
    apply list_fmap_ext. intros i n Hn%list_elem_of_lookup_2. cbn.
    rewrite reset_all; [done|]. right. cbn. by apply (list_elem_of_fmap_2 Addr).
Qed.

(** X10: nodes that answer every probe stay listed.  Through any number of
    rounds of a ping timeout followed by a [ping] from every node, no node
    leaves the list, and after each round every node is back at no missed
    ping. *)
Theorem answered_probes_keep_the_nodes (t : Tracker) (req : DHTRequest) (rounds : nat) :
  reqCommand req = CMD_PING →
  responsive (NodeList (router t)) →
  ∃ t', run t (mjoin (replicate (S rounds)
                        (PingTimeout :: answers req (NodeList (router t))))) = Done t'
    ∧ NodeList (router t') = (λ n, set_MissedPing n 0) <$> NodeList (router t).
Proof.
  intros Hc.
  assert (Hgen : ∀ nl0 t, responsive (NodeList (router t)) →
            Addr <$> NodeList (router t) = Addr <$> nl0 →
            ∃ t', run t (mjoin (replicate (S rounds) (PingTimeout :: answers req nl0))) = Done t'
               ∧ NodeList (router t') = (λ n, set_MissedPing n 0) <$> NodeList (router t)).
  { intros nl0. induction rounds as [|rounds IH]; intros t0 Hr Ha.
    - cbn [replicate mjoin list_join]. rewrite app_nil_r.
      assert (answers req nl0 = answers req (NodeList (router t0))) as ->.
      { unfold answers. rewrite !(list_fmap_compose Addr (λ a, Datagram a req)). by rewrite Ha. }
      by apply responsive_round.
    - change (mjoin (replicate (S (S rounds)) (PingTimeout :: answers req nl0)))
        with ((PingTimeout :: answers req nl0)
              ++ mjoin (replicate (S rounds) (PingTimeout :: answers req nl0))).
      rewrite run_app.
      assert (answers req nl0 = answers req (NodeList (router t0))) as Hans.
      { unfold answers. rewrite !(list_fmap_compose Addr (λ a, Datagram a req)). by rewrite Ha. }
      rewrite Hans. destruct (responsive_round t0 req Hc Hr) as (t1 & -> & Ht1).
      rewrite <- Hans. change (Done t1 ≫= ?k) with (k t1). cbv beta.
      destruct (IH t1) as (t' & -> & Ht').
      + rewrite Ht1. apply Forall_fmap, Forall_forall. intros n Hn. cbn.
        apply (proj1 (Forall_forall _ _) Hr) in Hn as [Hn _]. split; [done|lia].
      + rewrite Ht1, <- Ha, <- list_fmap_compose. by apply list_fmap_ext.
      + exists t'. split; [done|]. rewrite Ht', Ht1, <- list_fmap_compose.
        by apply list_fmap_ext. }
  intros Hr. by apply Hgen.
Qed.

End Answers.

Lemma answered_probes_keep_the_nodes_witness :
  let nl := [mkNode "uuid-1" "203.0.113.5:4000" "203.0.113.5:31000" "net-X" peerA 2 false;
             mkNode "uuid-2" "203.0.113.5:5000" "203.0.113.5:31001" "net-X" peerB 0 false] in
  let t := mkTracker (mkRouter nl [] []) [] [] in
  ∃ t', Tracker.run resolver dial_ok t
          (mjoin (replicate 5 (PingTimeout :: answers ping nl))) = Done t'
    ∧ NodeList (router t')
      = [mkNode "uuid-1" "203.0.113.5:4000" "203.0.113.5:31000" "net-X" peerA 0 false;
         mkNode "uuid-2" "203.0.113.5:5000" "203.0.113.5:31001" "net-X" peerB 0 false].
Proof.
  intros nl t.
  apply (answered_probes_keep_the_nodes resolver dial_ok t ping 4).
  - reflexivity.
  - repeat (constructor; [split; [reflexivity|cbn; lia]|]). constructor.
Defined.

End TrackerTheory.

(** * The DHT client *)
Module ClientTheory.
Import Client.

(** On a [conn] reply the client takes the carried id for its own and writes
    a [find] with its network hash. *)
Lemma ListenDHT_conn dht data :
  respCommand data = CMD_CONN →
  NetworkHash dht ≠ "" →
  ListenDHT dht data =
  (set_ID dht (respId data),
   [Some (mkRequest "0" (NetworkHash dht) CMD_FIND "")]).
Proof.
  intros Hc Hh. unfold ListenDHT. rewrite Hc. cbn.
  unfold Compose. cbn. apply streq_false in Hh. by rewrite Hh.
Qed.

Lemma ListenDHT_ping dht data :
  respCommand data = CMD_PING →
  ListenDHT dht data = (dht, [Some (mkRequest "0" "0" CMD_PING "")]).
Proof. intros Hc. unfold ListenDHT. by rewrite Hc. Qed.

(** ** The catch *)
Import ClientSpec.

Lemma UpdateLastCatch_scan (lastCatch : list string) (catch : string) :
  UpdateLastCatch lastCatch catch = foldl catch_step lastCatch (split_commas catch).
Proof.
  unfold UpdateLastCatch. generalize (split_commas catch). intros ps. revert lastCatch.
  induction ps as [|p ps IH]; intros l; cbn [foldl]; [done|].
  rewrite <- IH. f_equal. unfold catch_step. by rewrite found_scan.
Qed.

Lemma catch_scan (ps l : list string) :
  ∃ new,
    foldl catch_step l ps = l ++ new
    ∧ NoDup new
    ∧ ∀ p, p ∈ new ↔ p ∈ ps ∧ p ≠ "" ∧ p ∉ l.
Proof.
  revert l. induction ps as [|p ps IH]; intros l; cbn [foldl].
  - exists []. rewrite app_nil_r. split; [done|]. split; [constructor|].
    intros p. split; [by intros ?%elem_of_nil|]. by intros [?%elem_of_nil _].
  - unfold catch_step at 2.
    destruct (streq p "") eqn:Ep; [apply streq_true in Ep|apply streq_false in Ep].
    + destruct (IH l) as (new & -> & Hnd & Hin). exists new. split; [done|]. split; [done|].
      intros q. rewrite Hin, elem_of_cons. naive_solver.
    + case_bool_decide as Hp.
      * destruct (IH l) as (new & -> & Hnd & Hin). exists new. split; [done|]. split; [done|].
        intros q. rewrite Hin, elem_of_cons. naive_solver.
      * destruct (IH (l ++ [p])) as (new & -> & Hnd & Hin). exists (p :: new).
        rewrite <- app_assoc. split; [done|]. split.
        -- apply NoDup_cons. split; [|done]. rewrite Hin, elem_of_app, list_elem_of_singleton.
           naive_solver.
        -- intros q. rewrite !elem_of_cons, Hin, elem_of_app, list_elem_of_singleton.
           destruct (decide (q = p)); naive_solver.
Qed.

(** X11: [UpdateLastCatch] appends to [LastCatch], once each, the entries of
    the comma-separated [catch] that are not empty and that [LastCatch] does
    not hold; what [LastCatch] held stays in place. *)
Theorem UpdateLastCatch_appends_new_entries (lastCatch : list string) (catch : string) :
  ∃ new,
    UpdateLastCatch lastCatch catch = lastCatch ++ new
    ∧ NoDup new
    ∧ ∀ p, p ∈ new ↔ p ∈ split_commas catch ∧ p ≠ "" ∧ p ∉ lastCatch.
Proof. rewrite UpdateLastCatch_scan. apply catch_scan. Qed.

Lemma catch_scan_fresh (ps l : list string) :
  NoDup (l ++ ps) → "" ∉ ps → foldl catch_step l ps = l ++ ps.
Proof.
  revert l. induction ps as [|p ps IH]; intros l Hnd Hne; cbn [foldl].
  - by rewrite app_nil_r.
  - unfold catch_step at 2.
    apply not_elem_of_cons in Hne as [Hp Hne].
    apply not_eq_sym, streq_false in Hp. rewrite Hp.
    rewrite bool_decide_eq_false_2.
    + rewrite IH; [by rewrite <- app_assoc| |done]. by rewrite <- app_assoc.
    + apply NoDup_app in Hnd as (_ & Hd & _). intros Hin. apply (Hd p Hin), list_elem_of_here.
Qed.

Lemma set_LastCatch_id dht : set_LastCatch dht (LastCatch dht) = dht.
Proof. by destruct dht. Qed.

Import Tracker TrackerSpec TrackerTheory.

Section Datagram.
Variable received : DHTResponse → option DHTResponse.

(** X12: the answer to a [find], taken in by the client.  When the reply
    arrives whole, and the endpoints that the tracker lists are proper
    entries (not empty, no comma), differ from one another and are new to
    the client, the client appends exactly them to [LastCatch], in the order
    of the tracker's list, and writes nothing back.  A reply that the
    client cannot read or decode (one that does not fit the 512 bytes of
    its buffer) changes nothing. *)
Theorem find_reply_fills_LastCatch (nl : list Node) (req : DHTRequest)
    (addr : string) (dht : DHTClient) :
  reqCommand req = CMD_FIND →
  let reply := (ResponseFind nl req addr).2 in
  let others := Endpoint <$> find_others nl (reqHash req) addr in
  NoDup (LastCatch dht ++ others) →
  Forall (λ e, e ≠ "" ∧ has_comma e = false) others →
  (received reply = Some reply →
   ListenDHT_turn received dht reply
   = (set_LastCatch dht (LastCatch dht ++ others), []))
  ∧ (received reply = None → ListenDHT_turn received dht reply = (dht, [])).
Proof.
  intros Hc reply others Hnd Hok. unfold ListenDHT_turn.
  split; intros ->; [|done]. unfold reply, ListenDHT.
  rewrite ResponseFind_command, ResponseFind_dest, Hc.
  change (streq CMD_FIND CMD_CONN) with false. change (streq CMD_FIND CMD_PING) with false.
  change (streq CMD_FIND CMD_FIND) with true. cbv iota.
  fold others. destruct (streq (join_commas others) "") eqn:E.
  - apply streq_true in E. destruct others as [|e others'].
    + by rewrite app_nil_r, set_LastCatch_id.
    + cbn in E. apply Forall_cons in Hok as [[He _] _]. by destruct e.
  - rewrite UpdateLastCatch_scan. rewrite split_join_commas.
    2:{ eapply Forall_impl; [exact Hok|]. by intros e [_ ?]. }
    rewrite foldl_app. rewrite (catch_scan_fresh others); [done|done|].
    intros Hin. apply (proj1 (Forall_forall _ _) Hok) in Hin as [? _]. done.
Qed.

End Datagram.

(** Three nodes under [net-X]; the reply to the first of them is short and
    arrives whole. *)
Lemma find_reply_fills_LastCatch_witness :
  let nl := [mkNode "uuid-1" "203.0.113.5:4000" "203.0.113.5:31000" "net-X" Scenario.peerA 0 false;
             mkNode "uuid-2" "203.0.113.5:5000" "203.0.113.5:31001" "net-X" Scenario.peerB 0 false;
             mkNode "uuid-3" "198.51.100.7:4000" "198.51.100.7:40000" "net-X" Scenario.peerC 0 false] in
  let dht := mkDHTClient "tracker:6881" [] "net-X" [] 0 [] "uuid-1" in
  ListenDHT_turn Scenario.short_replies dht
    (ResponseFind nl (Scenario.find "net-X") "203.0.113.5:31000").2
  = (set_LastCatch dht ["203.0.113.5:5000"; "198.51.100.7:4000"], []).
Proof.
  intros nl dht.
  destruct (find_reply_fills_LastCatch Scenario.short_replies nl (Scenario.find "net-X")
              "203.0.113.5:31000" dht) as [H _].
  - reflexivity.
  - by apply (bool_decide_unpack _).
  - repeat constructor; done.
  - apply H. reflexivity.
Defined.

(** ** [Initialize] *)
Section InitializeTheory.
Variable Conn : Type.
Variable ConnectAndHandshake : string → option Conn.

Lemma Initialize_scan (routers : list string) (first : string) (others : list string)
    (connection : list Conn) :
  foldl (Initialize_step Conn ConnectAndHandshake) (Done (first :: others, connection)) routers
  = Done (default first (last (filter (λ r, ConnectAndHandshake r = None) routers)) :: others,
          connection ++ omap ConnectAndHandshake routers).
Proof.
  revert first connection. induction routers as [|r routers IH]; intros first connection.
  - cbn. by rewrite app_nil_r.
  - cbn [foldl]. unfold Initialize_step at 2. cbn [mbind result_bind].
    rewrite filter_cons. destruct (ConnectAndHandshake r) as [conn|] eqn:E.
    + rewrite IH. rewrite decide_False by done. cbn [omap list_omap]. rewrite E.
      by rewrite <- app_assoc.
    + cbn [length]. rewrite bool_decide_eq_true_2 by lia. cbn [insert list_insert].
      rewrite IH. rewrite decide_True by done. cbn [omap list_omap]. rewrite E.
      f_equal. f_equal. f_equal. rewrite last_cons.
      by destruct (last (filter _ routers)).
Qed.

(** X13: [Initialize] goes through the comma-separated routers and never
    panics.  [FailedRouters] comes out with one slot per router, of which
    only the first is ever written: it holds the last router that could not
    be reached, and the failures before it are forgotten.  The connections
    are those of the routers that could be reached, in their order. *)
Theorem Initialize_remembers_last_failure (config : DHTClient) (connection : list Conn) :
  let routers := split_commas (Routers config) in
  Initialize Conn ConnectAndHandshake config connection
  = Done (set_FailedRouters config
            (default "" (last (filter (λ r, ConnectAndHandshake r = None) routers))
             :: replicate (length routers - 1) ""),
          connection ++ omap ConnectAndHandshake routers).
Proof.
  intros routers. unfold Initialize. fold routers.
  destruct routers as [|r routers'] eqn:Hr; [by apply split_commas_nonempty in Hr|].
  cbn [length replicate]. rewrite Initialize_scan. cbn. by rewrite Nat.sub_0_r.
Qed.

End InitializeTheory.

End ClientTheory.

(** * The forwarder *)
Module ForwarderTheory.
Import Forwarder ForwarderSpec.

Section Handle.
Variable ResolveUDPAddr : string → option UDPAddr.
Variable range_order : list (Z * Tunnel) → list (Z * Tunnel).
Hypothesis range_order_sound : ∀ l x, x ∈ range_order l → x ∈ l.

Local Abbreviation scan_tunnels := (scan_tunnels range_order).
Local Abbreviation HandleMessage := (HandleMessage ResolveUDPAddr range_order).
Local Abbreviation receive := (receive ResolveUDPAddr range_order).

(** A pointer that was allocated just now equals no pointer of the table, so
    the scan for an existing tunnel finds none. *)
Lemma scan_finds_nothing p src a :
  heap_inv p →
  scan_tunnels (Tunnels p) src (Some (mkAddrPtr (next_loc p) a)) = -1.
Proof.
  intros Hinv. unfold Forwarder.scan_tunnels.
  assert (Hall : ∀ e, e ∈ range_order (map_to_list (Tunnels p)) →
                      allocated p (Peer1 e.2) ∧ allocated p (Peer2 e.2)).
  { intros [k t] He%range_order_sound%elem_of_map_to_list. by eapply Hinv. }
  generalize (-1) as r. revert Hall.
  induction (range_order (map_to_list (Tunnels p))) as [|[k t] l IH]; intros Hall r; [done|].
  cbn [foldl]. rewrite IH by (intros e He; apply Hall; by apply list_elem_of_further).
  destruct (Hall (k, t)) as [H1 H2]; [by apply list_elem_of_here|]. cbn in H1, H2.
  assert (Hne : ∀ q, allocated p q → ptr_eq q (Some (mkAddrPtr (next_loc p) a)) = false).
  { intros [x|] Hq; [|done]. cbn. apply bool_decide_eq_false_2.
    specialize (Hq x eq_refl). lia. }
  unfold scan_step. rewrite (Hne _ H1), (Hne _ H2). by repeat destruct (ptr_eq _ _).
Qed.

Lemma uint16_small i : 0 ≤ i < 65536 → uint16 i = i.
Proof. intros. unfold uint16. by apply Z.mod_small. Qed.

Lemma first_free_from_skips (tunnels : gmap Z Tunnel) taken i rest :
  Forall (λ j, is_Some (tunnels !! uint16 j)) taken →
  tunnels !! uint16 i = None →
  first_free_from tunnels (taken ++ i :: rest) = Some i.
Proof.
  intros Htaken Hi. induction Htaken as [|j taken [t Hj] _ IH]; cbn.
  - by rewrite Hi.
  - by rewrite Hj.
Qed.

(** With the ids [1 .. n] in use and [n < 65535], the loop allocates
    [n + 1]. *)
Lemma first_free_dense p :
  dense p → Z.of_nat (size (Tunnels p)) < 65535 →
  first_free (Tunnels p) = Some (Z.of_nat (size (Tunnels p)) + 1).
Proof.
  intros Hd Hn. unfold dense in Hd. unfold first_free.
  set (n := size (Tunnels p)) in *.
  replace (Z.of_nat n + 1) with (Z.of_nat (S n)) at 1 by lia.
  rewrite seqZ_S. replace (1 + Z.of_nat n) with (Z.of_nat n + 1) by lia.
  apply first_free_from_skips.
  - apply Forall_forall. intros j Hj. apply elem_of_seqZ in Hj.
    rewrite uint16_small by lia. apply Hd. lia.
  - rewrite uint16_small by lia. apply eq_None_not_Some. rewrite Hd. lia.
Qed.

(** A PROXY frame whose payload resolves always opens a new tunnel, under
    the next id: no state of the table makes the handler reuse one. *)
Lemma HandleMessage_proxy_opens p src proxyId data a :
  heap_inv p → dense p → Z.of_nat (size (Tunnels p)) < 65535 →
  ResolveUDPAddr data = Some a →
  HandleMessage p src false (Some (mkP2PMessage MT_PROXY proxyId data)) =
  (mkProxy (<[Z.of_nat (size (Tunnels p)) + 1 :=
               mkTunnel src (Some (mkAddrPtr (S (next_loc p)) a)) ""]> (Tunnels p))
           (S (S (next_loc p))),
   [ProxyReply (Z.of_nat (size (Tunnels p)) + 1) data src]).
Proof.
  intros Hinv Hd Hn Ha. unfold Forwarder.HandleMessage, resolve_alloc. cbn.
  rewrite Ha. rewrite scan_finds_nothing by done. cbn.
  rewrite first_free_dense by done. by rewrite uint16_small by lia.
Qed.

Lemma receive_proxy_opens p src proxyId data a :
  heap_inv p → dense p → Z.of_nat (size (Tunnels p)) < 65535 →
  ResolveUDPAddr data = Some a →
  let n := Z.of_nat (size (Tunnels p)) in
  let src_addr := Some (mkAddrPtr (next_loc p) src) in
  receive p src (mkP2PMessage MT_PROXY proxyId data) =
  (mkProxy (<[n + 1 := mkTunnel src_addr (Some (mkAddrPtr (S (S (next_loc p))) a)) ""]>
              (Tunnels p))
           (S (S (S (next_loc p)))),
   [ProxyReply (n + 1) data src_addr]).
Proof.
  intros Hinv Hd Hn Ha n src_addr. unfold Forwarder.receive.
  rewrite (HandleMessage_proxy_opens _ _ _ _ a); try done.
  intros k t Hk. destruct (Hinv k t Hk) as [H1 H2].
  split; intros x Hx; cbn; [specialize (H1 x Hx)|specialize (H2 x Hx)]; lia.
Qed.

Lemma receive_proxy_inv p src proxyId data a :
  heap_inv p → dense p → Z.of_nat (size (Tunnels p)) < 65535 →
  ResolveUDPAddr data = Some a →
  let p' := (receive p src (mkP2PMessage MT_PROXY proxyId data)).1 in
  heap_inv p' ∧ dense p' ∧ size (Tunnels p') = S (size (Tunnels p)).
Proof.
  intros Hinv Hd Hn Ha. rewrite (receive_proxy_opens _ _ _ _ a) by done. cbn.
  unfold dense in Hd.
  assert (Hfree : Tunnels p !! (Z.of_nat (size (Tunnels p)) + 1) = None).
  { apply eq_None_not_Some. rewrite Hd. lia. }
  assert (Hsize : size (<[Z.of_nat (size (Tunnels p)) + 1 :=
             mkTunnel (Some (mkAddrPtr (next_loc p) src))
               (Some (mkAddrPtr (S (S (next_loc p))) a)) ""]> (Tunnels p))
          = S (size (Tunnels p))) by (by apply map_size_insert_None).
  split; [|split; [|done]].
  - intros k t. cbn. rewrite lookup_insert. case_decide as Hk.
    + intros [= <-]. split; intros x [= <-]; cbn; lia.
    + intros Hkt. destruct (Hinv k t Hkt) as [H1 H2].
      split; intros x Hx; cbn; [specialize (H1 x Hx)|specialize (H2 x Hx)]; lia.
  - intros k. cbn. rewrite Hsize. rewrite lookup_insert. case_decide as Hk.
    + subst k. split; [lia|eauto].
    + rewrite Hd. lia.
Qed.

(** X14: PROXY frames whose payload resolves are answered with consecutive
    ids, one new tunnel each, whoever sends them and whatever target they
    name: from the ids [1 .. n] in use, [k] frames are answered with
    [n+1 .. n+k] and leave [n+k] tunnels. *)
Lemma receive_all_proxy_ids frames p :
  heap_inv p → dense p →
  Forall (proxy_frame ResolveUDPAddr) frames →
  Z.of_nat (size (Tunnels p)) + Z.of_nat (length frames) ≤ 65535 →
  let '(p', out) := receive_all ResolveUDPAddr range_order p frames in
  omap reply_id out = seqZ (Z.of_nat (size (Tunnels p)) + 1) (Z.of_nat (length frames))
  ∧ size (Tunnels p') = (size (Tunnels p) + length frames)%nat.
Proof.
  intros Hinv Hd Hfr. revert p Hinv Hd.
  induction Hfr as [|[src [ty pid data]] frames [Hty [a Ha]] _ IH]; intros p Hinv Hd Hn.
  - cbn. split; [done|lia].
  - cbn in Hty, Ha. subst ty. cbn [length] in Hn. cbn [receive_all].
    assert (Hlt : Z.of_nat (size (Tunnels p)) < 65535) by lia.
    pose proof (receive_proxy_inv p src pid data a Hinv Hd Hlt Ha) as (Hinv' & Hd' & Hsize).
    pose proof (receive_proxy_opens p src pid data a Hinv Hd Hlt Ha) as Hrecv.
    cbn zeta in Hrecv. destruct (receive p src _) as [p1 out1].
    cbn [fst] in Hinv', Hd', Hsize. injection Hrecv as Hp1 Hout1.
    assert (Hn' : Z.of_nat (size (Tunnels p1)) + Z.of_nat (length frames) ≤ 65535)
      by (rewrite Hsize; clear -Hn; lia).
    specialize (IH p1 Hinv' Hd' Hn').
    destruct (Forwarder.receive_all _ _ p1 frames) as [p2 out2]. destruct IH as [IH1 IH2].
    split; [|cbn [length]; lia]. subst out1. cbn [app omap list_omap reply_id]. fold (omap reply_id out2).
    rewrite IH1. cbn [length].
    rewrite Nat2Z.inj_succ, (seqZ_cons (Z.of_nat (size (Tunnels p)) + 1)) by lia.
    f_equal. f_equal; lia.
Qed.

End Handle.

Lemma Initialize_inv : heap_inv Initialize ∧ dense Initialize.
Proof.
  split.
  - intros k t Hk. cbn in Hk. by rewrite lookup_empty in Hk.
  - intros k. cbn. rewrite lookup_empty, map_size_empty. split; [by intros [? ?]|lia].
Qed.

(** C2: the same PROXY frame twice, from the same source with the same
    target, and then the matching frame of the other side.  Neither the
    second nor the third frame is answered with the id of the tunnel that the
    first one opened: each opens one more tunnel between the same two
    addresses, and the ids 2 and 3 are sent back.  It is the same when the
    second frame comes with the very pointer that tunnel 1 holds as its
    source. *)
Theorem repeated_proxy_frame_opens_second_tunnel :
  let a := "203.0.113.5:31000" in
  let c := "198.51.100.7:40000" in
  let frame := mkP2PMessage MT_PROXY 0 c in
  let frames := [(Scenario.peerA, frame); (Scenario.peerA, frame);
                 (Scenario.peerC, mkP2PMessage MT_PROXY 0 a)] in
  let run := receive_all Scenario.resolver (λ l, l) Initialize frames in
  let first := receive Scenario.resolver (λ l, l) Initialize Scenario.peerA frame in
  run.2 = [ProxyReply 1 c (Some (mkAddrPtr 0 Scenario.peerA));
           ProxyReply 2 c (Some (mkAddrPtr 3 Scenario.peerA));
           ProxyReply 3 a (Some (mkAddrPtr 6 Scenario.peerC))]
  ∧ (λ t, (AddrPtr_String (Peer1 t), AddrPtr_String (Peer2 t))) <$> Tunnels run.1
    = {[ 1 := (a, c); 2 := (a, c); 3 := (c, a) ]}
  ∧ Peer1 <$> Tunnels first.1 !! 1 = Some (Some (mkAddrPtr 0 Scenario.peerA))
  ∧ (HandleMessage Scenario.resolver (λ l, l) first.1
       (Some (mkAddrPtr 0 Scenario.peerA)) false (Some frame)).2
    = [ProxyReply 2 c (Some (mkAddrPtr 0 Scenario.peerA))].
Proof. by vm_compute. Qed.

(** ** More of the handler *)
Section HandleMore.
Variable ResolveUDPAddr : string → option UDPAddr.
Variable range_order : list (Z * Tunnel) → list (Z * Tunnel).
Hypothesis range_order_sound : ∀ l x, x ∈ range_order l → x ∈ l.

Local Abbreviation HandleMessage := (HandleMessage ResolveUDPAddr range_order).
Local Abbreviation receive := (receive ResolveUDPAddr range_order).
Local Abbreviation receive_all := (receive_all ResolveUDPAddr range_order).

Lemma first_free_from_free (tunnels : gmap Z Tunnel) candidates i :
  first_free_from tunnels candidates = Some i → tunnels !! uint16 i = None.
Proof.
  induction candidates as [|j rest IH]; cbn; [done|].
  destruct (tunnels !! uint16 j) eqn:E; [done|]. by intros [= <-].
Qed.

(** X15: the handler never closes or overwrites a tunnel: whatever it is given,
    every tunnel of the table is still there afterwards; at most one is
    added, and only by a PROXY frame. *)
Theorem HandleMessage_keeps_tunnels (p : Proxy) (src_addr : option AddrPtr)
    (err : bool) (decoded : option P2PMessage) :
  let p' := (HandleMessage p src_addr err decoded).1 in
  Tunnels p ⊆ Tunnels p'
  ∧ (size (Tunnels p') ≤ S (size (Tunnels p)))%nat
  ∧ (Tunnels p' ≠ Tunnels p →
     err = false ∧ ∃ msg, decoded = Some msg ∧ Type_ msg = MT_PROXY).
Proof.
  unfold Forwarder.HandleMessage.
  destruct err; [cbn; by split; [|split; [lia|]]|].
  destruct decoded as [msg|]; [|cbn; by split; [|split; [lia|]]].
  case_bool_decide as Hty.
  - destruct (resolve_alloc _ _ _) as [targetIp heap1].
    case_bool_decide.
    + destruct (resolve_alloc _ _ _) as [peer2 heap2].
      destruct (first_free (Tunnels p)) as [i|] eqn:Hfree.
      * apply first_free_from_free in Hfree. cbn. split; [by apply insert_subseteq|].
        split; [by rewrite map_size_insert_None|]. eauto.
      * cbn. split; [done|]. split; [lia|done].
    + cbn. split; [done|]. split; [lia|done].
  - destruct (Tunnels p !! ProxyId msg) as [tunnel|]; [|cbn; by split; [|split; [lia|]]].
    repeat destruct (streq _ _); cbn; by split; [|split; [lia|]].
Qed.

(** X16: a tunnel forwards both ways.  After the PROXY frame of [a] that names
    [c] has opened a tunnel, a frame of another type that carries the id of
    the tunnel is passed on to [c] when it comes from the address [a], to
    [a] when it comes from the address [c], and dropped when it comes from
    anywhere else; the table stays as it is. *)
Theorem tunnel_forwards_both_ways (p : Proxy) (a c : UDPAddr) (data : string)
    (msg : P2PMessage) :
  heap_inv p → dense p → Z.of_nat (size (Tunnels p)) < 65535 →
  ResolveUDPAddr data = Some c →
  Type_ msg ≠ MT_PROXY →
  ProxyId msg = Z.of_nat (size (Tunnels p)) + 1 →
  let p1 := (receive p a (proxy_request data)).1 in
  (receive p1 a msg).2 = [Forwarded msg (Some (mkAddrPtr (S (S (next_loc p))) c))]
  ∧ (UDPAddr_String c ≠ UDPAddr_String a →
     (receive p1 c msg).2 = [Forwarded msg (Some (mkAddrPtr (next_loc p) a))])
  ∧ (∀ x, UDPAddr_String x ≠ UDPAddr_String a → UDPAddr_String x ≠ UDPAddr_String c →
       (receive p1 x msg).2 = [])
  ∧ ∀ x, Tunnels (receive p1 x msg).1 = Tunnels p1.
Proof.
  intros Hinv Hd Hn Hc Hty Hid p1. subst p1. unfold proxy_request.
  rewrite (receive_proxy_opens _ _ range_order_sound _ _ _ _ c) by done. cbn [fst].
  assert (Hrecv : ∀ x, receive
            (mkProxy (<[Z.of_nat (size (Tunnels p)) + 1 :=
                mkTunnel (Some (mkAddrPtr (next_loc p) a))
                         (Some (mkAddrPtr (S (S (next_loc p))) c)) ""]> (Tunnels p))
                     (S (S (S (next_loc p))))) x msg
          = (mkProxy (<[Z.of_nat (size (Tunnels p)) + 1 :=
                mkTunnel (Some (mkAddrPtr (next_loc p) a))
                         (Some (mkAddrPtr (S (S (next_loc p))) c)) ""]> (Tunnels p))
                     (S (S (S (S (next_loc p))))),
             if streq (UDPAddr_String a) (UDPAddr_String x)
             then [Forwarded msg (Some (mkAddrPtr (S (S (next_loc p))) c))]
             else if streq (UDPAddr_String c) (UDPAddr_String x)
             then [Forwarded msg (Some (mkAddrPtr (next_loc p) a))]
             else [])).
  { intros x. unfold Forwarder.receive, Forwarder.HandleMessage. cbn.
    rewrite bool_decide_eq_false_2 by done. rewrite Hid, lookup_insert_eq. cbn.
    by repeat destruct (streq _ _). }
  split; [|split; [|split]].
  - rewrite Hrecv. cbn. by rewrite streq_refl.
  - intros Hne. rewrite Hrecv. cbn. apply not_eq_sym, streq_false in Hne.
    by rewrite Hne, streq_refl.
  - intros x Hxa Hxc. rewrite Hrecv. cbn.
    apply not_eq_sym, streq_false in Hxa. apply not_eq_sym, streq_false in Hxc.
    by rewrite Hxa, Hxc.
  - intros x. by rewrite Hrecv.
Qed.

(** The invariants of the table through a run of PROXY frames. *)
Lemma receive_all_proxy_inv frames p :
  heap_inv p → dense p →
  Forall (proxy_frame ResolveUDPAddr) frames →
  Z.of_nat (size (Tunnels p)) + Z.of_nat (length frames) ≤ 65535 →
  let p' := (receive_all p frames).1 in
  heap_inv p' ∧ dense p' ∧ size (Tunnels p') = (size (Tunnels p) + length frames)%nat.
Proof.
  intros Hinv Hd Hfr. revert p Hinv Hd.
  induction Hfr as [|[src [ty pid data]] frames [Hty [a Ha]] _ IH]; intros p Hinv Hd Hn.
  - cbn. split; [done|]. split; [done|lia].
  - cbn in Hty, Ha. subst ty. cbn [length] in Hn. cbn [Forwarder.receive_all].
    assert (Hlt : Z.of_nat (size (Tunnels p)) < 65535) by lia.
    pose proof (receive_proxy_inv _ _ range_order_sound p src pid data a Hinv Hd Hlt Ha)
      as (Hinv' & Hd' & Hsize).
    destruct (receive p src _) as [p1 out1]. cbn [fst] in Hinv', Hd', Hsize.
    assert (Hn' : Z.of_nat (size (Tunnels p1)) + Z.of_nat (length frames) ≤ 65535).
    { rewrite Hsize. clear -Hn. lia. }
    specialize (IH p1 Hinv' Hd' Hn').
    destruct (Forwarder.receive_all _ _ p1 frames) as [p2 out2]. cbn [fst] in *.
    destruct IH as (? & ? & Hsz). split; [done|]. split; [done|].
    rewrite Hsz, Hsize. cbn [length]. lia.
Qed.

Lemma first_free_full p : full p → first_free (Tunnels p) = None.
Proof.
  intros Hfull. unfold first_free.
  induction (seqZ 1 _) as [|i l IH]; [done|]. cbn.
  destruct (Hfull (uint16 i)) as [t ->]; [|done].
  unfold uint16. apply Z.mod_pos_bound. lia.
Qed.

(** X17: the ids run out at the width of the key.  With the ids 1 to 65535 in
    use, the next tunnel is stored under key 0 while the reply names the id
    65536; after that every key is in use, and a PROXY frame is answered
    with -1 and opens nothing. *)
Theorem tunnel_ids_run_out (p : Proxy) (src src' : UDPAddr) (data : string)
    (a : UDPAddr) :
  heap_inv p → dense p → Z.of_nat (size (Tunnels p)) = 65535 →
  ResolveUDPAddr data = Some a →
  let '(p1, out1) := receive p src (proxy_request data) in
  let '(p2, out2) := receive p1 src' (proxy_request data) in
  omap reply_id out1 = [65536]
  ∧ Tunnels p1 = <[0 := mkTunnel (Some (mkAddrPtr (next_loc p) src))
                                 (Some (mkAddrPtr (S (S (next_loc p))) a)) ""]> (Tunnels p)
  ∧ omap reply_id out2 = [-1]
  ∧ Tunnels p2 = Tunnels p1.
Proof.
  intros Hinv Hd Hsize Ha.
  assert (Hinv0 : heap_inv (mkProxy (Tunnels p) (S (next_loc p)))).
  { intros k t Hk. destruct (Hinv k t Hk) as [H1 H2].
    split; intros x Hx; cbn; [specialize (H1 x Hx)|specialize (H2 x Hx)]; lia. }
  assert (Hfree : first_free (Tunnels p) = Some 65536).
  { unfold first_free. rewrite Hsize. rewrite seqZ_app by lia.
    change (seqZ (1 + 65535) 1) with [65536].
    apply first_free_from_skips.
    - apply Forall_forall. intros j Hj. apply elem_of_seqZ in Hj.
      rewrite uint16_small by lia. apply Hd. lia.
    - change (uint16 65536) with 0. apply eq_None_not_Some. rewrite (Hd 0). lia. }
  unfold Forwarder.receive at 1, Forwarder.HandleMessage, resolve_alloc, proxy_request.
  cbn [Type_ Data Tunnels next_loc]. rewrite bool_decide_eq_true_2 by done. rewrite Ha.
  rewrite (scan_finds_nothing range_order range_order_sound
             (mkProxy (Tunnels p) (S (next_loc p)))) by done.
  rewrite bool_decide_eq_true_2 by done. rewrite Hfree. change (uint16 65536) with 0.
  set (p1 := mkProxy _ _).
  assert (Hinv1 : heap_inv (mkProxy (Tunnels p1) (S (next_loc p1)))).
  { intros k t. subst p1. cbn. rewrite lookup_insert. case_decide as Hk.
    - intros [= <-]. split; intros x [= <-]; cbn; lia.
    - intros Hkt. destruct (Hinv k t Hkt) as [H1 H2].
      split; intros x Hx; cbn; [specialize (H1 x Hx)|specialize (H2 x Hx)]; lia. }
  assert (Hfull : full p1).
  { intros k Hk. subst p1. cbn. rewrite lookup_insert. case_decide; [eauto|].
    apply Hd. lia. }
  unfold Forwarder.receive, Forwarder.HandleMessage, resolve_alloc.
  cbn [Type_ Data Tunnels next_loc]. rewrite bool_decide_eq_true_2 by done. rewrite Ha.
  rewrite (scan_finds_nothing range_order range_order_sound
             (mkProxy (Tunnels p1) (S (next_loc p1)))) by done.
  rewrite bool_decide_eq_true_2 by done.
  rewrite (first_free_full p1 Hfull). by cbn.
Qed.

End HandleMore.

Lemma receive_all_proxy_ids_witness :
  let '(p', out) :=
    receive_all Scenario.resolver (λ l, l) Initialize
      [Scenario.tunnel_request; Scenario.tunnel_request;
       (Scenario.peerC, proxy_request "203.0.113.5:31000")] in
  omap reply_id out = [1; 2; 3] ∧ size (Tunnels p') = 3%nat.
Proof.
  apply (receive_all_proxy_ids Scenario.resolver (λ l, l) (λ l x H, H)
           [Scenario.tunnel_request; Scenario.tunnel_request;
            (Scenario.peerC, proxy_request "203.0.113.5:31000")] Initialize).
  - apply Initialize_inv.
  - apply Initialize_inv.
  - repeat constructor; by eexists.
  - by vm_compute.
Defined.

Lemma tunnel_forwards_both_ways_witness :
  let p1 := (receive Scenario.resolver (λ l, l) Initialize Scenario.peerA
               (proxy_request "198.51.100.7:40000")).1 in
  (receive Scenario.resolver (λ l, l) p1 Scenario.peerA Scenario.payload_frame).2
    = [Forwarded Scenario.payload_frame (Some (mkAddrPtr 2 Scenario.peerC))]
  ∧ (receive Scenario.resolver (λ l, l) p1 Scenario.peerC Scenario.payload_frame).2
    = [Forwarded Scenario.payload_frame (Some (mkAddrPtr 0 Scenario.peerA))]
  ∧ (receive Scenario.resolver (λ l, l) p1 Scenario.peerB Scenario.payload_frame).2 = [].
Proof.
  intros p1.
  destruct (tunnel_forwards_both_ways Scenario.resolver (λ l, l) (λ l x H, H)
              Initialize Scenario.peerA Scenario.peerC "198.51.100.7:40000" Scenario.payload_frame)
    as (H1 & H2 & H3 & _).
  - apply Initialize_inv.
  - apply Initialize_inv.
  - by vm_compute.
  - reflexivity.
  - by vm_compute.
  - by vm_compute.
  - split; [exact H1|]. split; [by apply H2|]. by apply H3.
Defined.

Lemma tunnel_ids_run_out_witness :
  let '(p1, out1) := receive Scenario.resolver (λ l, l) Scenario.crowded_forwarder
                       Scenario.peerA (proxy_request "198.51.100.7:40000") in
  let '(p2, out2) := receive Scenario.resolver (λ l, l) p1
                       Scenario.peerB (proxy_request "198.51.100.7:40000") in
  omap reply_id out1 = [65536]
  ∧ Tunnels p1 = <[0 := mkTunnel (Some (mkAddrPtr (next_loc Scenario.crowded_forwarder) Scenario.peerA))
                           (Some (mkAddrPtr (S (S (next_loc Scenario.crowded_forwarder))) Scenario.peerC))
                           ""]> (Tunnels Scenario.crowded_forwarder)
  ∧ omap reply_id out2 = [-1]
  ∧ Tunnels p2 = Tunnels p1.
Proof.
  assert (Hfr : Forall (proxy_frame Scenario.resolver)
                  (replicate (Z.to_nat 65535) Scenario.tunnel_request)).
  { apply Forall_replicate. split; [done|by eexists]. }
  assert (Hlen : Z.of_nat (size (Tunnels Initialize))
                 + Z.of_nat (length (replicate (Z.to_nat 65535) Scenario.tunnel_request)) ≤ 65535).
  { rewrite length_replicate. change (size (Tunnels Initialize)) with (size (∅ : gmap Z Tunnel)).
    rewrite map_size_empty. lia. }
  destruct (receive_all_proxy_inv Scenario.resolver (λ l, l) (λ l x H, H)
              (replicate (Z.to_nat 65535) Scenario.tunnel_request) Initialize
              (proj1 Initialize_inv) (proj2 Initialize_inv) Hfr Hlen) as (Hinv & Hd & Hsize).
  fold Scenario.crowded_forwarder in Hinv, Hd, Hsize.
  apply (tunnel_ids_run_out Scenario.resolver (λ l, l) (λ l x H, H)
           Scenario.crowded_forwarder Scenario.peerA Scenario.peerB "198.51.100.7:40000" Scenario.peerC).
  - exact Hinv.
  - exact Hd.
  - rewrite Hsize, length_replicate.
    change (size (Tunnels Initialize)) with (size (∅ : gmap Z Tunnel)).
    rewrite map_size_empty. lia.
  - reflexivity.
Defined.

End ForwarderTheory.

(** * The peer table *)
Module PeerTableTheory.
Import Peer PeerTable PeerTableSpec.

Lemma Update_updated l id peer : Update l id peer = Done (updated l id peer).
Proof.
  unfold Update, operate, updateTables, updated. cbn.
  by destruct (PeerLocalIP peer), (PeerHW peer).
Qed.

Lemma Update_keeps_consistent l id peer :
  consistent l → steady_update l id peer → consistent (updated l id peer).
Proof.
  intros [Hs1 Hs2 Hc1 Hc2 Hwf] (Hpeer & HoldI & HoldM & Hip & Hmac).
  destruct Hpeer as (Hw1 & Hw2 & Hw3).
  split; cbn.
  - intros k i. destruct (PeerLocalIP peer) as [x|] eqn:Ex.
    + destruct (streq x "") eqn:E; [apply streq_true in E; by subst|].
      rewrite lookup_insert. case_decide as Hk.
      * subst k. intros [= <-]. exists peer. by rewrite lookup_insert_eq.
      * intros Hki. destruct (Hs1 k i Hki) as (p & Hp & Hpk).
        destruct (decide (i = id)) as [->|Hi].
        { pose proof (HoldI p k Hp Hpk). congruence. }
        exists p. by rewrite lookup_insert_ne.
    + intros Hki. destruct (Hs1 k i Hki) as (p & Hp & Hpk).
      destruct (decide (i = id)) as [->|Hi].
      { pose proof (HoldI p k Hp Hpk). congruence. }
      exists p. by rewrite lookup_insert_ne.
  - intros k i. destruct (PeerHW peer) as [x|] eqn:Ex.
    + destruct (streq x "") eqn:E; [apply streq_true in E; by subst|].
      rewrite lookup_insert. case_decide as Hk.
      * subst k. intros [= <-]. exists peer. by rewrite lookup_insert_eq.
      * intros Hki. destruct (Hs2 k i Hki) as (p & Hp & Hpk).
        destruct (decide (i = id)) as [->|Hi].
        { pose proof (HoldM p k Hp Hpk). congruence. }
        exists p. by rewrite lookup_insert_ne.
    + intros Hki. destruct (Hs2 k i Hki) as (p & Hp & Hpk).
      destruct (decide (i = id)) as [->|Hi].
      { pose proof (HoldM p k Hp Hpk). congruence. }
      exists p. by rewrite lookup_insert_ne.
  - intros i p k. rewrite lookup_insert. case_decide as Hi.
    + subst i. intros [= <-] Hk. rewrite Hk.
      destruct (streq k "") eqn:E; [apply streq_true in E; by subst|].
      by rewrite lookup_insert_eq.
    + intros Hp Hk. pose proof (Hc1 i p k Hp Hk) as Hold_k.
      destruct (PeerLocalIP peer) as [x|] eqn:Ex; [|done].
      destruct (streq x ""); [done|].
      rewrite lookup_insert_ne; [done|]. intros ->.
      apply Hi. symmetry. by eapply Hip.
  - intros i p k. rewrite lookup_insert. case_decide as Hi.
    + subst i. intros [= <-] Hk. rewrite Hk.
      destruct (streq k "") eqn:E; [apply streq_true in E; by subst|].
      by rewrite lookup_insert_eq.
    + intros Hp Hk. pose proof (Hc2 i p k Hp Hk) as Hold_k.
      destruct (PeerHW peer) as [x|] eqn:Ex; [|done].
      destruct (streq x ""); [done|].
      rewrite lookup_insert_ne; [done|]. intros ->.
      apply Hi. symmetry. by eapply Hmac.
  - intros i p. rewrite lookup_insert. case_decide; [by intros [= <-]|]. apply Hwf.
Qed.

Lemma deleteTables_lookup l ip mac :
  tableIPID (deleteTables l ip mac)
    = (if streq ip "" then tableIPID l else delete ip (tableIPID l))
  ∧ tableMacID (deleteTables l ip mac)
    = (if streq mac "" then tableMacID l else delete mac (tableMacID l))
  ∧ peers (deleteTables l ip mac) = peers l.
Proof.
  unfold deleteTables. cbn. repeat split.
  - destruct (streq ip ""); [done|].
    destruct (tableIPID l !! ip) eqn:E; [done|]. by rewrite delete_id.
  - destruct (streq mac ""); [done|].
    destruct (tableMacID l !! mac) eqn:E; [done|]. by rewrite delete_id.
Qed.

Lemma Delete_absent l id : peers l !! id = None → Delete l id = Done l.
Proof. intros H. unfold Delete, operate. cbn. by rewrite H. Qed.

Lemma Delete_present l id p :
  peers l !! id = Some p →
  Delete l id =
  Done (mkPeerList
          (delete id (peers (deleteTables l (IP_String (PeerLocalIP p)) (HW_String (PeerHW p)))))
          (tableIPID (deleteTables l (IP_String (PeerLocalIP p)) (HW_String (PeerHW p))))
          (tableMacID (deleteTables l (IP_String (PeerLocalIP p)) (HW_String (PeerHW p))))).
Proof. intros H. unfold Delete, operate. cbn. by rewrite H. Qed.

Lemma Delete_keeps_consistent l id l' :
  consistent l → Delete l id = Done l' → consistent l'.
Proof.
  intros Hl.
  destruct (peers l !! id) as [p|] eqn:Hp;
    [rewrite (Delete_present l id p Hp)|rewrite Delete_absent by done; by intros [= <-]].
  destruct Hl as [Hs1 Hs2 Hc1 Hc2 Hwf].
  destruct (deleteTables_lookup l (IP_String (PeerLocalIP p)) (HW_String (PeerHW p)))
    as (Eip & Emac & Epeers).
  revert Eip Emac Epeers.
  generalize (deleteTables l (IP_String (PeerLocalIP p)) (HW_String (PeerHW p))).
  intros l1 Eip Emac Epeers [= <-].
  destruct (Hwf id p Hp) as (Hw1 & Hw2 & Hw3).
  assert (Hkip : streq (IP_String (PeerLocalIP p)) "" = false).
  { apply streq_false. destruct (PeerLocalIP p) as [x|]; cbn; [congruence|done]. }
  rewrite Hkip in Eip.
  split; cbn; rewrite ?Eip, ?Emac, ?Epeers.
  - intros k i. rewrite lookup_delete. case_decide as Hk; [done|]. intros Hki.
    destruct (Hs1 k i Hki) as (q & Hq & Hqk). exists q. split; [|done].
    rewrite lookup_delete_ne; [done|]. intros <-.
    apply Hk. assert (q = p) as -> by congruence. by rewrite Hqk.
  - intros k i Hki.
    assert (Hold : tableMacID l !! k = Some i ∧ (PeerHW p = Some k → False)).
    { destruct (streq _ _) eqn:E; [split; [done|]|].
      - intros Hpk. rewrite Hpk in E. cbn in E. apply streq_true in E. congruence.
      - rewrite lookup_delete in Hki. case_decide as Hk; [done|]. split; [done|].
        intros Hpk. apply Hk. by rewrite Hpk. }
    destruct Hold as [Hold Hne]. destruct (Hs2 k i Hold) as (q & Hq & Hqk).
    exists q. split; [|done]. rewrite lookup_delete_ne; [done|]. intros <-.
    apply Hne. congruence.
  - intros i q k. rewrite lookup_delete. case_decide as Hi; [done|].
    intros Hq Hqk. rewrite lookup_delete_ne; [by eapply Hc1|].
    intros Hk. destruct (PeerLocalIP p) as [x|] eqn:Ex; cbn in Hk.
    + subst x. apply Hi. pose proof (Hc1 id p k Hp Ex). pose proof (Hc1 i q k Hq Hqk).
      congruence.
    + subst k. by destruct (Hwf i q Hq) as (_ & ? & _).
  - intros i q k. rewrite lookup_delete. case_decide as Hi; [done|].
    intros Hq Hqk. destruct (streq _ _) eqn:E; [by eapply Hc2|].
    rewrite lookup_delete_ne; [by eapply Hc2|].
    intros Hk. destruct (PeerHW p) as [x|] eqn:Ex; cbn in Hk.
    + subst x. apply Hi. pose proof (Hc2 id p k Hp Ex). pose proof (Hc2 i q k Hq Hqk).
      congruence.
    + subst k. by destruct (Hwf i q Hq) as (_ & _ & ?).
  - intros i q. rewrite lookup_delete. case_decide; [done|]. apply Hwf.
Qed.

Lemma Init_consistent : consistent Init.
Proof. split; cbn; intros *; by rewrite lookup_empty. Qed.

(** The first upsert into an empty table. *)
Lemma first_upsert_consistent id peer :
  wf_peer peer → consistent (updated Init id peer).
Proof.
  intros Hwf. apply Update_keeps_consistent; [apply Init_consistent|].
  split; [done|]. cbn. split; [|split; [|split]].
  - intros old ip H. by rewrite lookup_empty in H.
  - intros old mac H. by rewrite lookup_empty in H.
  - intros ip id' _ H. by rewrite lookup_empty in H.
  - intros mac id' _ H. by rewrite lookup_empty in H.
Qed.

Lemma apply_op_keeps_consistent l op :
  consistent l → steady l op →
  ∃ l', apply_op l op = Done l' ∧ consistent l'.
Proof.
  intros Hl Hop. destruct op as [id peer|id]; cbn.
  - rewrite Update_updated. eexists. split; [done|]. by apply Update_keeps_consistent.
  - destruct (Delete l id) as [l'| |] eqn:E.
    + exists l'. split; [done|]. by eapply Delete_keeps_consistent.
    + unfold Delete, operate in E. cbn in E. by destruct (peers l !! id).
    + unfold Delete, operate in E. cbn in E. by destruct (peers l !! id).
Qed.

Lemma apply_ops_keeps_consistent ops l :
  consistent l → steady_ops l ops →
  ∃ l', apply_ops l ops = Done l' ∧ consistent l'.
Proof.
  revert l. induction ops as [|op ops IH]; intros l Hl Hops; cbn [apply_ops].
  - by exists l.
  - destruct Hops as [Hop Hrest].
    destruct (apply_op_keeps_consistent l op Hl Hop) as (l1 & E & Hl1).
    rewrite E. cbn. apply IH; [done|]. by apply Hrest.
Qed.

(** On a consistent table, an upsert that keeps the tables consistent is a
    steady one. *)
Lemma Update_consistent_is_steady l id peer :
  consistent l → consistent (updated l id peer) → steady_update l id peer.
Proof.
  intros [Hs1 Hs2 Hc1 Hc2 Hwf] [Hs1' Hs2' Hc1' Hc2' Hwf'].
  assert (Hpeer : peers (updated l id peer) !! id = Some peer) by apply lookup_insert_eq.
  assert (Hw : wf_peer peer) by by eapply Hwf'.
  assert (Hother : ∀ i q, i ≠ id → peers l !! i = Some q →
                          peers (updated l id peer) !! i = Some q).
  { intros i q Hi Hq. cbn. by rewrite lookup_insert_ne. }
  assert (HkeptI : ∀ k, tableIPID l !! k = Some id →
                        tableIPID (updated l id peer) !! k = Some id).
  { intros k Hk. cbn. destruct (PeerLocalIP peer) as [x|]; [|done].
    destruct (streq x ""); [done|]. rewrite lookup_insert. by case_decide. }
  assert (HkeptM : ∀ k, tableMacID l !! k = Some id →
                        tableMacID (updated l id peer) !! k = Some id).
  { intros k Hk. cbn. destruct (PeerHW peer) as [x|]; [|done].
    destruct (streq x ""); [done|]. rewrite lookup_insert. by case_decide. }
  split; [done|]. split; [|split; [|split]].
  - intros old ip Hold Hip.
    destruct (Hs1' ip id (HkeptI ip (Hc1 id old ip Hold Hip))) as (p & Hp & Hpip).
    congruence.
  - intros old mac Hold Hmac.
    destruct (Hs2' mac id (HkeptM mac (Hc2 id old mac Hold Hmac))) as (p & Hp & Hpm).
    congruence.
  - intros ip id' Hip Hid'. destruct (decide (id' = id)) as [|Hne]; [done|].
    destruct (Hs1 ip id' Hid') as (q & Hq & Hqip).
    pose proof (Hc1' id' q ip (Hother id' q Hne Hq) Hqip) as Hnow.
    pose proof (Hc1' id peer ip Hpeer Hip). congruence.
  - intros mac id' Hmac Hid'. destruct (decide (id' = id)) as [|Hne]; [done|].
    destruct (Hs2 mac id' Hid') as (q & Hq & Hqm).
    pose proof (Hc2' id' q mac (Hother id' q Hne Hq) Hqm) as Hnow.
    pose proof (Hc2' id peer mac Hpeer Hmac). congruence.
Qed.

(** C4, as the code has it: [Update] installs or replaces the primary entry
    and maps the peer's IP and MAC, where they are not empty, to the id; every
    other entry of the two tables stays as it is, also the entry of an IP or
    a MAC that the peer under this id had before.  On a consistent table the
    tables stay consistent with the primary map across exactly the upserts
    that leave no mapping behind and take none away: the IP and the MAC that
    the listed peer has are those of the new peer, and these are mapped to
    no other id.  [Delete] never fails and keeps the tables consistent, and
    so does every sequence of removals and of such upserts. *)
Theorem Update_installs_and_adds (l : PeerList) (id : string) (peer : NetworkPeer) :
  (∃ l', Update l id peer = Done l'
    ∧ peers l' = <[id := peer]> (peers l)
    ∧ (∀ ip, PeerLocalIP peer = Some ip → ip ≠ "" → tableIPID l' !! ip = Some id)
    ∧ (∀ mac, PeerHW peer = Some mac → mac ≠ "" → tableMacID l' !! mac = Some id)
    ∧ (∀ k, PeerLocalIP peer ≠ Some k → tableIPID l' !! k = tableIPID l !! k)
    ∧ (∀ k, PeerHW peer ≠ Some k → tableMacID l' !! k = tableMacID l !! k)
    ∧ (consistent l → (consistent l' ↔ steady_update l id peer)))
  ∧ (∃ l', Delete l id = Done l' ∧ (consistent l → consistent l'))
  ∧ (∀ ops, consistent l → steady_ops l ops →
       ∃ l', apply_ops l ops = Done l' ∧ consistent l').
Proof.
  split; [|split].
  - exists (updated l id peer). split; [apply Update_updated|].
    split; [done|]. unfold updated; cbn. split; [|split; [|split; [|split]]].
    + intros ip -> Hip. apply streq_false in Hip. rewrite Hip. apply lookup_insert_eq.
    + intros mac -> Hmac. apply streq_false in Hmac. rewrite Hmac. apply lookup_insert_eq.
    + intros k Hk. destruct (PeerLocalIP peer) as [x|]; [|done].
      destruct (streq x ""); [done|]. apply lookup_insert_ne. congruence.
    + intros k Hk. destruct (PeerHW peer) as [x|]; [|done].
      destruct (streq x ""); [done|]. apply lookup_insert_ne. congruence.
    + intros Hl. split; [by apply Update_consistent_is_steady|].
      by apply Update_keeps_consistent.
  - destruct (Delete l id) as [l'| |] eqn:E.
    + exists l'. split; [done|]. intros Hl. by eapply Delete_keeps_consistent.
    + unfold Delete, operate in E. cbn in E. by destruct (peers l !! id).
    + unfold Delete, operate in E. cbn in E. by destruct (peers l !! id).
  - intros ops. apply apply_ops_keeps_consistent.
Qed.

(** A listed peer is given its first IP and MAC, and is removed again. *)
Lemma Update_installs_and_adds_witness :
  let l := updated Init "peer-1" (Scenario.bare_peer "peer-1") in
  let peer := Scenario.overlay_peer "peer-1" "10.10.0.2" "06:00:00:00:00:01" in
  ∃ l', Update l "peer-1" peer = Done l'
    ∧ GetPeer l "peer-1" = Some (Scenario.bare_peer "peer-1")
    ∧ GetPeer l' "peer-1" = Some peer
    ∧ GetID l' "10.10.0.2" = Some "peer-1"
    ∧ tableMacID l' !! "06:00:00:00:00:01" = Some "peer-1"
    ∧ consistent l'
    ∧ ∃ l'', Delete l' "peer-1" = Done l'' ∧ consistent l''.
Proof.
  intros l peer.
  assert (Hl : consistent l) by by apply first_upsert_consistent.
  destruct (Update_installs_and_adds l "peer-1" peer)
    as ((l' & HU & Hp & Hip & Hmac & _ & _ & Hc) & _ & _).
  assert (Hl' : consistent l').
  { apply Hc; [exact Hl|]. split; [by repeat split|]. split; [|split; [|split]].
    - intros old ip Hold Hoip. cbn in Hold. rewrite lookup_insert_eq in Hold.
      injection Hold as <-. discriminate Hoip.
    - intros old mac Hold Homac. cbn in Hold. rewrite lookup_insert_eq in Hold.
      injection Hold as <-. discriminate Homac.
    - intros ip id' _ H. cbn in H. by rewrite lookup_empty in H.
    - intros mac id' _ H. cbn in H. by rewrite lookup_empty in H. }
  exists l'. split; [exact HU|]. split; [apply lookup_insert_eq|]. split.
  { unfold GetPeer. rewrite Hp. apply lookup_insert_eq. }
  split; [by apply Hip|]. split; [by apply Hmac|]. split; [exact Hl'|].
  destruct (Update_installs_and_adds l' "peer-1" peer) as (_ & (l'' & HD & Hc') & _).
  exists l''. split; [exact HD|]. by apply Hc'.
Defined.

(** C4, as the claim states it, fails: an upsert under the same id with a new
    IP leaves the mapping of the old IP in the table, and the mapping outlives
    the removal of the peer. *)
Lemma upsert_leaves_stale_mapping :
  let ops := [OpUpdate "peer-1" (Scenario.overlay_peer "peer-1" "10.10.0.2" "06:00:00:00:00:01");
              OpUpdate "peer-1" (Scenario.overlay_peer "peer-1" "10.10.0.3" "06:00:00:00:00:01")] in
  (λ l, (GetID l "10.10.0.2", PeerLocalIP <$> GetPeer l "peer-1"))
    <$> apply_ops Init ops
  = Done (Some "peer-1", Some (Some "10.10.0.3"))
  ∧ (λ l, (GetID l "10.10.0.2", GetPeer l "peer-1"))
      <$> apply_ops Init (ops ++ [OpDelete "peer-1"])
    = Done (Some "peer-1", None).
Proof. by vm_compute. Qed.

(** ** Removal and lookup *)

(** X18: on a table whose indexes agree with the primary map, [Delete] of a
    listed peer takes the peer out together with the mappings of its IP and
    its MAC, so that nothing leads to its id any more; every other peer and
    every other mapping stays, and the indexes still agree with the primary
    map. *)
Theorem Delete_removes_peer_and_mappings (l : PeerList) (id : string)
    (peer : NetworkPeer) :
  consistent l → peers l !! id = Some peer →
  ∃ l', Delete l id = Done l'
    ∧ peers l' = delete id (peers l)
    ∧ (∀ ip, tableIPID l' !! ip =
             if decide (PeerLocalIP peer = Some ip) then None else tableIPID l !! ip)
    ∧ (∀ mac, tableMacID l' !! mac =
              if decide (PeerHW peer = Some mac) then None else tableMacID l !! mac)
    ∧ (∀ ip, GetID l' ip ≠ Some id)
    ∧ (∀ mac, tableMacID l' !! mac ≠ Some id)
    ∧ consistent l'.
Proof.
  intros Hl Hp.
  destruct (Delete l id) as [l'| |] eqn:E;
    [|by rewrite (Delete_present l id peer Hp) in E..].
  pose proof (Delete_keeps_consistent l id l' Hl E) as Hl'.
  exists l'. split; [done|].
  rewrite (Delete_present l id peer Hp) in E.
  destruct (deleteTables_lookup l (IP_String (PeerLocalIP peer)) (HW_String (PeerHW peer)))
    as (Eip & Emac & Epeers).
  revert E Eip Emac Epeers.
  generalize (deleteTables l (IP_String (PeerLocalIP peer)) (HW_String (PeerHW peer))).
  intros l1 E Eip Emac Epeers. injection E as <-.
  destruct Hl as [Hs1 Hs2 Hc1 Hc2 Hwf]. destruct (Hwf id peer Hp) as (Hw1 & Hw2 & Hw3).
  cbn [peers tableIPID tableMacID].
  assert (Hip : ∀ ip, tableIPID l1 !! ip
                = if decide (PeerLocalIP peer = Some ip) then None else tableIPID l !! ip).
  { intros ip. rewrite Eip.
    assert (streq (IP_String (PeerLocalIP peer)) "" = false) as ->.
    { apply streq_false. destruct (PeerLocalIP peer); cbn; congruence. }
    rewrite lookup_delete.
    destruct (decide (PeerLocalIP peer = Some ip)) as [Hi|Hi].
    - rewrite Hi. cbn. by rewrite decide_True.
    - case_decide as Hk; [|done]. subst ip.
      destruct (PeerLocalIP peer) as [x|] eqn:Ex; [done|]. cbn.
      destruct (tableIPID l !! "<nil>") as [i|] eqn:Ei; [|done].
      destruct (Hs1 _ _ Ei) as (q & Hq & Hqk). by destruct (Hwf i q Hq) as (_ & ? & _). }
  assert (Hmac : ∀ mac, tableMacID l1 !! mac
                 = if decide (PeerHW peer = Some mac) then None else tableMacID l !! mac).
  { intros mac. rewrite Emac.
    destruct (decide (PeerHW peer = Some mac)) as [Hi|Hi].
    - rewrite Hi. cbn.
      assert (streq mac "" = false) as -> by (apply streq_false; congruence).
      by rewrite lookup_delete_eq.
    - destruct (PeerHW peer) as [x|]; cbn; [|done].
      destruct (streq x ""); [done|]. rewrite lookup_delete_ne; [done|]. congruence. }
  split; [by rewrite Epeers|]. split; [done|]. split; [done|].
  split; [|split; [|done]].
  - intros ip Hi. unfold GetID in Hi.
    destruct (ip_sound _ Hl' ip id Hi) as (q & Hq & _). cbn [peers] in Hq.
    by rewrite lookup_delete_eq in Hq.
  - intros mac Hi.
    destruct (mac_sound _ Hl' mac id Hi) as (q & Hq & _). cbn [peers] in Hq.
    by rewrite lookup_delete_eq in Hq.
Qed.

(** X19: [Delete] undoes [Update].  When neither the id nor the IP and the MAC
    of the peer are in the table, an upsert followed by the removal of the
    same id gives back the table as it was. *)
Theorem Delete_undoes_Update (l : PeerList) (id : string) (peer : NetworkPeer) :
  peers l !! id = None →
  tableIPID l !! IP_String (PeerLocalIP peer) = None →
  (∀ mac, PeerHW peer = Some mac → tableMacID l !! mac = None) →
  Update l id peer ≫= (λ l1, Delete l1 id) = Done l.
Proof.
  intros Hid Hip Hmac. rewrite Update_updated. cbn [mbind result_bind].
  rewrite (Delete_present _ id peer) by apply lookup_insert_eq.
  destruct (deleteTables_lookup (updated l id peer) (IP_String (PeerLocalIP peer))
              (HW_String (PeerHW peer))) as (-> & -> & ->).
  destruct l as [ps ips macs]. unfold updated. cbn [peers tableIPID tableMacID] in *.
  f_equal. f_equal.
  - by rewrite delete_insert_eq, delete_id.
  - destruct (PeerLocalIP peer) as [x|]; cbn in *.
    + destruct (streq x ""); [done|]. by rewrite delete_insert_eq, delete_id.
    + by rewrite delete_id.
  - destruct (PeerHW peer) as [x|]; cbn; [|done].
    destruct (streq x ""); [done|]. rewrite delete_insert_eq, delete_id; [done|]. by apply Hmac.
Qed.

(** X20: on a table whose indexes agree with the primary map,
    [GetEndpointAndProxy] never panics: asked for the MAC of a listed peer it
    returns the endpoint and the proxy id of that peer, and asked for a MAC
    that no listed peer has it reports that the MAC was not found. *)
Theorem GetEndpointAndProxy_of_consistent (l : PeerList) (mac : string) :
  consistent l →
  (∀ id peer, peers l !! id = Some peer → PeerHW peer = Some mac →
     GetEndpointAndProxy l mac = Done (Some (Endpoint peer, ProxyID peer)))
  ∧ ((∀ id peer, peers l !! id = Some peer → PeerHW peer ≠ Some mac) →
     GetEndpointAndProxy l mac = Done None)
  ∧ GetEndpointAndProxy l mac ≠ Panicked.
Proof.
  intros [Hs1 Hs2 Hc1 Hc2 Hwf]. unfold GetEndpointAndProxy. split; [|split].
  - intros id peer Hp Hm. by rewrite (Hc2 id peer mac Hp Hm), Hp.
  - intros Hno. destruct (tableMacID l !! mac) as [id|] eqn:E; [|done].
    destruct (Hs2 mac id E) as (q & Hq & Hqm). by destruct (Hno id q Hq).
  - destruct (tableMacID l !! mac) as [id|] eqn:E; [|done].
    destruct (Hs2 mac id E) as (q & -> & _). done.
Qed.

(** X21: a MAC that went stale makes [GetEndpointAndProxy] panic.  When a peer
    is upserted with one MAC, upserted again under the same id with another
    MAC (or none) and then deleted, the first MAC still leads to the id, the
    primary map has no peer for it, and the lookup reads a field of a nil
    peer. *)
Theorem GetEndpointAndProxy_panics_on_stale_mac (l : PeerList) (id : string)
    (p1 p2 : NetworkPeer) (m1 : string) :
  PeerHW p1 = Some m1 → m1 ≠ "" → PeerHW p2 ≠ Some m1 →
  apply_ops l [OpUpdate id p1; OpUpdate id p2; OpDelete id]
    ≫= (λ l', GetEndpointAndProxy l' m1) = Panicked.
Proof.
  intros H1 Hne H2. cbn [apply_ops apply_op]. rewrite Update_updated.
  cbn [mbind result_bind apply_ops apply_op]. rewrite Update_updated.
  cbn [mbind result_bind apply_ops apply_op].
  rewrite (Delete_present _ id p2) by apply lookup_insert_eq. cbn [mbind result_bind].
  destruct (deleteTables_lookup (updated (updated l id p1) id p2)
              (IP_String (PeerLocalIP p2)) (HW_String (PeerHW p2))) as (Eip & Emac & Epeers).
  unfold GetEndpointAndProxy. cbn [peers tableIPID tableMacID]. rewrite Emac, Epeers.
  assert (Hm1 : tableMacID (updated (updated l id p1) id p2) !! m1 = Some id).
  { unfold updated. cbn [tableMacID]. rewrite H1.
    apply streq_false in Hne. rewrite Hne.
    destruct (PeerHW p2) as [x|]; [|apply lookup_insert_eq].
    destruct (streq x ""); [apply lookup_insert_eq|].
    rewrite lookup_insert_ne by congruence. apply lookup_insert_eq. }
  assert (Hlook : (if streq (HW_String (PeerHW p2)) ""
                   then tableMacID (updated (updated l id p1) id p2)
                   else delete (HW_String (PeerHW p2))
                          (tableMacID (updated (updated l id p1) id p2))) !! m1 = Some id).
  { destruct (streq (HW_String (PeerHW p2)) "") eqn:E; [done|].
    rewrite lookup_delete_ne; [done|]. destruct (PeerHW p2); cbn; congruence. }
  rewrite Hlook. by rewrite lookup_delete_eq.
Qed.

Lemma Delete_removes_peer_and_mappings_witness :
  let peer := Scenario.overlay_peer "peer-1" "10.10.0.2" "06:00:00:00:00:01" in
  (λ l, (GetPeer l "peer-1", GetID l "10.10.0.2", tableMacID l !! "06:00:00:00:00:01"))
    <$> apply_ops Init [OpUpdate "peer-1" peer; OpDelete "peer-1"]
  = Done (None, None, None).
Proof.
  intros peer. cbn [apply_ops]. cbn [apply_op]. rewrite Update_updated.
  cbn [mbind result_bind].
  assert (Hc : consistent (updated Init "peer-1" peer))
    by by apply first_upsert_consistent.
  destruct (Delete_removes_peer_and_mappings (updated Init "peer-1" peer) "peer-1" peer Hc)
    as (l' & -> & Hp & Hip & Hmac & _).
  { apply lookup_insert_eq. }
  cbn. unfold GetPeer, GetID. rewrite Hp, Hip, Hmac, lookup_delete_eq. reflexivity.
Defined.

Lemma Delete_undoes_Update_witness :
  (Update Init "peer-1" (Scenario.overlay_peer "peer-1" "10.10.0.2" "06:00:00:00:00:01")
     ≫= λ l1, Delete l1 "peer-1") = Done Init.
Proof. by apply Delete_undoes_Update. Defined.

(** A table with one peer: the lookup of its MAC, and of a MAC that nobody
    has. *)
Lemma GetEndpointAndProxy_of_consistent_witness :
  let peer := Scenario.overlay_peer "peer-1" "10.10.0.2" "06:00:00:00:00:01" in
  let l := updated Init "peer-1" peer in
  GetEndpointAndProxy l "06:00:00:00:00:01" = Done (Some (Endpoint peer, ProxyID peer))
  ∧ GetEndpointAndProxy l "06:00:00:00:00:02" = Done None.
Proof.
  intros peer l.
  assert (Hl : consistent l) by by apply first_upsert_consistent.
  split.
  - destruct (GetEndpointAndProxy_of_consistent l "06:00:00:00:00:01" Hl) as (H & _ & _).
    apply (H "peer-1" peer); [apply lookup_insert_eq|reflexivity].
  - destruct (GetEndpointAndProxy_of_consistent l "06:00:00:00:00:02" Hl) as (_ & H & _).
    apply H. intros id p Hp. cbn in Hp. apply lookup_insert_Some in Hp as [[_ <-]|[_ Hp]].
    + discriminate.
    + by rewrite lookup_empty in Hp.
Defined.

Lemma GetEndpointAndProxy_panics_on_stale_mac_witness :
  apply_ops Init
    [OpUpdate "peer-1" (Scenario.overlay_peer "peer-1" "10.10.0.2" "06:00:00:00:00:01");
     OpUpdate "peer-1" (Scenario.overlay_peer "peer-1" "10.10.0.2" "06:00:00:00:00:02");
     OpDelete "peer-1"]
    ≫= (λ l', GetEndpointAndProxy l' "06:00:00:00:00:01") = Panicked.
Proof. by apply GetEndpointAndProxy_panics_on_stale_mac. Defined.

End PeerTableTheory.

(** * The per-peer driver *)
Module PeerTheory.
Import Peer PeerSpec.

(** ** Routing *)
Section Routing.
Variable isPrivateIP : string → option bool.

Local Abbreviation lan := (lan isPrivateIP).
Local Abbreviation wan := (wan isPrivateIP).
Local Abbreviation ranked := (ranked isPrivateIP).

Lemma existsb_is_proxy ps ep :
  existsb (λ proxy, streq (UDPAddr_String proxy) (UDPAddr_String (epAddr ep))) ps = true
  ↔ is_proxy ps ep.
Proof.
  unfold is_proxy. induction ps as [|p ps IH]; cbn.
  - split; [done|by intros ?%elem_of_nil].
  - rewrite orb_true_iff, IH, streq_true, elem_of_cons. naive_solver.
Qed.

(** How a turn is sorted. *)
Lemma buckets_of_turn ps (turn : Z * PeerEndpoint) :
  (¬ recent turn ∧ ¬ lan ps turn ∧ ¬ wan ps turn ∧ ¬ forwarder ps turn)
  ∨ (recent turn ∧ is_proxy ps turn.2
     ∧ ¬ lan ps turn ∧ ¬ wan ps turn ∧ forwarder ps turn)
  ∨ (recent turn ∧ ¬ is_proxy ps turn.2
     ∧ isPrivateIP (IP (epAddr turn.2)) = Some true
     ∧ lan ps turn ∧ ¬ wan ps turn ∧ ¬ forwarder ps turn)
  ∨ (recent turn ∧ ¬ is_proxy ps turn.2
     ∧ isPrivateIP (IP (epAddr turn.2)) = Some false
     ∧ ¬ lan ps turn ∧ wan ps turn ∧ ¬ forwarder ps turn)
  ∨ (recent turn ∧ ¬ is_proxy ps turn.2
     ∧ isPrivateIP (IP (epAddr turn.2)) = None
     ∧ ¬ lan ps turn ∧ ¬ wan ps turn ∧ ¬ forwarder ps turn).
Proof.
  unfold PeerSpec.lan, PeerSpec.wan, PeerSpec.forwarder.
  destruct (decide (recent turn)); [|naive_solver].
  destruct (decide (is_proxy ps turn.2)); [naive_solver|].
  destruct (isPrivateIP (IP (epAddr turn.2))) as [[|]|]; naive_solver.
Qed.

Lemma routing_scan ps ts locals internet proxies :
  foldl (routing_step isPrivateIP ps) (locals, internet, proxies) ts =
  (locals ++ (snd <$> filter (lan ps) ts), internet ++ (snd <$> filter (wan ps) ts),
   proxies ++ (snd <$> filter (forwarder ps) ts)).
Proof.
  revert locals internet proxies.
  induction ts as [|[now ep] ts IH]; intros locals internet proxies; cbn [foldl].
  - by rewrite !filter_nil, !app_nil_r.
  - rewrite !filter_cons. unfold routing_step at 2.
    destruct (buckets_of_turn ps (now, ep))
      as [(Hr & H1 & H2 & H3)|[(Hr & Hp & H1 & H2 & H3)|[(Hr & Hp & Hv & H1 & H2 & H3)
         |[(Hr & Hp & Hv & H1 & H2 & H3)|(Hr & Hp & Hv & H1 & H2 & H3)]]]];
      unfold recent in Hr; cbn [fst snd] in *;
      rewrite ?(decide_True (P := lan ps (now, ep))) by done;
      rewrite ?(decide_False (P := lan ps (now, ep))) by done;
      rewrite ?(decide_True (P := wan ps (now, ep))) by done;
      rewrite ?(decide_False (P := wan ps (now, ep))) by done;
      rewrite ?(decide_True (P := forwarder ps (now, ep))) by done;
      rewrite ?(decide_False (P := forwarder ps (now, ep))) by done.
    + rewrite bool_decide_eq_true_2 by lia. apply IH.
    + rewrite bool_decide_eq_false_2 by lia.
      rewrite (proj2 (existsb_is_proxy ps ep) Hp). rewrite IH.
      cbn [fmap list_fmap snd]. by rewrite <- app_assoc.
    + rewrite bool_decide_eq_false_2 by lia.
      destruct (existsb _ ps) eqn:E; [by apply existsb_is_proxy in E|].
      cbn [snd] in Hv. rewrite Hv, IH. cbn [fmap list_fmap snd]. by rewrite <- app_assoc.
    + rewrite bool_decide_eq_false_2 by lia.
      destruct (existsb _ ps) eqn:E; [by apply existsb_is_proxy in E|].
      cbn [snd] in Hv. rewrite Hv, IH. cbn [fmap list_fmap snd]. by rewrite <- app_assoc.
    + rewrite bool_decide_eq_false_2 by lia.
      destruct (existsb _ ps) eqn:E; [by apply existsb_is_proxy in E|].
      cbn [snd] in Hv. rewrite Hv. apply IH.
Qed.

Lemma stateRouting_spec clock np :
  stateRouting isPrivateIP clock np =
  match ranked (Proxies np) (turns clock np) with
  | first :: _ =>
      SetState (with_Endpoint (with_Endpoints np (ranked (Proxies np) (turns clock np)))
                              (Some (epAddr first)))
               PeerStateConnected
  | [] => SetState (with_Endpoints np (ranked (Proxies np) (turns clock np)))
                   PeerStateDisconnect
  end.
Proof.
  unfold stateRouting. fold (turns clock np). rewrite routing_scan. cbn [app].
  rewrite <- !fmap_app. fold (ranked (Proxies np) (turns clock np)).
  cbn [Endpoints with_Endpoints]. done.
Qed.

(** Where [isPrivateIP] fails on no endpoint, the three buckets are a
    partition of the recent endpoints. *)
Lemma ranked_partition ps (ts : list (Z * PeerEndpoint)) :
  (∀ turn, turn ∈ ts → is_Some (isPrivateIP (IP (epAddr turn.2)))) →
  ranked ps ts ≡ₚ snd <$> filter recent ts.
Proof.
  unfold PeerSpec.ranked. intros Hall. apply fmap_Permutation.
  induction ts as [|turn ts IH]; [done|].
  rewrite !filter_cons.
  assert (Hrest : ∀ t, t ∈ ts → is_Some (isPrivateIP (IP (epAddr t.2))))
    by (intros t Ht; apply Hall; by right).
  specialize (IH Hrest).
  destruct (Hall turn) as [b Hb]; [by left|].
  destruct (buckets_of_turn ps turn)
    as [(Hr & H1 & H2 & H3)|[(Hr & Hp & H1 & H2 & H3)|[(Hr & Hp & Hv & H1 & H2 & H3)
       |[(Hr & Hp & Hv & H1 & H2 & H3)|(Hr & Hp & Hv & H1 & H2 & H3)]]]];
    rewrite ?(decide_True (P := recent turn)) by done;
    rewrite ?(decide_False (P := recent turn)) by done;
    rewrite ?(decide_True (P := lan ps turn)) by done;
    rewrite ?(decide_False (P := lan ps turn)) by done;
    rewrite ?(decide_True (P := wan ps turn)) by done;
    rewrite ?(decide_False (P := wan ps turn)) by done;
    rewrite ?(decide_True (P := forwarder ps turn)) by done;
    rewrite ?(decide_False (P := forwarder ps turn)) by done.
  - done.
  - rewrite <- IH. by rewrite <- !Permutation_middle.
  - by rewrite <- IH.
  - rewrite <- IH. cbn [app]. by rewrite <- !Permutation_middle.
  - congruence.
Qed.

(** C6: [stateRouting] keeps the endpoints that were touched within the last
    10 ms, in three buckets: LAN (private, no proxy) before WAN (public, no
    proxy) before forwarders (an endpoint on which [isPrivateIP] fails is
    dropped; where it fails on none, the buckets are a partition of the
    recent endpoints).  With an endpoint left, the first becomes the chosen
    endpoint and the peer is Connected, otherwise it is Disconnect.  With a
    recent private endpoint that is no proxy, the chosen endpoint is
    private. *)
Theorem stateRouting_ranks_endpoints (clock : nat → Z) (np : NetworkPeer) :
  let np' := (stateRouting isPrivateIP clock np).1 in
  Endpoints np' = ranked (Proxies np) (turns clock np)
  ∧ (∀ ep, ep ∈ Endpoints np' →
       ∃ i, Endpoints np !! i = Some ep ∧ recent (clock i, ep))
  ∧ ((∀ ep, ep ∈ Endpoints np → is_Some (isPrivateIP (IP (epAddr ep)))) →
     Endpoints np' ≡ₚ snd <$> filter recent (turns clock np))
  ∧ match Endpoints np' with
    | first :: _ =>
        Endpoint np' = Some (epAddr first) ∧ State np' = PeerStateConnected
    | [] => State np' = PeerStateDisconnect
    end
  ∧ (∀ i ep, Endpoints np !! i = Some ep → lan (Proxies np) (clock i, ep) →
       ∃ a, Endpoint np' = Some a ∧ isPrivateIP (IP a) = Some true
            ∧ State np' = PeerStateConnected).
Proof.
  intros np'.
  assert (Heps : Endpoints np' = ranked (Proxies np) (turns clock np)).
  { subst np'. rewrite stateRouting_spec. by destruct (ranked _ _). }
  assert (Hturn : ∀ turn, turn ∈ turns clock np →
            ∃ i, Endpoints np !! i = Some turn.2 ∧ turn = (clock i, turn.2)).
  { intros turn (i & ep & -> & Hi)%elem_of_lookup_imap. eauto. }
  split; [done|]. split; [|split; [|split]].
  - rewrite Heps. intros ep (turn & -> & Hin)%list_elem_of_fmap.
    assert (Hrt : recent turn ∧ turn ∈ turns clock np).
    { revert Hin. rewrite !elem_of_app, !list_elem_of_filter.
      unfold PeerSpec.lan, PeerSpec.wan, PeerSpec.forwarder. naive_solver. }
    destruct Hrt as [Hr Ht]. destruct (Hturn turn Ht) as (i & Hi & Heq).
    exists i. split; [done|]. by rewrite <- Heq.
  - intros Hall. rewrite Heps. apply ranked_partition.
    intros turn (i & Hi & _)%Hturn. apply Hall. by eapply list_elem_of_lookup_2.
  - subst np'. rewrite stateRouting_spec. by destruct (ranked _ _).
  - intros i ep Hi Hlan.
    assert (Hin : (clock i, ep) ∈ filter (lan (Proxies np)) (turns clock np)).
    { apply list_elem_of_filter. split; [done|].
      by apply (elem_of_lookup_imap_2 (λ i ep, (clock i, ep))). }
    destruct (filter (lan (Proxies np)) (turns clock np)) as [|first rest] eqn:Hf;
      [by apply elem_of_nil in Hin|].
    assert (Hfirst : lan (Proxies np) first).
    { assert (first ∈ filter (lan (Proxies np)) (turns clock np)) as H
        by (rewrite Hf; apply list_elem_of_here).
      by apply list_elem_of_filter in H as [? _]. }
    exists (epAddr first.2). subst np'. rewrite stateRouting_spec.
    unfold PeerSpec.ranked. rewrite Hf. cbn. split; [done|]. split; [|done]. apply Hfirst.
Qed.

End Routing.

(** The peer of the scenario: the private endpoint, heard of last, is
    chosen. *)
Lemma stateRouting_ranks_endpoints_witness :
  let np' := (stateRouting Scenario.private_ip Scenario.routing_clock
                           Scenario.routed_peer).1 in
  epAddr <$> Endpoints np'
    = [Scenario.lan_addr; Scenario.wan_addr; Scenario.proxy_addr]
  ∧ Endpoint np' = Some Scenario.lan_addr
  ∧ State np' = PeerStateConnected.
Proof.
  intros np'.
  destruct (stateRouting_ranks_endpoints Scenario.private_ip Scenario.routing_clock
              Scenario.routed_peer) as (_ & _ & _ & _ & H).
  destruct (H 2%nat (mkPeerEndpoint Scenario.lan_addr (44 * Millisecond)))
    as (a & Ha & _ & Hs).
  - reflexivity.
  - by apply (bool_decide_unpack _).
  - split; [by vm_compute|]. split; [by vm_compute|exact Hs].
Defined.

(** ** Waiting for the addresses of a peer *)

Lemma node_requests_app effs1 effs2 :
  node_requests (effs1 ++ effs2) = (node_requests effs1 + node_requests effs2)%nat.
Proof. induction effs1 as [|[] effs1 IH]; cbn; by rewrite ?IH. Qed.

(** The loop from any of its states: [attempts] retries are behind it, and
    at least [d] has passed since the last request when the clock is read
    next. *)
Lemma requestedIP_loop_gives_up env np requestSentAt attempts prev d :
  quiet env → paced prev env →
  0 ≤ attempts ≤ 5 → 0 ≤ d ≤ 1100 * Millisecond → d ≤ prev - requestSentAt →
  (5 - attempts) * (1100 * Millisecond) + (1100 * Millisecond - d) + 100 * Millisecond
    ≤ Z.of_nat (length env) * (100 * Millisecond) →
  ∃ effs,
    requestedIP_loop env requestSentAt attempts np
      = Returned (with_State np PeerStateDisconnect) effs false
    ∧ Z.of_nat (node_requests effs) = 6 - attempts.
Proof.
  unfold Millisecond.
  revert requestSentAt attempts prev d.
  induction env as [|tk env IH]; intros sentAt a prev d Hq Hp Ha Hd Hprev Hlen.
  - cbn in Hlen. lia.
  - apply Forall_cons in Hq as [[Hknown Hsend] Hq].
    destruct Hp as (Hp1 & Hp2 & Hp3). unfold Millisecond in Hp3.
    cbn [length] in Hlen. cbn [requestedIP_loop]. unfold Millisecond.
    rewrite Hsend, Hknown. cbn [negb andb length].
    rewrite andb_false_r.
    destruct (bool_decide_reflect (clock_since tk - sentAt > 1000 * 1000000)) as [Hre|Hre].
    + (* the request is sent again *)
      destruct (bool_decide_reflect (a + 1 > 5)) as [Hcap|Hcap].
      * cbn. eexists. split; [done|]. cbn. lia.
      * rewrite bool_decide_eq_false_2 by lia.
        destruct (IH (clock_now tk) (a + 1) (clock_now tk + 100 * 1000000) (100 * 1000000))
          as (effs & -> & Hn); [done|done|lia..|].
        cbn. eexists. split; [done|].
        cbn. lia.
    + (* not yet *)
      rewrite bool_decide_eq_false_2 by lia.
      rewrite bool_decide_eq_false_2 by lia.
      destruct (IH sentAt a (clock_now tk + 100 * 1000000) (d + 100 * 1000000))
        as (effs & -> & Hn); [done|done|lia..|].
      cbn. eexists. split; [done|].
      cbn. lia.
Qed.

Lemma add_effects_app effs1 effs2 o :
  add_effects effs1 (add_effects effs2 o) = add_effects (effs1 ++ effs2) o.
Proof. destruct o; cbn; by rewrite app_assoc. Qed.

(** As long as no address arrives, the loop that is still running has counted
    a retry for every request it has sent, and goes on from there. *)
Lemma requestedIP_loop_goes_on env np requestSentAt attempts effs :
  quiet env → attempts ≤ 5 →
  requestedIP_loop env requestSentAt attempts np = StillRunning effs →
  ∃ requestSentAt',
    attempts + Z.of_nat (node_requests effs) ≤ 5
    ∧ ∀ more,
        requestedIP_loop (env ++ more) requestSentAt attempts np
        = add_effects effs
            (requestedIP_loop more requestSentAt'
               (attempts + Z.of_nat (node_requests effs)) np).
Proof.
  revert requestSentAt attempts effs.
  induction env as [|tk env IH]; intros sentAt a effs Hq Ha Hrun.
  - injection Hrun as <-. exists sentAt. cbn. split; [lia|]. intros more.
    rewrite Z.add_0_r. by destruct (requestedIP_loop more sentAt a np).
  - apply Forall_cons in Hq as [[Hknown Hsend] Hq].
    cbn [requestedIP_loop] in Hrun. rewrite Hsend, Hknown in Hrun.
    cbn [negb andb length] in Hrun. rewrite andb_false_r in Hrun.
    destruct (bool_decide_reflect (clock_since tk - sentAt > 1000 * Millisecond))
      as [Hre|Hre].
    + destruct (bool_decide_reflect (a + 1 > 5)) as [Hcap|Hcap]; [done|].
      rewrite (bool_decide_eq_false_2 (0 < 0)%nat) in Hrun by lia.
      destruct (requestedIP_loop env (clock_now tk) (a + 1) np) as [|effs0] eqn:E;
        [done|].
      injection Hrun as <-.
      destruct (IH (clock_now tk) (a + 1) effs0 Hq ltac:(lia) E) as (sentAt' & Hle & Hmore).
      exists sentAt'. cbn [node_requests app].
      split; [lia|]. intros more. cbn [app requestedIP_loop].
      rewrite Hsend, Hknown. cbn [negb andb length]. rewrite andb_false_r.
      rewrite (bool_decide_eq_true_2 _ Hre), (bool_decide_eq_false_2 _ Hcap).
      rewrite (bool_decide_eq_false_2 (0 < 0)%nat) by lia.
      replace (a + Z.of_nat (S (node_requests effs0)))
        with (a + 1 + Z.of_nat (node_requests effs0)) by lia.
      by rewrite Hmore, add_effects_app.
    + destruct (bool_decide_reflect (a > 5)) as [Hcap|Hcap]; [lia|].
      rewrite (bool_decide_eq_false_2 (0 < 0)%nat) in Hrun by lia.
      destruct (requestedIP_loop env sentAt a np) as [|effs0] eqn:E; [done|].
      injection Hrun as <-.
      destruct (IH sentAt a effs0 Hq Ha E) as (sentAt' & Hle & Hmore).
      exists sentAt'. cbn [node_requests app].
      split; [lia|]. intros more. cbn [app requestedIP_loop].
      rewrite Hsend, Hknown. cbn [negb andb length]. rewrite andb_false_r.
      rewrite (bool_decide_eq_false_2 _ Hre), (bool_decide_eq_false_2 _ Hcap).
      rewrite (bool_decide_eq_false_2 (0 < 0)%nat) by lia.
      by rewrite Hmore, add_effects_app.
Qed.


Lemma silent_tracker_paced n k :
  paced (Z.of_nat k * (100 * Millisecond))
        ((λ i : nat, mkTick (Z.of_nat i * (100 * Millisecond))
                             (Z.of_nat i * (100 * Millisecond)) true [])
         <$> seq k n).
Proof.
  revert k. induction n as [|n IH]; intros k; [done|].
  cbn. split; [lia|]. split; [lia|].
  replace (Z.of_nat k * (100 * Millisecond) + 100 * Millisecond)
    with (Z.of_nat (S k) * (100 * Millisecond)) by lia.
  apply IH.
Qed.



(** ** The sender of introduction requests *)

(** C8: the loop of the sender tests [round < 10] and never assigns [round]:
    however many turns are followed, the loop has not been left, and every
    turn has sent a full round.  With one known endpoint, eleven turns send
    eleven INTRO_REQ frames.  The handler itself moves to Routing at once. *)
Theorem intro_sender_never_finishes (create_fails : string → bool)
    (send_fails : UDPAddr → bool) (turns : nat) (dhtID : string)
    (knownIPs : list UDPAddr) (np : NetworkPeer) :
  intro_sender create_fails send_fails turns 0 dhtID knownIPs
    = (false, concat (replicate turns (intro_round create_fails send_fails dhtID knownIPs)))
  ∧ stateConnecting np
    = (with_State np PeerStateRouting,
       [Go_intro_sender; DhtSendState (ID np) PeerStateRouting]).
Proof.
  split; [|done].
  induction turns as [|turns IH]; [done|].
  cbn [intro_sender replicate concat]. rewrite bool_decide_eq_true_2 by lia.
  by rewrite IH.
Qed.

(** Eleven turns with one known endpoint. *)
Lemma intro_sender_eleven_rounds :
  let run := intro_sender (λ _, false) (λ _, false) 11 0 "self-id" [Scenario.wan_addr] in
  run.1 = false
  ∧ length (filter (λ e, e = UdpSend MsgTypeIntroReq "self-id203.0.113.9:4000"
                               Scenario.wan_addr) run.2) = 11%nat.
Proof. by vm_compute. Qed.

(** ** The loop of [Run] *)
Section Run.
Variable handlers : PeerState → string → NetworkPeer → NetworkPeer * list effect.

(** C10: while the DHT client has no id, a turn of the loop of [Run] calls no
    handler: it only sleeps for 500 ms, and the peer changes by the hand of
    other goroutines only.  A state set to Stop ends the loop: the loop is
    left at the first turn that finds the peer in Stop, before that turn
    sleeps, and it is not left as long as no turn finds it there.  [k] is
    the number of turns taken. *)
Theorem Run_idle_without_id (env : list observation) (np : NetworkPeer) :
  Forall (λ obs, dht_ID obs = "") env →
  let '(stopped, np', effs) := Run handlers env np in
  ∃ k, (k ≤ length env)%nat
    ∧ np' = interfered env k (started np)
    ∧ (∀ state, Callback state ∉ effs)
    ∧ (∀ j, (0 < j < k)%nat → State (interfered env j (started np)) ≠ PeerStateStop)
    ∧ (if stopped
       then (0 < k)%nat ∧ State np' = PeerStateStop
            ∧ effs = replicate (k - 1) (Sleep (500 * Millisecond))
       else k = length env ∧ ((0 < k)%nat → State np' ≠ PeerStateStop)
            ∧ effs = replicate k (Sleep (500 * Millisecond))).
Proof.
  intros Hids. unfold Run. generalize (started np). clear np.
  induction Hids as [|obs env Hid _ IH]; intros np.
  - exists 0%nat. cbn. split; [lia|]. split; [done|].
    split; [by intros ? ?%elem_of_nil|]. split; [intros; lia|].
    split; [done|]. split; [lia|done].
  - cbn [Run_loop]. case_bool_decide as Hstop.
    + exists 1%nat. cbn. split; [lia|]. split; [done|].
      split; [by intros ? ?%elem_of_nil|]. split; [intros; lia|].
      split; [lia|]. done.
    + rewrite Hid, streq_refl. specialize (IH (interference obs np)).
      destruct (Run_loop handlers env (interference obs np)) as [[stopped np'] effs].
      destruct IH as (k & Hk & Hnp & Hcb & Hbefore & Hend).
      exists (S k). cbn [length]. split; [lia|]. split; [done|]. split.
      { intros state [?|?]%elem_of_cons; [done|]. by eapply Hcb. }
      split.
      { intros [|j] Hj; [lia|]. destruct j as [|j]; [done|].
        apply (Hbefore (S j)). lia. }
      destruct stopped.
      * destruct Hend as (Hpos & Hst & ->). split; [lia|]. split; [done|].
        replace (S k - 1)%nat with (S (k - 1)) by lia. done.
      * destruct Hend as (-> & Hst & ->). split; [done|]. split; [|done].
        intros _. destruct env as [|obs' env]; [by subst np'|]. apply Hst. cbn. lia.
Qed.

End Run.

(** Four turns without an id; before the third, another goroutine stops the
    peer: two sleeps and the loop is left, whatever the fourth turn holds. *)
Lemma Run_idle_without_id_witness :
  let waiting := mkObservation "" (λ np, np) (λ np, np) in
  let stop := mkObservation "" (λ np, with_State np PeerStateStop) (λ np, np) in
  let peer := Scenario.overlay_peer "peer-1" "10.10.0.2" "06:00:00:00:00:01" in
  let run := Run (λ _ _ np, SetState np PeerStateDisconnect)
                 [waiting; waiting; stop; waiting] peer in
  run = (true, with_State (started peer) PeerStateStop,
         [Sleep (500 * Millisecond); Sleep (500 * Millisecond)])
  ∧ ∀ state, Callback state ∉ run.2.
Proof.
  intros waiting stop peer run.
  pose proof (Run_idle_without_id (λ _ _ np, SetState np PeerStateDisconnect)
                [waiting; waiting; stop; waiting] peer) as H.
  fold run in H. destruct run as [[stopped np'] effs] eqn:Hrun.
  destruct H as (k & _ & _ & Hcb & _); [by repeat constructor|].
  split; [|exact Hcb]. rewrite <- Hrun. by vm_compute.
Defined.

End PeerTheory.

(** * The other state handlers *)
Module PeerStatesTheory.
Import Peer PeerStates PeerStatesSpec.

Lemma stateInit_result np lk :
  let c := uint8 (ConnectionAttempts np + 1) in
  ∃ np' lk' effs,
    stateInit np lk = (np', lk', effs, bool_decide (c > 5))
    ∧ ConnectionAttempts np' = c
    ∧ State np' = (if bool_decide (c > 5) then PeerStateDisconnect else PeerStateRequestedIP)
    ∧ KnownIPs np' = [] ∧ Endpoint np' = None
    ∧ PeerHW np' = None ∧ PeerLocalIP np' = None ∧ PeerAddr lk' = None
    ∧ reports effs = (if bool_decide (c > 5)
                      then [PeerStateRequestedIP; PeerStateDisconnect]
                      else [PeerStateRequestedIP])
    ∧ DhtSendNode (ID np) ∈ effs.
Proof.
  intros c. unfold stateInit. cbn. fold c. case_bool_decide; cbn.
  - do 3 eexists. split; [done|]. repeat split; try done. apply list_elem_of_here.
  - do 3 eexists. split; [done|]. repeat split; try done. apply list_elem_of_here.
Qed.

(** X22: every call of [stateInit] asks the tracker for the addresses of the
    peer before anything else, forgets what it knew of them, and counts the
    attempt.  Of the calls since [Run] has set the counter to zero, the
    first five report RequestedIP and leave the peer there; from the sixth
    on the call reports RequestedIP and then Disconnect, leaves the peer in
    Disconnect and returns an error (until the counter, a [uint8], is back
    at zero with the 256th call). *)
Theorem stateInit_gives_up_at_the_sixth (befores : list (NetworkPeer → NetworkPeer))
    (np : NetworkPeer) (lk : PeerLink) :
  ConnectionAttempts np = 0 →
  Forall keeps_attempts befores →
  init_calls befores np lk = init_result <$> seq 1 (length befores)
  ∧ ∀ np lk,
      let '(np', lk', effs, _) := stateInit np lk in
      head effs = Some (DhtSendNode (ID np))
      ∧ KnownIPs np' = [] ∧ Endpoint np' = None ∧ PeerHW np' = None
      ∧ PeerLocalIP np' = None ∧ PeerAddr lk' = None
      ∧ TestPacketReceived lk' = false ∧ IsUsingTURN lk' = false
      ∧ ConnectionAttempts np' = uint8 (ConnectionAttempts np + 1).
Proof.
  intros Hc Hb. split.
  - assert (Hgen : ∀ k np lk, ConnectionAttempts np = Z.of_nat k `mod` 256 →
              init_calls befores np lk = init_result <$> seq (S k) (length befores)).
    { clear np lk Hc. induction Hb as [|before befores Hk _ IH]; intros k np lk Hc; [done|].
      cbn [init_calls length seq fmap list_fmap].
      destruct (stateInit_result (before np) lk)
        as (np' & lk' & effs & -> & Hc' & Hs & _ & _ & _ & _ & _ & Hr & _).
      rewrite Hk, Hc in Hc'. unfold uint8 in Hc'.
      rewrite Zplus_mod_idemp_l in Hc'.
      replace (Z.of_nat k + 1) with (Z.of_nat (S k)) in Hc' by lia.
      rewrite (IH (S k) np' lk' Hc'). f_equal.
      unfold init_result. rewrite Hs, Hr. rewrite Hk, Hc. unfold uint8.
      rewrite Zplus_mod_idemp_l.
      replace (Z.of_nat k + 1) with (Z.of_nat (S k)) by lia.
      clear. by destruct (bool_decide (Z.of_nat (S k) `mod` 256 > 5)). }
    apply (Hgen 0%nat). by rewrite Hc.
  - clear. intros np lk. unfold stateInit. cbn. by case_bool_decide.
Qed.

(** X23: [stateHandshakingFailed] never ends in Disconnect.  After a failure
    over a forwarder it forgets the forwarder and reports Disconnect to the
    tracker, and then moves on as after any other failure: the peer is left
    in WaitingForwarder, which is also the last state reported.  Beside the
    state and the forwarder it writes [LastError], with a text that tells
    the two failures apart, and nothing else; the reports are all that it
    sends. *)
Theorem stateHandshakingFailed_waits_for_forwarder (np : NetworkPeer) (lk : PeerLink) :
  let '(np', lk', effs) := stateHandshakingFailed np lk in
  np' = with_State np PeerStateWaitingForwarder
  ∧ lk' = mkPeerLink None (PeerAddr lk) (LastContact lk)
            (match Forwarder lk with
             | Some _ => "Failed to handshake with this peer over forwarder"
             | None => "Failed to handshake with this peer"
             end)
            (TestPacketReceived lk) (IsUsingTURN lk)
  ∧ effs = DhtSendState (ID np)
             <$> match Forwarder lk with
                 | Some _ => [PeerStateDisconnect; PeerStateWaitingForwarder]
                 | None => [PeerStateWaitingForwarder]
                 end.
Proof.
  unfold stateHandshakingFailed. destruct (Forwarder lk) eqn:E; cbn; by rewrite ?E.
Qed.

(** ** [stateConnected] *)
Section Connected.
Variable create_fails : string → bool.

Lemma xpeer_pings_to_endpoints (eps : list PeerEndpoint) e :
  e ∈ xpeer_pings create_fails eps →
  ∃ ep, ep ∈ eps ∧ e = UdpSend MsgTypeXpeerPing (UDPAddr_String (epAddr ep)) (epAddr ep).
Proof.
  unfold xpeer_pings. induction eps as [|a eps IH]; cbn; [by intros ?%elem_of_nil|].
  rewrite elem_of_app. intros [He|He].
  - exists a. split; [apply list_elem_of_here|].
    destruct (create_fails _); [by apply elem_of_nil in He|].
    by apply list_elem_of_singleton in He.
  - destruct (IH He) as (ep & ? & ?). exists ep. split; [by apply list_elem_of_further|done].
Qed.

Lemma xpeer_pings_no_report (eps : list PeerEndpoint) :
  reports (xpeer_pings create_fails eps) = [].
Proof.
  unfold reports, xpeer_pings. induction eps as [|ep eps IH]; [done|].
  cbn. rewrite omap_app, IH. by destruct (create_fails _).
Qed.

(** X24: [stateConnected] never leaves the peer in Connected.  A remote
    Disconnect or Stop, and a missing MAC or IP, take it to Disconnect, a
    remote Init to Init, and everything else to Routing.  Pings go out on
    the way to Routing only, and only when the last contact is more than 3 s
    back: then the contact is set to now, and each ping goes to an endpoint
    of the peer and carries the text of that endpoint. *)
Theorem stateConnected_moves_on (since now : Z) (np : NetworkPeer) (lk : PeerLink) :
  let '(np', lk', effs) := stateConnected create_fails since now np lk in
  State np' = (if decide (healthy np) then PeerStateRouting
               else if decide (RemoteState np = PeerStateInit) then PeerStateInit
               else PeerStateDisconnect)
  ∧ reports effs = [State np']
  ∧ LastContact lk' = (if decide (healthy np ∧ ping_due since lk) then now
                       else LastContact lk)
  ∧ (∀ e, e ∈ effs → e = DhtSendState (ID np) (State np')
       ∨ (healthy np ∧ ping_due since lk ∧ ∃ ep, ep ∈ Endpoints np
            ∧ e = UdpSend MsgTypeXpeerPing (UDPAddr_String (epAddr ep)) (epAddr ep))).
Proof.
  assert (Hone : ∀ s (e : effect), e ∈ [DhtSendState (ID np) s] →
            e = DhtSendState (ID np) s
            ∨ (healthy np ∧ ping_due since lk ∧ ∃ ep, ep ∈ Endpoints np
                 ∧ e = UdpSend MsgTypeXpeerPing (UDPAddr_String (epAddr ep)) (epAddr ep))).
  { intros s e ->%list_elem_of_singleton. by left. }
  unfold stateConnected.
  destruct (decide (healthy np)) as [Hh|Hh].
  - pose proof Hh as (Hr & [hw Ehw] & [ip Eip]).
    rewrite !bool_decide_eq_false_2 by (intros Heq; apply Hr; rewrite Heq; set_solver).
    rewrite Ehw, Eip. fold (ping_due since lk).
    destruct (decide (ping_due since lk)) as [Hdue|Hdue].
    + rewrite bool_decide_eq_true_2 by done. cbn.
      rewrite decide_True by done. split; [done|]. split.
      { unfold reports. rewrite omap_app. fold (reports (xpeer_pings create_fails (Endpoints np))).
        by rewrite xpeer_pings_no_report. }
      split; [done|]. intros e [He|He]%elem_of_app; [|by apply Hone].
      right. split; [done|]. split; [done|]. by apply xpeer_pings_to_endpoints.
    + rewrite bool_decide_eq_false_2 by done. cbn.
      rewrite decide_False by (by intros [_ ?]). split; [done|]. split; [done|].
      split; [done|]. apply Hone.
  - rewrite (decide_False (P := healthy np ∧ _)) by (by intros [? _]).
    destruct (decide (RemoteState np = PeerStateDisconnect)) as [Hd|Hd].
    { rewrite bool_decide_eq_true_2 by done. cbn. rewrite decide_False by congruence.
      split; [done|]. split; [done|]. split; [done|]. apply Hone. }
    rewrite bool_decide_eq_false_2 by done.
    destruct (decide (RemoteState np = PeerStateStop)) as [Hs|Hs].
    { rewrite bool_decide_eq_true_2 by done. cbn. rewrite decide_False by congruence.
      split; [done|]. split; [done|]. split; [done|]. apply Hone. }
    rewrite bool_decide_eq_false_2 by done.
    destruct (decide (RemoteState np = PeerStateInit)) as [Hi|Hi].
    { rewrite bool_decide_eq_true_2 by done. cbn.
      split; [done|]. split; [done|]. split; [done|]. apply Hone. }
    rewrite bool_decide_eq_false_2 by done.
    destruct (PeerHW np) as [hw|] eqn:Ehw; [destruct (PeerLocalIP np) as [ip|] eqn:Eip|].
    + exfalso. apply Hh. split; [set_solver|]. split; eauto.
    + cbn. split; [done|]. split; [done|]. split; [done|]. apply Hone.
    + cbn. split; [done|]. split; [done|]. split; [done|]. apply Hone.
Qed.

End Connected.

(** ** The handlers that wait for the other side *)
Section Waiting.
Variable self : PeerState.
Variable joined : PeerState → bool.
Variable joined_state : PeerState.
Variable timeout_state : PeerState.
Variable nap : Z.

Local Abbreviation wait_loop := (wait_loop self joined joined_state timeout_state nap).
Local Abbreviation left_waiting := (left_waiting self joined).

(** While the minute has not passed, the handler goes on waiting. *)
Lemma wait_loop_waits started env np :
  left_waiting np env →
  Forall (λ w, clock w - started ≤ 1 * Minute) env →
  still_waiting (wait_loop started env np) (length env).
Proof.
  revert np. induction env as [|w env IH]; intros np Hl Hc.
  - exists []. by repeat split.
  - destruct Hl as (Hs & Hj & Hl). apply Forall_cons in Hc as [Hw Hc].
    cbn [PeerStates.wait_loop]. rewrite bool_decide_eq_true_2 by done. cbn [negb].
    rewrite Hj. rewrite bool_decide_eq_false_2 by lia.
    destruct (IH _ Hl Hc) as (effs & -> & Hlen & Hall).
    exists (Sleep nap :: effs). cbn. split; [done|]. split; [by rewrite Hlen|].
    constructor; [by eexists|done].
Qed.

(** With the clock going on, the handler gives up: [prev] is the last
    reading of the clock. *)
Lemma wait_loop_gives_up started env np prev :
  0 < nap →
  left_waiting np env → paced_by nap prev env →
  prev - started ≤ 1 * Minute →
  1 * Minute - (prev - started) < Z.of_nat (length env) * nap →
  ended_in (wait_loop started env np) timeout_state true.
Proof.
  intros Hnap. revert np prev.
  induction env as [|w env IH]; intros np prev Hl Hp Hprev Hlen.
  - cbn in Hlen. lia.
  - destruct Hl as (Hs & Hj & Hl). destruct Hp as [Hw Hp]. cbn [length] in Hlen.
    cbn [PeerStates.wait_loop]. rewrite bool_decide_eq_true_2 by done. cbn [negb].
    rewrite Hj. case_bool_decide as Hout.
    + cbn. by do 2 eexists.
    + destruct (IH (meanwhile w np) (clock w)) as (np' & effs & -> & Hst); [done|done|lia|lia|].
      cbn. by do 2 eexists.
Qed.

(** With the clock going on, the handler returns, whatever the others do. *)
Lemma wait_loop_ends started env np prev :
  0 < nap →
  paced_by nap prev env →
  prev - started ≤ 1 * Minute →
  1 * Minute - (prev - started) < Z.of_nat (length env) * nap →
  ∃ np' effs err, wait_loop started env np = Returned np' effs err.
Proof.
  intros Hnap. revert np prev.
  induction env as [|w env IH]; intros np prev Hp Hprev Hlen.
  - cbn in Hlen. lia.
  - destruct Hp as [Hw Hp]. cbn [length] in Hlen.
    cbn [PeerStates.wait_loop]. destruct (negb _); [by do 3 eexists|].
    destruct (joined _); [cbn; by do 3 eexists|].
    case_bool_decide as Hout; [cbn; by do 3 eexists|].
    destruct (IH (meanwhile w np) (clock w)) as (np' & effs & err & ->); [done|lia|lia|].
    cbn. by do 3 eexists.
Qed.

(** However the handler returns, it has set no state but the two it is
    made for; when it has set none, another goroutine has moved the peer. *)
Lemma wait_loop_returns started env np np' effs err :
  wait_loop started env np = Returned np' effs err →
  (err = true ∧ State np' = timeout_state ∧ reports effs = [timeout_state])
  ∨ (err = false ∧ State np' = joined_state ∧ reports effs = [joined_state])
  ∨ (err = false ∧ State np' ≠ self ∧ reports effs = []).
Proof.
  revert np effs. induction env as [|w env IH]; intros np effs; [done|].
  cbn [PeerStates.wait_loop]. case_bool_decide as Hs; cbn [negb].
  - destruct (joined _).
    + cbn. intros [= <- <- <-]. right. left. done.
    + case_bool_decide.
      * cbn. intros [= <- <- <-]. left. done.
      * destruct (PeerStates.wait_loop _ _ _ _ _ _ _ _) as [np1 effs1 err1|effs1] eqn:E; [|done].
        cbn. intros [= <- <- <-]. apply (IH _ _ E).
  - intros [= <- <- <-]. right. right. done.
Qed.

End Waiting.

(** X25: [stateWaitingToConnect] waits for the remote peer for one minute and
    no longer.  As long as the clock has not passed the minute it goes on
    sleeping; with a clock that goes on by at least the 10 ms of every
    sleep, and a remote peer that does not join, it has set the peer to
    Disconnect and returned an error by its 6001st turn. *)
Theorem stateWaitingToConnect_gives_up_after_a_minute (started : Z) (env : list wake)
    (np : NetworkPeer) :
  left_waiting PeerStateWaitingToConnect joined_connect np env →
  (Forall (λ w, clock w - started ≤ 1 * Minute) env →
   still_waiting (stateWaitingToConnect started env np) (length env))
  ∧ (paced_by (10 * Millisecond) started env → 6001 ≤ Z.of_nat (length env) →
     ended_in (stateWaitingToConnect started env np) PeerStateDisconnect true).
Proof.
  intros Hl. split.
  - intros Hc. by apply wait_loop_waits.
  - intros Hp Hlen. apply (wait_loop_gives_up _ _ _ _ _ started env np started);
      try done; unfold Minute, Second, Millisecond; lia.
Qed.

(** X26: [stateConnectingDirectlyWait] and [stateConnectingInternetWait] end
    the wait one way or the other.  When they return they have either moved
    the peer on to ConnectingDirectly (to ConnectingInternet), with an error
    if that was after the minute, or another goroutine had taken the peer
    out of the waiting state; and they do return, by their 601st turn, with
    a clock that goes on by at least the 100 ms of every sleep. *)
Theorem waiting_handlers_force_the_connection (started : Z) (env : list wake)
    (np : NetworkPeer) :
  (∀ np' effs err,
     stateConnectingDirectlyWait started env np = Returned np' effs err →
     State np' ≠ PeerStateConnectingDirectlyWait
     ∧ (reports effs = [PeerStateConnectingDirectly] ∧ State np' = PeerStateConnectingDirectly
        ∨ reports effs = [] ∧ err = false))
  ∧ (∀ np' effs err,
     stateConnectingInternetWait started env np = Returned np' effs err →
     State np' ≠ PeerStateConnectingInternetWait
     ∧ (reports effs = [PeerStateConnectingInternet] ∧ State np' = PeerStateConnectingInternet
        ∨ reports effs = [] ∧ err = false))
  ∧ (paced_by (100 * Millisecond) started env → 601 ≤ Z.of_nat (length env) →
     (∃ np' effs err, stateConnectingDirectlyWait started env np = Returned np' effs err)
     ∧ (∃ np' effs err, stateConnectingInternetWait started env np = Returned np' effs err)).
Proof.
  split; [|split].
  - intros np' effs err H. apply wait_loop_returns in H.
    destruct H as [(-> & Hs & Hr)|[(-> & Hs & Hr)|(-> & Hs & Hr)]].
    + rewrite Hs. split; [done|]. by left.
    + rewrite Hs. split; [done|]. by left.
    + split; [done|]. by right.
  - intros np' effs err H. apply wait_loop_returns in H.
    destruct H as [(-> & Hs & Hr)|[(-> & Hs & Hr)|(-> & Hs & Hr)]].
    + rewrite Hs. split; [done|]. by left.
    + rewrite Hs. split; [done|]. by left.
    + split; [done|]. by right.
  - intros Hp Hlen. split.
    + apply (wait_loop_ends _ _ _ _ _ started env np started);
        try done; unfold Minute, Second, Millisecond; lia.
    + apply (wait_loop_ends _ _ _ _ _ started env np started);
        try done; unfold Minute, Second, Millisecond; lia.
Qed.

(** ** [stateWaitingForProxy] *)

Lemma waitingForProxy_waits started env np :
  Forall (λ now, now - started < 4000 * Millisecond) env →
  still_waiting (waitingForProxy_loop started env np) (length env).
Proof.
  induction 1 as [|now env Hnow _ IH].
  - exists []. by repeat split.
  - cbn [waitingForProxy_loop]. rewrite bool_decide_eq_true_2 by done.
    destruct IH as (effs & -> & Hlen & Hall).
    exists (Sleep (100 * Millisecond) :: effs). cbn. split; [done|]. split; [by rewrite Hlen|].
    constructor; [by eexists|done].
Qed.

Lemma waitingForProxy_moves_on started env np prev :
  paced_readings (100 * Millisecond) prev env →
  prev - started < 4100 * Millisecond →
  4100 * Millisecond - (prev - started) ≤ Z.of_nat (length env) * (100 * Millisecond) →
  ∃ effs,
    waitingForProxy_loop started env np
    = Returned (with_State np PeerStateConnecting) effs false
    ∧ reports effs = [PeerStateConnecting]
    ∧ Z.of_nat (sleeps effs) * (100 * Millisecond) < 4100 * Millisecond - (prev - started).
Proof.
  revert prev.
  induction env as [|now env IH]; intros prev Hp Hprev Hlen.
  - cbn in Hlen. unfold Millisecond in *. lia.
  - destruct Hp as [Hnow Hp]. cbn [length] in Hlen. cbn [waitingForProxy_loop].
    case_bool_decide as Hwait.
    + destruct (IH (now + 100 * Millisecond)) as (effs & -> & Hr & Hs);
        [done|unfold Millisecond in *; lia..|].
      exists (Sleep (100 * Millisecond) :: effs). split; [done|]. split; [done|].
      cbn [sleeps]. unfold Millisecond in *. lia.
    + exists [DhtSendState (ID np) PeerStateConnecting]. split; [done|]. split; [done|].
      cbn. unfold Millisecond in *. lia.
Qed.

(** X27: [stateWaitingForProxy] is a pause of four seconds.  It looks at
    nothing of the peer: as long as the clock is within 4 s of the start it
    sleeps, and with a clock that goes on by at least the 100 ms of every
    sleep it has moved the peer to Connecting by its 41st look at the clock,
    after at most 40 sleeps and without an error. *)
Theorem stateWaitingForProxy_pauses_four_seconds (started : Z) (env : list Z)
    (np : NetworkPeer) :
  (Forall (λ now, now - started < 4000 * Millisecond) env →
   still_waiting (stateWaitingForProxy started env np) (length env))
  ∧ (paced_readings (100 * Millisecond) started env → 41 ≤ Z.of_nat (length env) →
     ∃ effs,
       stateWaitingForProxy started env np
       = Returned (with_State np PeerStateConnecting) effs false
       ∧ reports effs = [PeerStateConnecting]
       ∧ Z.of_nat (sleeps effs) ≤ 40).
Proof.
  split; [apply waitingForProxy_waits|].
  intros Hp Hlen. unfold stateWaitingForProxy.
  destruct (waitingForProxy_moves_on started env np started) as (effs & -> & Hr & Hs);
    [done|unfold Millisecond; lia..|].
  exists effs. split; [done|]. split; [done|]. unfold Millisecond in Hs. lia.
Qed.

(** ** [Run] and the handlers *)
Section RunMore.
Variable handlers : PeerState → string → NetworkPeer → NetworkPeer * list effect.

Lemma Run_loop_dispatches (env : list observation) (np : NetworkPeer) :
  (∀ state id np state', Callback state' ∉ (handlers state id np).2) →
  let '(stopped, np', effs) := Run_loop handlers env np in
  (Forall no_late_stop env → Callback PeerStateStop ∉ effs)
  ∧ (∀ code, Callback (PeerStateOther code) ∉ effs)
  ∧ (stopped = true → State np' = PeerStateStop).
Proof.
  intros Hh. revert np.
  induction env as [|obs env IH]; intros np.
  - cbn. split; [by intros _ ?%elem_of_nil|]. split; [by intros ? ?%elem_of_nil|done].
  - cbn [Run_loop]. case_bool_decide as Hstop.
    + cbn. split; [by intros _ ?%elem_of_nil|]. split; [by intros ? ?%elem_of_nil|done].
    + destruct (streq (dht_ID obs) "").
      * specialize (IH (interference obs np)).
        destruct (Run_loop handlers env (interference obs np)) as [[stopped np'] effs].
        destruct IH as (H1 & H2 & H3). split; [|split; [|done]].
        -- intros [_ Hl]%Forall_cons [?|?]%elem_of_cons; [done|]. by apply H1.
        -- intros code [?|?]%elem_of_cons; [done|]. by eapply H2.
      * set (np0 := before_dispatch obs (interference obs np)).
        destruct (stateHandlers handlers (State np0)) as [callback|] eqn:Eh.
        -- assert (Hcb : callback = handlers (State np0)
                         ∧ ∀ code, State np0 ≠ PeerStateOther code).
           { unfold stateHandlers in Eh. destruct (State np0); by inversion Eh. }
           destruct Hcb as [-> Hnamed].
           pose proof (Hh (State np0) (dht_ID obs) np0) as Hquiet.
           destruct (handlers _ _ _) as [np1 effs1]. cbn [snd] in Hquiet.
           specialize (IH np1).
           destruct (Run_loop handlers env np1) as [[stopped np'] effs].
           destruct IH as (H1 & H2 & H3). split; [|split; [|done]].
           ++ intros [Hl Hls]%Forall_cons.
              rewrite elem_of_cons, elem_of_app, elem_of_cons.
              intros [[= Heq]|[?|[?|?]]];
                [by apply (Hl _ Hstop)|by eapply Hquiet|done|by apply H1].
           ++ intros code. rewrite elem_of_cons, elem_of_app, elem_of_cons.
              intros [[= Heq]|[?|[?|?]]];
                [by eapply Hnamed|by eapply Hquiet|done|by eapply H2].
        -- specialize (IH np0).
           destruct (Run_loop handlers env np0) as [[stopped np'] effs].
           destruct IH as (H1 & H2 & H3). split; [|split; [|done]].
           ++ intros [_ Hl]%Forall_cons [?|?]%elem_of_cons; [done|]. by apply H1.
           ++ intros code [?|?]%elem_of_cons; [done|]. by eapply H2.
Qed.

(** The loop over two stretches of turns. *)
Lemma Run_loop_app (env1 env2 : list observation) (np : NetworkPeer) :
  Run_loop handlers (env1 ++ env2) np =
  let '(stopped1, np1, effs1) := Run_loop handlers env1 np in
  if stopped1 then (true, np1, effs1)
  else let '(stopped2, np2, effs2) := Run_loop handlers env2 np1 in
       (stopped2, np2, effs1 ++ effs2).
Proof.
  revert np. induction env1 as [|obs env1 IH]; intros np.
  - cbn. by destruct (Run_loop handlers env2 np) as [[??]?].
  - cbn [app Run_loop]. case_bool_decide; [done|].
    destruct (streq (dht_ID obs) "").
    + rewrite IH. destruct (Run_loop handlers env1 _) as [[[] np1] effs1]; [done|].
      by destruct (Run_loop handlers env2 np1) as [[??]?].
    + destruct (stateHandlers handlers _) as [callback|].
      * destruct (callback _ _) as [np0 effs0]. rewrite IH.
        destruct (Run_loop handlers env1 _) as [[[] np1] effs1]; [done|].
        destruct (Run_loop handlers env2 np1) as [[??]?].
        cbn. by rewrite <- !app_assoc.
      * rewrite IH. destruct (Run_loop handlers env1 _) as [[[] np1] effs1]; [done|].
        by destruct (Run_loop handlers env2 np1) as [[??]?].
Qed.

(** X28: [Run] leaves its loop in Stop only, and it tests for Stop before it
    dispatches, so that the handler it registers for Stop is not called
    after a handler has set the state to Stop.  [stateStop] is called in
    one case only: when another goroutine writes Stop between the test at
    the top of the loop and the second read of [np.State] for the
    dispatch; and in that case it is called, in that very turn.  No handler
    is called for a state without one.  ([Callback] marks a dispatch; no
    handler emits it.) *)
Theorem Run_calls_stateStop_on_late_Stop_only (env : list observation)
    (np : NetworkPeer) :
  (∀ state id np state', Callback state' ∉ (handlers state id np).2) →
  let '(stopped, np', effs) := Run handlers env np in
  (Forall no_late_stop env → Callback PeerStateStop ∉ effs)
  ∧ (∀ code, Callback (PeerStateOther code) ∉ effs)
  ∧ (stopped = true → State np' = PeerStateStop)
  ∧ (∀ obs more, stopped = false → dht_ID obs ≠ "" →
       State (interference obs np') ≠ PeerStateStop →
       State (before_dispatch obs (interference obs np')) = PeerStateStop →
       ∃ after, (Run handlers (env ++ obs :: more) np).2
                = effs ++ Callback PeerStateStop :: after).
Proof.
  intros Hh. unfold Run.
  pose proof (Run_loop_dispatches env (started np) Hh) as Hgen.
  pose proof (λ obs more, Run_loop_app env (obs :: more) (started np)) as Happ.
  destruct (Run_loop handlers env (started np)) as [[stopped np'] effs].
  destruct Hgen as (H1 & H2 & H3). split; [done|]. split; [done|]. split; [done|].
  intros obs more -> Hid Hfirst Hsecond. rewrite Happ. cbn [Run_loop].
  rewrite bool_decide_eq_false_2 by done.
  apply streq_false in Hid. rewrite Hid. rewrite Hsecond. cbn [stateHandlers].
  destruct (handlers _ _ _) as [np1 effs1].
  destruct (Run_loop handlers more np1) as [[stopped2 np2] effs2]. cbn. by eexists.
Qed.

End RunMore.

(** ** On the scenarios *)
Import Scenario.

Lemma left_waiting_idle self joined nap np k n :
  State np = self → joined (RemoteState np) = false →
  left_waiting self joined np
    ((λ i : nat, mkWake (λ np, np) (Z.of_nat (S i) * nap)) <$> seq k n).
Proof.
  intros Hs Hj. revert k. induction n as [|n IH]; intros k; [done|].
  cbn. split; [done|]. split; [done|]. apply IH.
Qed.

Lemma paced_by_idle nap k n :
  paced_by nap (Z.of_nat k * nap)
    ((λ i : nat, mkWake (λ np, np) (Z.of_nat (S i) * nap)) <$> seq k n).
Proof.
  revert k. induction n as [|n IH]; intros k; [done|].
  cbn [seq fmap list_fmap paced_by clock]. split; [lia|]. apply IH.
Qed.

Lemma paced_readings_clock nap k n :
  paced_readings nap (Z.of_nat k * nap) ((λ i : nat, Z.of_nat i * nap) <$> seq k n).
Proof.
  revert k. induction n as [|n IH]; intros k; [done|].
  cbn [seq fmap list_fmap paced_readings]. split; [lia|].
  replace (Z.of_nat k * nap + nap) with (Z.of_nat (S k) * nap) by lia. apply IH.
Qed.

(** Seven calls from the start of [Run]. *)
Lemma stateInit_gives_up_at_the_sixth_witness :
  init_calls (replicate 7 (λ np, np)) (started (joining_peer PeerStateInit)) no_link
  = replicate 5 (PeerStateRequestedIP, [PeerStateRequestedIP], false)
    ++ replicate 2 (PeerStateDisconnect,
                    [PeerStateRequestedIP; PeerStateDisconnect], true).
Proof.
  destruct (stateInit_gives_up_at_the_sixth (replicate 7 (λ np, np))
              (started (joining_peer PeerStateInit)) no_link) as [H _].
  - reflexivity.
  - apply Forall_replicate. by intros np.
  - exact H.
Defined.

Lemma stateWaitingToConnect_gives_up_after_a_minute_witness :
  ended_in (stateWaitingToConnect 0 (idle_wakes (10 * Millisecond) (Z.to_nat 6001))
              (joining_peer PeerStateWaitingToConnect))
           PeerStateDisconnect true.
Proof.
  apply (stateWaitingToConnect_gives_up_after_a_minute 0
           (idle_wakes (10 * Millisecond) (Z.to_nat 6001))
           (joining_peer PeerStateWaitingToConnect)).
  - by apply left_waiting_idle.
  - apply (paced_by_idle (10 * Millisecond) 0).
  - unfold idle_wakes. rewrite length_fmap, length_seq. lia.
Defined.

Lemma waiting_handlers_force_the_connection_witness :
  ∃ np' effs err,
    stateConnectingDirectlyWait 0 (idle_wakes (100 * Millisecond) 601)
      (joining_peer PeerStateConnectingDirectlyWait) = Returned np' effs err
    ∧ State np' ≠ PeerStateConnectingDirectlyWait.
Proof.
  destruct (waiting_handlers_force_the_connection 0 (idle_wakes (100 * Millisecond) 601)
              (joining_peer PeerStateConnectingDirectlyWait)) as (H1 & _ & H3).
  destruct H3 as [(np' & effs & err & E) _].
  - apply (paced_by_idle (100 * Millisecond) 0).
  - unfold idle_wakes. rewrite length_fmap, length_seq. lia.
  - exists np', effs, err. split; [exact E|]. by destruct (H1 np' effs err E) as [Hs _].
Defined.

Lemma stateWaitingForProxy_pauses_four_seconds_witness :
  ∃ effs,
    stateWaitingForProxy 0 (clock_readings (100 * Millisecond) 41)
      (joining_peer PeerStateWaitingForProxy)
    = Returned (with_State (joining_peer PeerStateWaitingForProxy) PeerStateConnecting)
               effs false
    ∧ reports effs = [PeerStateConnecting]
    ∧ Z.of_nat (sleeps effs) ≤ 40.
Proof.
  apply (stateWaitingForProxy_pauses_four_seconds 0 (clock_readings (100 * Millisecond) 41)
           (joining_peer PeerStateWaitingForProxy)).
  - apply (paced_readings_clock (100 * Millisecond) 0).
  - unfold clock_readings. rewrite length_fmap, length_seq. lia.
Defined.

(** A peer in Disconnect: [stateDisconnect] sets Stop, and the next turn
    leaves the loop without a call of [stateStop].  A peer in Connected that
    another goroutine stops between the two reads: [stateStop] is called. *)
Lemma Run_calls_stateStop_on_late_Stop_only_witness :
  let handlers := λ (state : PeerState) (_ : string) (np : NetworkPeer),
                    match state with
                    | PeerStateStop => stateStop np
                    | _ => stateDisconnect np
                    end in
  let turn := mkObservation "self-id" (λ np, np) (λ np, np) in
  let late := mkObservation "self-id" (λ np, np) (λ np, with_State np PeerStateStop) in
  let run := Run handlers [turn; turn] (joining_peer PeerStateDisconnect) in
  run = (true, with_State (started (joining_peer PeerStateDisconnect)) PeerStateStop,
         [Callback PeerStateDisconnect; DhtSendState "peer-4" PeerStateStop;
          Sleep (500 * Millisecond)])
  ∧ (Callback PeerStateStop ∉ run.2)
  ∧ ∃ after, (Run handlers [late; turn] (joining_peer PeerStateConnected)).2
             = Callback PeerStateStop :: after.
Proof.
  intros handlers turn late run.
  assert (Hh : ∀ state id np state', Callback state' ∉ (handlers state id np).2).
  { intros state id np state'. destruct state; cbn;
      first [by intros ?%elem_of_nil | by intros ?%list_elem_of_singleton]. }
  pose proof (Run_calls_stateStop_on_late_Stop_only handlers [turn; turn]
                (joining_peer PeerStateDisconnect) Hh) as H.
  pose proof (Run_calls_stateStop_on_late_Stop_only handlers []
                (joining_peer PeerStateConnected) Hh) as H'.
  fold run in H. destruct run as [[stopped np'] effs] eqn:Hrun.
  destruct H as (H1 & _ & _ & _).
  cbn [Run Run_loop] in H'. destruct H' as (_ & _ & _ & H4).
  split; [rewrite <- Hrun; by vm_compute|]. split.
  - apply H1. repeat (constructor; [by intros ? ?|]). constructor.
  - by apply (H4 late [turn]).
Defined.

End PeerStatesTheory.

(** * The TUN/TAP device *)
Module TunTheory.
Import Tun TunSpec.

(** X29: without the header ([meta] off), [WritePacket] never reports a
    success: it hands the bare packet to the file and then compares the
    count with the length of the buffer that holds four bytes more, so a
    complete write comes back as a short write.  With the header it reports
    a success exactly when the file has written without an error. *)
Theorem WritePacket_without_header_is_short (Write : list Z → Z * option string)
    (pkt : Packet) :
  file_write Write →
  WritePacket false Write pkt ≠ None
  ∧ ((Write (Payload pkt)).2 = None → WritePacket false Write pkt = Some ErrShortWrite)
  ∧ (WritePacket true Write pkt = None ↔ (Write (frame pkt)).2 = None).
Proof.
  intros Hw. unfold WritePacket.
  destruct (Hw (Payload pkt)) as [Hn1 Hf1]. destruct (Hw (frame pkt)) as [Hn2 Hf2].
  assert (Hlen : Z.of_nat (length (frame pkt)) = Z.of_nat (length (Payload pkt)) + 4).
  { unfold frame, PutUint16. cbn [length app]. lia. }
  destruct (Write (Payload pkt)) as [n1 [e1|]], (Write (frame pkt)) as [n2 [e2|]];
    cbn [fst snd] in *.
  - split; [done|]. split; [done|]. by split.
  - split; [done|]. split; [done|].
    rewrite bool_decide_eq_false_2 by (specialize (Hf2 eq_refl); lia). done.
  - rewrite bool_decide_eq_true_2 by lia. split; [done|]. split; [done|]. by split.
  - rewrite bool_decide_eq_true_2 by lia. split; [done|]. split; [done|].
    rewrite bool_decide_eq_false_2 by (specialize (Hf2 eq_refl); lia). done.
Qed.

Lemma Uint16_PutUint16 v :
  0 ≤ v < 65536 → Uint16 (Z.shiftr v 8 `mod` 256) (v `mod` 256) = v.
Proof.
  intros Hv. unfold Uint16.
  rewrite Z.shiftr_div_pow2 by lia. rewrite Z.shiftl_mul_pow2 by lia.
  change (2 ^ 8) with 256.
  rewrite (Z.mod_small (v `div` 256)) by (split; [apply Z.div_pos; lia|apply Z.div_lt_upper_bound; lia]).
  rewrite Z.lor_comm. rewrite <- Z.add_nocarry_lor.
  - pose proof (Z.div_mod v 256). lia.
  - apply Z.bits_inj'. intros n Hn. rewrite Z.land_spec, Z.bits_0.
    destruct (decide (n < 8)) as [Hlt|Hge].
    + change 256 with (2 ^ 8). rewrite Z.mul_pow2_bits_low by lia. done.
    + change 256 with (2 ^ 8). rewrite (Z.mod_pow2_bits_high v 8 n) by lia.
      apply andb_false_r.
Qed.

(** X30: the four-byte header goes round.  When the file hands back to
    [ReadPacket] the buffer that [WritePacket] has built for a packet (of
    at most 9996 bytes), the packet comes out with its bytes as they were
    and with the protocol reduced to 16 bits, and it is not marked as
    truncated.  With fewer than four bytes from the file, [ReadPacket]
    panics when the header is on. *)
Theorem header_goes_round (little_endian : bool) (pkt : Packet) :
  Z.of_nat (length (Payload pkt)) ≤ 9996 →
  ReadPacket true little_endian (inl (frame pkt))
  = Done (inl (mkPacket (uint16 (Protocol pkt)) (Payload pkt) false))
  ∧ ∀ data, (length data < 4)%nat →
      ReadPacket true little_endian (inl data) = Panicked.
Proof.
  intros Hlen. split.
  - unfold ReadPacket, frame, PutUint16.
    cbn [app length].
    assert (Hfour : (4 ≤ S (S (S (S (length (Payload pkt))))))%nat) by (clear; lia).
    rewrite (bool_decide_eq_true_2 _ Hfour).
    cbn [mbind result_bind drop].
    cbn [lookup_total list_lookup_total].
    assert (Hp : 0 ≤ uint16 (Protocol pkt) < 65536).
    { unfold uint16. apply Z.mod_pos_bound. lia. }
    rewrite (Uint16_PutUint16 _ Hp).
    do 3 f_equal. by destruct little_endian.
  - intros data Hd. unfold ReadPacket.
    by rewrite (bool_decide_eq_false_2 (4 ≤ length data)%nat) by lia.
Qed.

Import Scenario.

Lemma WritePacket_without_header_is_short_witness :
  WritePacket false whole_write ip_packet = Some ErrShortWrite
  ∧ WritePacket true whole_write ip_packet = None.
Proof.
  destruct (WritePacket_without_header_is_short whole_write ip_packet) as (_ & H2 & H3).
  - intros b. cbn. split; [lia|done].
  - split; [by apply H2|]. by apply H3.
Defined.

Lemma header_goes_round_witness :
  ReadPacket true true (inl [0; 0; 8; 0; 69; 0; 0; 20]) = Done (inl ip_packet).
Proof.
  destruct (header_goes_round true ip_packet) as [H _].
  - cbn. lia.
  - exact H.
Defined.

End TunTheory.
